(** * ULZ: a shallow embedding of [ulz.hpp] (class [CULZ]) and its properties

    The C++ code works on raw [U8*] pointers into caller-owned buffers and
    deliberately reads and writes a few bytes past the logical end of a buffer
    ([WildCopy]).  The embedding therefore uses a byte-addressed memory made of
    two blocks (the buffer behind [in] and the buffer behind [out]); a pointer
    is a block together with an offset, and every offset of a block can be read
    and written, so that what lies behind the logical end of a buffer is part
    of the model instead of being assumed away.

    Integer conventions: [int] values are modelled by [Z] (signed overflow is
    undefined behaviour in C++, the theorems bound the input length instead),
    [U32] arithmetic wraps modulo 2^32 ([u32]), stores to [U8] and [U16] keep
    the low 8 and 16 bits, multi-byte loads and stores are little-endian, and
    pointer differences are compared as 64-bit signed values. *)

From Stdlib Require Import ZArith List Lia Bool.
From Stdlib.Strings Require Import Byte.
From stdpp Require Import base option fin_maps zmap.
Import ListNotations.
Local Open Scope Z_scope.

(** ** Bytes and memory *)

Definition u8 (b : byte) : Z := Z.of_N (Byte.to_N b).

Definition to_u8 (x : Z) : byte :=
  match Byte.of_N (Z.to_N (Z.land x 255)) with
  | Some b => b
  | None => x00
  end.

Definition u16 (x : Z) : Z := Z.land x 65535.
Definition u32 (x : Z) : Z := Z.land x 4294967295.

Inductive block := BIn | BOut.

Record ptr := Ptr { blk : block; off : Z }.

Definition padd (p : ptr) (k : Z) : ptr := Ptr (blk p) (off p + k).
Notation "p .+ k" := (padd p k) (at level 50, left associativity).

Record memory := Mem { mem_in : Zmap byte; mem_out : Zmap byte }.

Definition cells (m : memory) (b : block) : Zmap byte :=
  match b with BIn => mem_in m | BOut => mem_out m end.

Definition load8 (m : memory) (p : ptr) : Z :=
  match cells m (blk p) !! off p with
  | Some b => u8 b
  | None => 0
  end.

Definition store8 (m : memory) (p : ptr) (x : Z) : memory :=
  match blk p with
  | BIn => Mem (<[off p := to_u8 x]> (mem_in m)) (mem_out m)
  | BOut => Mem (mem_in m) (<[off p := to_u8 x]> (mem_out m))
  end.

(** The bytes of a buffer, and a buffer holding given bytes. *)

Fixpoint read_bytes (m : memory) (p : ptr) (n : nat) : list byte :=
  match n with
  | O => []
  | S k => to_u8 (load8 m p) :: read_bytes m (p .+ 1) k
  end.

Fixpoint store_bytes (m : memory) (p : ptr) (bs : list byte) : memory :=
  match bs with
  | [] => m
  | b :: bs' => store_bytes (store8 m p (u8 b)) (p .+ 1) bs'
  end.

Definition empty_memory : memory := Mem ∅ ∅.

(** ** Constants of [CULZ] *)

Definition EXCESS : Z := 16.
Definition WINDOW_BITS : Z := 17.
Definition WINDOW_SIZE : Z := Z.shiftl 1 WINDOW_BITS.
Definition WINDOW_MASK : Z := WINDOW_SIZE - 1.
Definition MIN_MATCH : Z := 4.
Definition HASH_BITS : Z := 18.
Definition HASH_SIZE : Z := Z.shiftl 1 HASH_BITS.
Definition NIL : Z := -1.

(** ** Utils *)

Definition Min (a b : Z) : Z := if a <? b then a else b.
Definition Max (a b : Z) : Z := if a >? b then a else b.

Definition UnalignedLoad16 (m : memory) (p : ptr) : Z :=
  load8 m p + Z.shiftl (load8 m (p .+ 1)) 8.

Definition UnalignedLoad32 (m : memory) (p : ptr) : Z :=
  load8 m p + Z.shiftl (load8 m (p .+ 1)) 8
  + Z.shiftl (load8 m (p .+ 2)) 16 + Z.shiftl (load8 m (p .+ 3)) 24.

Definition UnalignedStore16 (m : memory) (p : ptr) (x : Z) : memory :=
  store8 (store8 m p x) (p .+ 1) (Z.shiftr x 8).

Definition UnalignedStore32 (m : memory) (p : ptr) (x : Z) : memory :=
  store8 (store8 (store8 (store8 m p x) (p .+ 1) (Z.shiftr x 8))
            (p .+ 2) (Z.shiftr x 16)) (p .+ 3) (Z.shiftr x 24).

(** [*(U32* )d = UnalignedLoad32(s)]: the four bytes are loaded before any of
    them is stored. *)
Definition UnalignedCopy32 (m : memory) (d s : ptr) : memory :=
  UnalignedStore32 m d (UnalignedLoad32 m s).

(** [for (int i=8; i<n; i+=8)]: the loop of [WildCopy]; [fuel] bounds the
    number of iterations ([WildCopy_loop_fuel] shows it is never exhausted). *)
Fixpoint WildCopy_loop (fuel : nat) (m : memory) (d s : ptr) (n i : Z) : memory :=
  match fuel with
  | O => m
  | S f =>
      if i <? n then
        let m1 := UnalignedCopy32 m (d .+ i) (s .+ i) in
        let m2 := UnalignedCopy32 m1 (d .+ (i + 4)) (s .+ (i + 4)) in
        WildCopy_loop f m2 d s n (i + 8)
      else m
  end.

Definition WildCopy (m : memory) (d s : ptr) (n : Z) : memory :=
  let m1 := UnalignedCopy32 m d s in
  let m2 := UnalignedCopy32 m1 (d .+ 4) (s .+ 4) in
  WildCopy_loop (Z.to_nat (Z.shiftr n 3)) m2 d s n 8.

Definition Hash32 (m : memory) (p : ptr) : Z :=
  Z.shiftr (u32 (UnalignedLoad32 m p * 2654435769)) (32 - HASH_BITS).

(** [EncodeMod(U8*& p, U32 x)]: returns the memory and the advanced pointer.
    A 32-bit [x] leaves the [while] loop after at most four rounds. *)
Fixpoint EncodeMod_loop (fuel : nat) (m : memory) (p : ptr) (x : Z) : memory * ptr :=
  match fuel with
  | O => (store8 m p x, p .+ 1)
  | S f =>
      if 128 <=? x then
        let x1 := x - 128 in
        EncodeMod_loop f (store8 m p (128 + Z.land x1 127)) (p .+ 1) (Z.shiftr x1 7)
      else (store8 m p x, p .+ 1)
  end.

Definition EncodeMod (m : memory) (p : ptr) (x : Z) : memory * ptr :=
  EncodeMod_loop 4 m p (u32 x).

(** [DecodeMod(U8*& p)]: returns the value and the advanced pointer;
    [for (int i=0; i<=28; i+=7)] runs at most five times. *)
Fixpoint DecodeMod_loop (fuel : nat) (m : memory) (p : ptr) (x i : Z) : Z * ptr :=
  match fuel with
  | O => (x, p)
  | S f =>
      if i <=? 28 then
        let c := load8 m p in
        let x' := u32 (x + u32 (Z.shiftl c i)) in
        if c <? 128 then (x', p .+ 1)
        else DecodeMod_loop f m (p .+ 1) x' (i + 7)
      else (x, p)
  end.

Definition DecodeMod (m : memory) (p : ptr) : Z * ptr :=
  DecodeMod_loop 5 m p 0 0.

(** ** The hash chain

    [int Head[HASH_SIZE]] and [int Tail[WINDOW_SIZE]] are fields of the
    object: they keep whatever an earlier call left in them, [Compress] resets
    [Head] only.  A table is a finite map from indices to [int]s. *)

Record CULZ := { Head : Zmap Z; Tail : Zmap Z }.

Definition tget (t : Zmap Z) (i : Z) : Z :=
  match t !! i with Some x => x | None => 0 end.

(** [for (int i=0; i<HASH_SIZE; ++i) Head[i]=NIL;] *)
Fixpoint Head_reset (n : nat) (i : Z) (H : Zmap Z) : Zmap Z :=
  match n with
  | O => H
  | S k => Head_reset k (i + 1) (<[i := NIL]> H)
  end.

(** ** LZ77: Compress *)

Record cstate := CState {
  c_mem : memory;
  c_op : ptr;
  c_run : Z;
  c_p : Z;
  c_Head : Zmap Z;
  c_Tail : Zmap Z
}.

Section Compress.
Variables (inp : ptr) (in_len : Z) (out : ptr) (level : Z).

Definition max_chain : Z :=
  if level <? 8 then Z.shiftl 1 level else WINDOW_SIZE.

(** [while (len<bound && in[s+len]==in[p+len]) ++len;] *)
Fixpoint match_len (fuel : nat) (m : memory) (s p bound len : Z) : Z :=
  match fuel with
  | O => len
  | S f =>
      if (len <? bound) && (load8 m (inp .+ (s + len)) =? load8 m (inp .+ (p + len)))
      then match_len f m s p bound (len + 1)
      else len
  end.

(** The chain walk of lines 136-159.  [chain_len] counts down as
    [if (!--chain_len) break;] does; it starts at [max_chain], which is
    positive for every level from 0 on. *)
Fixpoint search (chain_len : nat) (m : memory) (T : Zmap Z)
    (p max_match limit s best_len dist : Z) : Z * Z :=
  match chain_len with
  | O => (best_len, dist)
  | S c =>
      if s >? limit then
        if (load8 m (inp .+ (s + best_len)) =? load8 m (inp .+ (p + best_len)))
           && (UnalignedLoad32 m (inp .+ s) =? UnalignedLoad32 m (inp .+ p))
        then
          let len := match_len (Z.to_nat (max_match - MIN_MATCH)) m s p max_match MIN_MATCH in
          if len >? best_len then
            if len =? max_match then (len, p - s)
            else search c m T p max_match limit (tget T (Z.land s WINDOW_MASK)) len (p - s)
          else search c m T p max_match limit (tget T (Z.land s WINDOW_MASK)) best_len dist
        else search c m T p max_match limit (tget T (Z.land s WINDOW_MASK)) best_len dist
      else (best_len, dist)
  end.

(** The chain walk of the lookahead (lines 176-196): does some candidate
    for position [j] reach [target_len]? *)
Fixpoint probe (chain_len : nat) (m : memory) (T : Zmap Z)
    (j target_len best_len limit s : Z) : bool :=
  match chain_len with
  | O => false
  | S c =>
      if s >? limit then
        if (load8 m (inp .+ (s + best_len)) =? load8 m (inp .+ (j + best_len)))
           && (UnalignedLoad32 m (inp .+ s) =? UnalignedLoad32 m (inp .+ j))
           && (match_len (Z.to_nat (target_len - MIN_MATCH)) m s j target_len MIN_MATCH
               =? target_len)
        then true
        else probe c m T j target_len best_len limit (tget T (Z.land s WINDOW_MASK))
      else false
  end.

(** [for (int i=1; i<=2 && best_len; ++i)]: the 2-byte lookahead. *)
Fixpoint lookahead (n : nat) (m : memory) (H T : Zmap Z) (p best_len i : Z) : Z :=
  match n with
  | O => best_len
  | S k =>
      if (i <=? 2) && negb (best_len =? 0) then
        let target_len := best_len + i in
        let j := p + i in
        let limit := Max (j - WINDOW_SIZE) NIL in
        let s := tget H (Hash32 m (inp .+ j)) in
        let best_len' :=
          if probe (Z.to_nat max_chain) m T j target_len best_len limit s
          then 0 else best_len in
        lookahead k m H T p best_len' (i + 1)
      else best_len
  end.

(** Lines 126-200: the match finder at position [p], with the pending
    literal run [run]; returns [(best_len, dist)]. *)
Definition find_match (m : memory) (H T : Zmap Z) (run p : Z) : Z * Z :=
  let max_match := in_len - p in
  if max_match >=? MIN_MATCH then
    let limit := Max (p - WINDOW_SIZE) NIL in
    let '(best_len, dist) :=
      search (Z.to_nat max_chain) m T p max_match limit
        (tget H (Hash32 m (inp .+ p))) (MIN_MATCH - 1) 0 in
    let best_len :=
      if (best_len =? MIN_MATCH) && (run >=? 7 + 128) then 0 else best_len in
    let best_len :=
      if (level =? 9) && (best_len >=? MIN_MATCH) && (best_len <? max_match)
      then lookahead 2 m H T p best_len 1
      else best_len in
    (best_len, dist)
  else (MIN_MATCH - 1, 0).

(** The best match the chain walk of lines 132-159 finds at [p], before
    lines 161-198 reconsider it. *)
Definition best_found (m : memory) (H T : Zmap Z) (p : Z) : Z * Z :=
  search (Z.to_nat max_chain) m T p (in_len - p) (Max (p - WINDOW_SIZE) NIL)
    (tget H (Hash32 m (inp .+ p))) (MIN_MATCH - 1) 0.

(** Lines 161-162: [if (best_len==MIN_MATCH && run>=(7+128)) best_len=0;],
    the value of [best_len] after the statement. *)
Definition suppress_short (best_len run : Z) : Z :=
  if (best_len =? MIN_MATCH) && (run >=? 7 + 128) then 0 else best_len.

(** [const U32 h=Hash32(&in[p]); Tail[p&WINDOW_MASK]=Head[h]; Head[h]=p++;] *)
Definition insert_hash (m : memory) (H T : Zmap Z) (p : Z) : Zmap Z * Zmap Z :=
  let h := Hash32 m (inp .+ p) in
  (<[h := p]> H, <[Z.land p WINDOW_MASK := tget H h]> T).

(** [while (best_len--) { ... }] *)
Fixpoint insert_n (n : nat) (m : memory) (H T : Zmap Z) (p : Z) : Zmap Z * Zmap Z * Z :=
  match n with
  | O => (H, T, p)
  | S k =>
      let '(H', T') := insert_hash m H T p in
      insert_n k m H' T' (p + 1)
  end.

(** The tag byte and the pending literals (lines 207-223 and 248-262). *)
Definition emit_run (m : memory) (op : ptr) (run p tmp : Z) : memory * ptr :=
  if negb (run =? 0) then
    let '(m1, op1) :=
      if run >=? 7 then
        EncodeMod (store8 m op (Z.shiftl 7 5 + tmp)) (op .+ 1) (run - 7)
      else (store8 m op (Z.shiftl run 5 + tmp), op .+ 1) in
    (WildCopy m1 op1 (inp .+ (p - run)) run, op1 .+ run)
  else (store8 m op tmp, op .+ 1).

(** Lines 203-236. *)
Definition emit_match (st : cstate) (best_len dist : Z) : cstate :=
  let len := best_len - MIN_MATCH in
  let tmp := Z.land (Z.shiftr dist 12) 16 + Min len 15 in
  let '(m1, op1) := emit_run (c_mem st) (c_op st) (c_run st) (c_p st) tmp in
  let '(m2, op2) :=
    if len >=? 15 then EncodeMod m1 op1 (len - 15) else (m1, op1) in
  let m3 := UnalignedStore16 m2 op2 dist in
  let '(H', T', p') :=
    insert_n (Z.to_nat best_len) m3 (c_Head st) (c_Tail st) (c_p st) in
  CState m3 (op2 .+ 2) 0 p' H' T'.

(** Lines 239-245. *)
Definition emit_literal (st : cstate) : cstate :=
  let '(H', T') := insert_hash (c_mem st) (c_Head st) (c_Tail st) (c_p st) in
  CState (c_mem st) (c_op st) (c_run st + 1) (c_p st + 1) H' T'.

(** One round of [while (p<in_len)]. *)
Definition Compress_body (st : cstate) : cstate :=
  let '(best_len, dist) :=
    find_match (c_mem st) (c_Head st) (c_Tail st) (c_run st) (c_p st) in
  if best_len >=? MIN_MATCH then emit_match st best_len dist
  else emit_literal st.

(** [while (p<in_len)]; [None] when [fuel] rounds were not enough. *)
Fixpoint Compress_loop (fuel : nat) (st : cstate) : option cstate :=
  if c_p st <? in_len then
    match fuel with
    | O => None
    | S f => Compress_loop f (Compress_body st)
    end
  else Some st.

(** Lines 248-262: the literals left at the end. *)
Definition flush_tail (st : cstate) : cstate :=
  if negb (c_run st =? 0) then
    let '(m1, op1) := emit_run (c_mem st) (c_op st) (c_run st) (c_p st) 0 in
    CState m1 op1 (c_run st) (c_p st) (c_Head st) (c_Tail st)
  else st.

Definition Compress_init (self : CULZ) (m : memory) : cstate :=
  CState m out 0 0 (Head_reset (Z.to_nat HASH_SIZE) 0 (Head self)) (Tail self).

(** The state in which [Compress] returns. *)
Definition Compress_run (self : CULZ) (m : memory) : option cstate :=
  match Compress_loop (Z.to_nat in_len) (Compress_init self m) with
  | Some st => Some (flush_tail st)
  | None => None
  end.

(** [int Compress(U8* in, int in_len, U8* out, int level)]: the returned
    length [op-out] and the memory it leaves. *)
Definition Compress (self : CULZ) (m : memory) : option (Z * memory) :=
  match Compress_run self m with
  | Some st => Some (off (c_op st) - off out, c_mem st)
  | None => None
  end.
End Compress.

(** ** LZ77: Decompress *)

Record dstate := DState { d_mem : memory; d_ip : ptr; d_op : ptr }.

(** How one round of the [while (ip<ip_end)] loop ends: at the end of its
    body, by [break], or by [return -1]. *)
Inductive outcome :=
  | Next (st : dstate)
  | Break (st : dstate)
  | Corrupt (m : memory).

(** [while (len--) *op++=*cp++;] *)
Fixpoint byte_copy (n : nat) (m : memory) (op cp : ptr) : memory * ptr :=
  match n with
  | O => (m, op)
  | S k => byte_copy k (store8 m op (load8 m cp)) (op .+ 1) (cp .+ 1)
  end.

Section Decompress.
Variables (inp : ptr) (in_len : Z) (out : ptr) (out_len : Z).

Definition ip_end : ptr := inp .+ in_len.
Definition op_end : ptr := out .+ out_len.

(** Lines 292-313. *)
Definition match_phase (m : memory) (ip op : ptr) (tag : Z) : outcome :=
  let len := Z.land tag 15 + MIN_MATCH in
  let '(len, ip) :=
    if len =? 15 + MIN_MATCH then
      let '(x, ip') := DecodeMod m ip in (u32 (len + x), ip')
    else (len, ip) in
  if off op_end - off op <? len then Corrupt m
  else
    let dist := Z.shiftl (Z.land tag 16) 12 + UnalignedLoad16 m ip in
    let ip := ip .+ 2 in
    if off op - off out <? dist then Corrupt m
    else
      let cp := op .+ (- dist) in
      if dist >=? 4 then
        Next (DState (WildCopy m op cp len) ip (op .+ len))
      else
        let '(m', op') := byte_copy (Z.to_nat len) m op cp in
        Next (DState m' ip op').

(** Lines 276-313: one round of the loop. *)
Definition Decompress_body (st : dstate) : outcome :=
  let m := d_mem st in
  let op := d_op st in
  let tag := load8 m (d_ip st) in
  let ip := d_ip st .+ 1 in
  if tag >=? 32 then
    let run := Z.shiftr tag 5 in
    let '(run, ip) :=
      if run =? 7 then
        let '(x, ip') := DecodeMod m ip in (u32 (run + x), ip')
      else (run, ip) in
    if (off op_end - off op <? run) || (off ip_end - off ip <? run) then Corrupt m
    else
      let m := WildCopy m op ip run in
      let op := op .+ run in
      let ip := ip .+ run in
      if off ip >=? off ip_end then Break (DState m ip op)
      else match_phase m ip op tag
  else match_phase m ip op tag.

(** [return (ip==ip_end)?op-out:-1;] *)
Definition Decompress_return (st : dstate) : Z * memory :=
  (if off (d_ip st) =? off ip_end then off (d_op st) - off out else -1, d_mem st).

(** [while (ip<ip_end)]; [None] when [fuel] rounds were not enough. *)
Fixpoint Decompress_loop (fuel : nat) (st : dstate) : option (Z * memory) :=
  if off (d_ip st) <? off ip_end then
    match fuel with
    | O => None
    | S f =>
        match Decompress_body st with
        | Next st' => Decompress_loop f st'
        | Break st' => Some (Decompress_return st')
        | Corrupt m => Some (-1, m)
        end
    end
  else Some (Decompress_return st).

(** [int Decompress(U8* in, int in_len, U8* out, int out_len)]: the returned
    value and the memory it leaves. *)
Definition Decompress (m : memory) : option (Z * memory) :=
  Decompress_loop (Z.to_nat in_len) (DState m inp out).
End Decompress.

(** ** Running the model on small inputs *)

Definition pin : ptr := Ptr BIn 0.
Definition pout : ptr := Ptr BOut 0.
Definition fresh : CULZ := {| Head := ∅; Tail := ∅ |}.

Definition compress_bytes (level : Z) (bs : list byte) : option (list byte) :=
  match Compress pin (Z.of_nat (length bs)) pout level fresh (store_bytes empty_memory pin bs) with
  | Some (n, m) => Some (read_bytes m pout (Z.to_nat n))
  | None => None
  end.

Definition decompress_bytes (cs : list byte) (out_len : Z) : option (Z * list byte) :=
  match Decompress pin (Z.of_nat (length cs)) pout out_len (store_bytes empty_memory pin cs) with
  | Some (r, m) => Some (r, read_bytes m pout (Z.to_nat r))
  | None => None
  end.

(** * The vocabulary of the statements *)

(** [bytes_at m p l]: the buffer at [p] holds the byte values [l]. *)
Definition bytes_at (m : memory) (p : ptr) (l : list Z) : Prop :=
  forall i, 0 <= i < Z.of_nat (length l) ->
    load8 m (p .+ i) = nth (Z.to_nat i) l 0.

(** [unchanged_but m m' b lo hi]: [m'] is [m] except inside block [b] at
    the offsets from [lo] up to [hi] (excluded). *)
Definition unchanged_but (m m' : memory) (b : block) (lo hi : Z) : Prop :=
  forall q, ~ (blk q = b /\ lo <= off q < hi) -> load8 m' q = load8 m q.

#[global] Instance block_eq_dec : EqDecision block.
Proof. solve_decision. Defined.

#[global] Instance ptr_eq_dec : EqDecision ptr.
Proof. solve_decision. Defined.

(** Memories that cannot be told apart by loads. *)
Definition mem_eq (m1 m2 : memory) : Prop := forall q, load8 m1 q = load8 m2 q.

(** A forward copy whose source is not overtaken by its destination copies
    the bytes the source held before. *)
Definition forward_safe (d s : ptr) (n : Z) : Prop :=
  blk d <> blk s \/ off s + n <= off d \/ off d <= off s.

(** The number of bytes [WildCopy(d, s, n)] stores. *)
Definition wild_len (n : Z) : Z := if 8 <? n then 8 * ((n + 7) / 8) else 8.

(** The bytes [EncodeMod] emits, as a list. *)
Fixpoint enc_bytes (fuel : nat) (x : Z) : list Z :=
  match fuel with
  | O => [Z.land x 255]
  | S f =>
      if 128 <=? x then
        Z.land (128 + Z.land (x - 128) 127) 255 :: enc_bytes f (Z.shiftr (x - 128) 7)
      else [Z.land x 255]
  end.

Definition varint (x : Z) : list Z := enc_bytes 4 (u32 x).

Definition varint_len (x : Z) : Z := Z.of_nat (length (varint x)).

(** The walk of the match finder from [s]: it visits [s] if [s > limit] and
    goes on to [Tail[s & WINDOW_MASK]]. *)
Inductive reaches (T : Zmap Z) (limit : Z) : Z -> Z -> Prop :=
  | reaches_here s : limit < s -> reaches T limit s s
  | reaches_next s q :
      limit < s -> reaches T limit (tget T (Z.land s WINDOW_MASK)) q ->
      reaches T limit s q.

(** The reachability invariant of the data model when encoding at [p]. *)
Definition chain_reach (m : memory) (inp : ptr) (p : Z) (H T : Zmap Z) : Prop :=
  forall q, Max 0 (p - WINDOW_SIZE + 1) <= q <= p - 1 ->
    reaches T (Max (p - WINDOW_SIZE) NIL) (tget H (Hash32 m (inp .+ q))) q.

(** The inductive invariant behind it: [Head[h]] is the last position before
    [p] with hash [h], and [Tail] links every position of the window to the
    last earlier position with the same hash. *)
Definition chain_ok (m : memory) (inp : ptr) (p : Z) (H T : Zmap Z) : Prop :=
  (forall h, 0 <= h < HASH_SIZE ->
     tget H h = NIL \/ (0 <= tget H h < p /\ Hash32 m (inp .+ tget H h) = h))
  /\ (forall q, 0 <= q < p -> q <= tget H (Hash32 m (inp .+ q)))
  /\ (forall s, 0 <= s -> p - WINDOW_SIZE <= s < p ->
        let t := tget T (Z.land s WINDOW_MASK) in
        t = NIL \/ (0 <= t < s /\ Hash32 m (inp .+ t) = Hash32 m (inp .+ s)))
  /\ (forall s q, 0 <= s -> p - WINDOW_SIZE <= s < p -> 0 <= q < s ->
        Hash32 m (inp .+ q) = Hash32 m (inp .+ s) ->
        q <= tget T (Z.land s WINDOW_MASK)).

(** The bytes [a .. a+n) of the input buffer. *)
Definition in_bytes (m : memory) (inp : ptr) (a n : Z) : list Z :=
  map (fun i => load8 m (inp .+ (a + Z.of_nat i))) (seq 0 (Z.to_nat n)).

Definition run_size (run : Z) : Z :=
  1 + (if 7 <=? run then varint_len (run - 7) else 0) + run.

Definition run_bytes (m : memory) (inp : ptr) (a run tmp : Z) : list Z :=
  (Z.shiftl (Z.min run 7) 5 + tmp)
  :: (if 7 <=? run then varint (run - 7) else []) ++ in_bytes m inp a run.

Definition match_tag (best_len dist : Z) : Z :=
  Z.land (Z.shiftr dist 12) 16 + Z.min (best_len - MIN_MATCH) 15.

Definition match_bytes (best_len dist : Z) : list Z :=
  (if 15 <=? best_len - MIN_MATCH then varint (best_len - MIN_MATCH - 15) else [])
  ++ [Z.land dist 255; Z.land (Z.shiftr dist 8) 255].

Definition token_bytes (m : memory) (inp : ptr) (a run best_len dist : Z) : list Z :=
  run_bytes m inp a run (match_tag best_len dist) ++ match_bytes best_len dist.

Definition token_size (run best_len : Z) : Z :=
  run_size run
  + (if 15 <=? best_len - MIN_MATCH then varint_len (best_len - MIN_MATCH - 15) else 0) + 2.

(** The [len] bytes at [s] and at [p] of the input buffer are the same. *)
Definition matches (m : memory) (inp : ptr) (s p len : Z) : Prop :=
  forall k, 0 <= k < len -> load8 m (inp .+ (s + k)) = load8 m (inp .+ (p + k)).

Definition tail_ok (T : Zmap Z) (p : Z) : Prop :=
  forall s, 0 <= s -> p - WINDOW_SIZE <= s < p -> tget T (Z.land s WINDOW_MASK) < s.

Definition head_ok (H : Zmap Z) (p : Z) : Prop :=
  forall h, 0 <= h < HASH_SIZE -> tget H h < p.

Definition good_match (m : memory) (inp : ptr) (p mm limit bl d : Z) : Prop :=
  bl = MIN_MATCH - 1
  \/ (MIN_MATCH <= bl <= mm /\ limit < p - d < p /\ matches m inp (p - d) p bl).

(** What holds whenever the loop of [Compress] tests [p<in_len]: [m0] is the
    memory at the call. *)
Definition enc_inv (inp : ptr) (in_len : Z) (out : ptr) (m0 : memory) (st : cstate) : Prop :=
  0 <= c_run st <= c_p st /\ c_p st <= in_len
  /\ blk (c_op st) = blk out
  /\ (forall q, blk q <> blk out -> load8 (c_mem st) q = load8 m0 q)
  /\ chain_ok m0 inp (c_p st) (c_Head st) (c_Tail st).

(** The states in which the loop of [Compress] tests [p<in_len]. *)
Inductive loop_state (inp : ptr) (in_len : Z) (out : ptr) (level : Z)
    (self : CULZ) (m0 : memory) : cstate -> Prop :=
  | loop_init : loop_state inp in_len out level self m0 (Compress_init out self m0)
  | loop_next st :
      loop_state inp in_len out level self m0 st -> c_p st < in_len ->
      loop_state inp in_len out level self m0 (Compress_body inp in_len level st).

(** The memory, position and tables the encoder goes through: at every round
    of the loop (so after every literal insertion) and after each of the
    insertions of the positions covered by a match. *)
Inductive encoding_at (inp : ptr) (in_len : Z) (out : ptr) (level : Z)
    (self : CULZ) (m0 : memory) : memory -> Z -> Zmap Z -> Zmap Z -> Prop :=
  | at_round st :
      loop_state inp in_len out level self m0 st ->
      encoding_at inp in_len out level self m0 (c_mem st) (c_p st) (c_Head st) (c_Tail st)
  | at_insertion st bl d k :
      loop_state inp in_len out level self m0 st -> c_p st < in_len ->
      find_match inp in_len level (c_mem st) (c_Head st) (c_Tail st) (c_run st) (c_p st)
        = (bl, d) ->
      MIN_MATCH <= bl -> (k <= Z.to_nat bl)%nat ->
      encoding_at inp in_len out level self m0
        (c_mem (emit_match inp st bl d))
        (snd (insert_n inp k (c_mem (emit_match inp st bl d)) (c_Head st) (c_Tail st) (c_p st)))
        (fst (fst (insert_n inp k (c_mem (emit_match inp st bl d)) (c_Head st) (c_Tail st) (c_p st))))
        (snd (fst (insert_n inp k (c_mem (emit_match inp st bl d)) (c_Head st) (c_Tail st) (c_p st)))).

(** The output never exceeds the input by more than one byte for every
    16519 bytes consumed. *)
Definition size_inv (out : ptr) (st : cstate) : Prop :=
  16519 * (off (c_op st) - off out - (c_p st - c_run st)) <= c_p st - c_run st
  /\ off out <= off (c_op st).

(** The header of a run: the tag byte and the extension of the run length. *)
Definition run_hdr (run tmp : Z) : list Z :=
  (Z.shiftl (Z.min run 7) 5 + tmp) :: (if 7 <=? run then varint (run - 7) else []).

(** The bytes of a match after the tag, without the last one or two. *)
Definition len_ext (bl : Z) : list Z :=
  if 15 <=? bl - MIN_MATCH then varint (bl - MIN_MATCH - 15) else [].

(** The first [a] bytes of the output buffer are the first [a] bytes of the
    original input. *)
Definition prefix_ok (md : memory) (dout : ptr) (m0 : memory) (inp : ptr) (a : Z) : Prop :=
  forall j, 0 <= j < a -> load8 md (dout .+ j) = load8 m0 (inp .+ j).

(** A token is [(run, best_len, dist)]; [a] is the input position at which
    its literals start. *)
Fixpoint stream_bytes (m0 : memory) (inp : ptr) (a : Z) (toks : list (Z * Z * Z)) : list Z :=
  match toks with
  | [] => []
  | (run, bl, d) :: rest =>
      token_bytes m0 inp a run bl d ++ stream_bytes m0 inp (a + run + bl) rest
  end.

Fixpoint toks_end (a : Z) (toks : list (Z * Z * Z)) : Z :=
  match toks with
  | [] => a
  | (run, bl, d) :: rest => toks_end (a + run + bl) rest
  end.

Fixpoint toks_ok (m0 : memory) (inp : ptr) (a : Z) (toks : list (Z * Z * Z)) : Prop :=
  match toks with
  | [] => True
  | (run, bl, d) :: rest =>
      0 <= run /\ MIN_MATCH <= bl /\ 1 <= d <= a + run /\ d < WINDOW_SIZE
      /\ matches m0 inp (a + run - d) (a + run) bl
      /\ toks_ok m0 inp (a + run + bl) rest
  end.

Definition tail_bytes (m0 : memory) (inp : ptr) (a run : Z) : list Z :=
  if run =? 0 then [] else run_bytes m0 inp a run 0.

Definition stream_inv (m0 : memory) (inp out : ptr) (st : cstate) : Prop :=
  exists toks,
    toks_ok m0 inp 0 toks /\ toks_end 0 toks = c_p st - c_run st
    /\ bytes_at (c_mem st) out (stream_bytes m0 inp 0 toks)
    /\ off (c_op st) - off out = Z.of_nat (length (stream_bytes m0 inp 0 toks)).

(** Two states of the encoder at level 4.  The first input is the bytes
    0, 1, ..., 138 followed by 0, 1, 2, 3; after 139 rounds the encoder is at
    position 139 with 139 pending literals.  The second is "abcd_abcd"; after
    five rounds the encoder is at position 5 with five pending literals. *)
Definition suppressed_input : list byte :=
  map (fun i => to_u8 (Z.of_nat i)) (seq 0 139) ++ [x00; x01; x02; x03].

Definition suppressed_state : cstate :=
  Nat.iter 139 (Compress_body pin 143 4)
    (Compress_init pout fresh (store_bytes empty_memory pin suppressed_input)).

Definition kept_input : list byte := [x61; x62; x63; x64; x5f; x61; x62; x63; x64].

Definition kept_state : cstate :=
  Nat.iter 5 (Compress_body pin 9 4)
    (Compress_init pout fresh (store_bytes empty_memory pin kept_input)).

(** Position, pending run, the best match found and what the match finder
    returns, in a state. *)
Definition rule_summary (n level : Z) (st : cstate) : Z * Z * (Z * Z) * (Z * Z) :=
  (c_p st, c_run st,
   best_found pin n level (c_mem st) (c_Head st) (c_Tail st) (c_p st),
   find_match pin n level (c_mem st) (c_Head st) (c_Tail st) (c_run st) (c_p st)).

(** Memories that agree on the cells [R]. *)
Definition agree (R : ptr -> Prop) (m1 m2 : memory) : Prop :=
  forall q, R q -> load8 m1 q = load8 m2 q.

(** The cells a call [Decompress(dinp, dlen, dout, cap)] may load from: the
    stream and the output buffer, each with eight more bytes. *)
Definition readable (dinp : ptr) (dlen : Z) (dout : ptr) (cap : Z) (q : ptr) : Prop :=
  (blk q = blk dinp /\ off dinp <= off q < off dinp + dlen + 8)
  \/ (blk q = blk dout /\ off dout <= off q < off dout + cap + 8).

(** What a round started at [(m, ip, op)] leaves: [ip] has advanced, [op]
    has not passed [op_end], and only the output buffer and eight more bytes
    were stored to. *)
Definition round_ok (dinp dout : ptr) (cap : Z) (m : memory) (ip op : ptr)
    (m' : memory) (ip' op' : ptr) : Prop :=
  blk ip' = blk dinp /\ off ip < off ip'
  /\ blk op' = blk dout /\ off op <= off op' <= off dout + cap
  /\ unchanged_but m m' (blk dout) (off dout) (off dout + cap + 8).

(** Two runs of a round, on memories that agree on the readable cells, end
    the same way. *)
Definition outcome_rel (dinp : ptr) (dlen : Z) (dout : ptr) (cap : Z)
    (m : memory) (ip op : ptr) (o1 o2 : outcome) : Prop :=
  match o1, o2 with
  | Next s1, Next s2 | Break s1, Break s2 =>
      d_ip s2 = d_ip s1 /\ d_op s2 = d_op s1
      /\ agree (readable dinp dlen dout cap) (d_mem s1) (d_mem s2)
      /\ round_ok dinp dout cap m ip op (d_mem s1) (d_ip s1) (d_op s1)
  | Corrupt a, Corrupt b =>
      agree (readable dinp dlen dout cap) a b
      /\ unchanged_but m a (blk dout) (off dout) (off dout + cap + 8)
  | _, _ => False
  end.

(** A byte sequence in which every three consecutive bytes tell their
    position: byte [i] carries [i mod 3] in its two top bits and one base-64
    digit of [i / 3] below. *)
Definition lit (i : Z) : Z :=
  64 * (i mod 3)
  + (if i mod 3 =? 0 then (i / 3) mod 64
     else if i mod 3 =? 1 then (i / 3 / 64) mod 64
     else (i / 3 / 4096) mod 64).

(** The input: blocks of 16524 bytes, each 16518 bytes of [lit] followed by
    six copies of a byte that names the block. *)
Definition excess_byte (i : Z) : Z :=
  if i mod 16524 <? 16518 then lit i else 200 + i / 16524.

Definition excess_len : Z := 13 * 16524 + 16519.

Definition excess_input : list byte :=
  map (fun i => to_u8 (excess_byte (Z.of_nat i))) (seq 0 (Z.to_nat excess_len)).

Definition excess_mem : memory := store_bytes empty_memory pin excess_input.

(** The encoder's state on this input, at the head of its loop: the pending
    run is the offset of [p] in its block, each block passed has added 16525
    bytes, and the position before [p] heads its hash chain. *)
Definition excess_inv (m0 : memory) (st : cstate) : Prop :=
  enc_inv pin excess_len pout m0 st
  /\ c_p st mod 16524 <= 16519
  /\ c_run st = c_p st mod 16524
  /\ off (c_op st) - off pout = 16525 * (c_p st / 16524)
  /\ (0 < c_p st ->
      tget (c_Head st) (Hash32 m0 (pin .+ (c_p st - 1))) = c_p st - 1).

(** Tables that agree wherever the chain walks at [p] look: on all of [Head],
    and on the entries of [Tail] of the positions of the window. *)
Definition tables_agree (p : Z) (H1 T1 H2 T2 : Zmap Z) : Prop :=
  (forall h, 0 <= h < HASH_SIZE -> tget H1 h = tget H2 h)
  /\ (forall s, 0 <= s -> p - WINDOW_SIZE <= s < p ->
        tget T1 (Z.land s WINDOW_MASK) = tget T2 (Z.land s WINDOW_MASK)).

(** States that differ in their tables only, and there only out of reach. *)
Definition cstate_agree (st1 st2 : cstate) : Prop :=
  c_mem st2 = c_mem st1 /\ c_op st2 = c_op st1 /\ c_run st2 = c_run st1
  /\ c_p st2 = c_p st1
  /\ tables_agree (c_p st1) (c_Head st1) (c_Tail st1) (c_Head st2) (c_Tail st2).

(** Memories with the same [n] bytes of input. *)
Definition in_agree (inp : ptr) (n : Z) (m1 m2 : memory) : Prop :=
  forall i, 0 <= i < n -> load8 m1 (inp .+ i) = load8 m2 (inp .+ i).

(** Two runs of the encoder on such memories, at the head of the loop: the
    same position, pending run and output pointer, the same bytes written so
    far, and the same tables as long as a chain walk is still to come. *)
Definition pair_rel (n : Z) (out : ptr) (sta stb : cstate) : Prop :=
  c_op stb = c_op sta /\ c_run stb = c_run sta /\ c_p stb = c_p sta
  /\ (c_p sta + MIN_MATCH <= n -> c_Head stb = c_Head sta /\ c_Tail stb = c_Tail sta)
  /\ (forall i, 0 <= i < off (c_op sta) - off out ->
        load8 (c_mem sta) (out .+ i) = load8 (c_mem stb) (out .+ i)).

(** * Properties *)

(** ** Bytes, pointers and memory *)

Lemma u8_range b : 0 <= u8 b < 256.
Proof.
  unfold u8. pose proof (Byte.to_N_bounded b). lia.
Qed.

Lemma land255_range x : 0 <= Z.land x 255 < 256.
Proof.
  change 255 with (Z.ones 8). rewrite Z.land_ones by lia.
  apply Z.mod_pos_bound. lia.
Qed.

Lemma land255_small x : 0 <= x < 256 -> Z.land x 255 = x.
Proof.
  intros Hx. change 255 with (Z.ones 8). rewrite Z.land_ones by lia.
  apply Z.mod_small. exact Hx.
Qed.

Lemma u8_to_u8 x : u8 (to_u8 x) = Z.land x 255.
Proof.
  unfold u8, to_u8. pose proof (land255_range x) as Hr.
  destruct (Byte.of_N (Z.to_N (Z.land x 255))) as [b|] eqn:E.
  - apply Byte.to_of_N in E. rewrite E. lia.
  - apply Byte.of_N_None_iff in E. lia.
Qed.

Lemma to_u8_u8 b : to_u8 (u8 b) = b.
Proof.
  unfold to_u8. rewrite land255_small by apply u8_range.
  unfold u8. rewrite N2Z.id, Byte.of_to_N. reflexivity.
Qed.

Lemma u32_mod x : u32 x = x mod 2 ^ 32.
Proof. unfold u32. change 4294967295 with (Z.ones 32). apply Z.land_ones. lia. Qed.

Lemma u32_range x : 0 <= u32 x < 2 ^ 32.
Proof. rewrite u32_mod. apply Z.mod_pos_bound. lia. Qed.

Lemma u32_small x : 0 <= x < 2 ^ 32 -> u32 x = x.
Proof. intros Hx. rewrite u32_mod. apply Z.mod_small. exact Hx. Qed.

Lemma ptr_ext p q : blk p = blk q -> off p = off q -> p = q.
Proof. destruct p, q. simpl. intros -> ->. reflexivity. Qed.

Ltac ptr_eq := apply ptr_ext; simpl; [try reflexivity; congruence | lia].

Lemma padd_padd p a b : p .+ a .+ b = p .+ (a + b).
Proof. ptr_eq. Qed.

Lemma padd_0 p : p .+ 0 = p.
Proof. ptr_eq. Qed.

Lemma load8_range m p : 0 <= load8 m p < 256.
Proof.
  unfold load8. destruct (cells m (blk p) !! off p).
  - apply u8_range.
  - lia.
Qed.

Lemma load8_store8_eq m p x : load8 (store8 m p x) p = Z.land x 255.
Proof.
  unfold load8, store8. destruct (blk p); simpl;
    rewrite lookup_insert_eq; apply u8_to_u8.
Qed.

Lemma load8_store8_ne m p x q : q <> p -> load8 (store8 m p x) q = load8 m q.
Proof.
  intros Hne. unfold load8, store8.
  destruct p as [bp op], q as [bq oq]. simpl.
  destruct bp, bq; simpl; try reflexivity;
    (rewrite lookup_insert_ne; [reflexivity | congruence]).
Qed.

(** Two pointers differ as soon as their blocks or their offsets do. *)
Lemma ptr_ne_blk p q : blk p <> blk q -> p <> q.
Proof. congruence. Qed.

Lemma ptr_ne_off p q : off p <> off q -> p <> q.
Proof. congruence. Qed.

Ltac ptr_ne :=
  first [ apply ptr_ne_off; simpl; lia
        | apply ptr_ne_blk; simpl; congruence ].

Lemma unchanged_but_refl m b lo hi : unchanged_but m m b lo hi.
Proof. intros q _. reflexivity. Qed.

Lemma unchanged_but_trans m1 m2 m3 b lo hi lo' hi' lo'' hi'' :
  unchanged_but m1 m2 b lo hi -> unchanged_but m2 m3 b lo' hi' ->
  lo'' <= lo -> lo'' <= lo' -> hi <= hi'' -> hi' <= hi'' ->
  unchanged_but m1 m3 b lo'' hi''.
Proof.
  intros H12 H23 ? ? ? ? q Hq.
  rewrite H23, H12; [reflexivity | |]; intros [? ?]; apply Hq; split; auto; lia.
Qed.

Lemma unchanged_but_weaken m m' b lo hi lo' hi' :
  unchanged_but m m' b lo hi -> lo' <= lo -> hi <= hi' ->
  unchanged_but m m' b lo' hi'.
Proof.
  intros H ? ? q Hq. apply H. intros [? ?]. apply Hq. split; auto; lia.
Qed.

Lemma store8_unchanged m p x :
  unchanged_but m (store8 m p x) (blk p) (off p) (off p + 1).
Proof.
  intros q Hq. apply load8_store8_ne. intros ->. apply Hq. split; [reflexivity | lia].
Qed.

Lemma bytes_at_nil m p : bytes_at m p [].
Proof. intros i Hi. simpl in Hi. lia. Qed.

Lemma bytes_at_cons m p x l :
  bytes_at m p (x :: l) <-> load8 m p = x /\ bytes_at m (p .+ 1) l.
Proof.
  split.
  - intros H. split.
    + rewrite <- (padd_0 p). rewrite (H 0); [reflexivity | simpl; lia].
    + intros i Hi. rewrite padd_padd. rewrite (H (1 + i)) by (simpl length; lia).
      replace (Z.to_nat (1 + i)) with (S (Z.to_nat i)) by lia. reflexivity.
  - intros [H0 Hl] i Hi. simpl length in Hi.
    destruct (Z.eq_dec i 0) as [-> | Hne].
    + rewrite padd_0. exact H0.
    + replace i with (1 + (i - 1)) by lia. rewrite <- padd_padd.
      rewrite Hl by lia.
      replace (Z.to_nat (1 + (i - 1))) with (S (Z.to_nat (i - 1))) by lia.
      reflexivity.
Qed.

Lemma bytes_at_app m p l1 l2 :
  bytes_at m p (l1 ++ l2) <->
  bytes_at m p l1 /\ bytes_at m (p .+ Z.of_nat (length l1)) l2.
Proof.
  revert p. induction l1 as [| x l1 IH]; intros p.
  - simpl. rewrite padd_0. split; [intros H; split; [apply bytes_at_nil | exact H] | tauto].
  - simpl app. rewrite !bytes_at_cons, IH. rewrite padd_padd.
    replace (1 + Z.of_nat (length l1)) with (Z.of_nat (length (x :: l1)))
      by (simpl length; lia).
    tauto.
Qed.

Lemma bytes_at_unchanged m m' p l b lo hi :
  bytes_at m p l -> unchanged_but m m' b lo hi ->
  (blk p <> b \/ off p + Z.of_nat (length l) <= lo \/ hi <= off p) ->
  bytes_at m' p l.
Proof.
  intros Hb Hu Hd i Hi. rewrite Hu; [apply Hb; exact Hi |].
  simpl. intros [? ?]. destruct Hd as [? | [? | ?]]; [congruence | lia | lia].
Qed.

Lemma bytes_at_ext m m' p l :
  bytes_at m p l ->
  (forall i, 0 <= i < Z.of_nat (length l) -> load8 m' (p .+ i) = load8 m (p .+ i)) ->
  bytes_at m' p l.
Proof. intros Hb He i Hi. rewrite He by exact Hi. apply Hb. exact Hi. Qed.

Lemma mem_eq_refl m : mem_eq m m.
Proof. intros q. reflexivity. Qed.

Lemma mem_eq_trans m1 m2 m3 : mem_eq m1 m2 -> mem_eq m2 m3 -> mem_eq m1 m3.
Proof. intros H1 H2 q. rewrite H1. apply H2. Qed.

Lemma mem_eq_sym m1 m2 : mem_eq m1 m2 -> mem_eq m2 m1.
Proof. intros H q. symmetry. apply H. Qed.

Lemma store8_mem_eq m1 m2 p x y :
  mem_eq m1 m2 -> Z.land x 255 = Z.land y 255 ->
  mem_eq (store8 m1 p x) (store8 m2 p y).
Proof.
  intros H Hxy q. destruct (decide (q = p)) as [-> | Hne].
  - rewrite !load8_store8_eq. exact Hxy.
  - rewrite !load8_store8_ne by exact Hne. apply H.
Qed.

(** *** Multi-byte loads and stores *)

Lemma Store32_unchanged m p x :
  unchanged_but m (UnalignedStore32 m p x) (blk p) (off p) (off p + 4).
Proof.
  intros q Hq. unfold UnalignedStore32.
  rewrite !load8_store8_ne; [reflexivity | | | |];
    intros ->; apply Hq; simpl; split; (reflexivity || lia).
Qed.

Lemma Store32_byte m p x k :
  0 <= k < 4 ->
  load8 (UnalignedStore32 m p x) (p .+ k) = Z.land (Z.shiftr x (8 * k)) 255.
Proof.
  intros Hk. unfold UnalignedStore32.
  assert (k = 0 \/ k = 1 \/ k = 2 \/ k = 3) as [-> | [-> | [-> | ->]]] by lia.
  - rewrite padd_0. rewrite !load8_store8_ne by ptr_ne.
    rewrite load8_store8_eq. reflexivity.
  - rewrite !load8_store8_ne by ptr_ne. rewrite load8_store8_eq. reflexivity.
  - rewrite !load8_store8_ne by ptr_ne. rewrite load8_store8_eq. reflexivity.
  - rewrite load8_store8_eq. reflexivity.
Qed.

Lemma Store16_unchanged m p x :
  unchanged_but m (UnalignedStore16 m p x) (blk p) (off p) (off p + 2).
Proof.
  intros q Hq. unfold UnalignedStore16.
  rewrite !load8_store8_ne; [reflexivity | |];
    intros ->; apply Hq; simpl; split; (reflexivity || lia).
Qed.

Lemma Store16_bytes m p x :
  bytes_at (UnalignedStore16 m p x) p [Z.land x 255; Z.land (Z.shiftr x 8) 255].
Proof.
  unfold UnalignedStore16. apply bytes_at_cons. split.
  - rewrite load8_store8_ne by ptr_ne. apply load8_store8_eq.
  - apply bytes_at_cons. split; [apply load8_store8_eq | apply bytes_at_nil].
Qed.

Lemma le_bytes_of_sum b0 b1 b2 b3 k :
  0 <= b0 < 256 -> 0 <= b1 < 256 -> 0 <= b2 < 256 -> 0 <= b3 < 256 ->
  0 <= k < 4 ->
  Z.land (Z.shiftr (b0 + Z.shiftl b1 8 + Z.shiftl b2 16 + Z.shiftl b3 24) (8 * k)) 255
  = nth (Z.to_nat k) [b0; b1; b2; b3] 0.
Proof.
  intros H0 H1 H2 H3 Hk.
  change 255 with (Z.ones 8). rewrite Z.land_ones by lia.
  rewrite Z.shiftr_div_pow2 by lia. rewrite !Z.shiftl_mul_pow2 by lia.
  assert (k = 0 \/ k = 1 \/ k = 2 \/ k = 3) as [-> | [-> | [-> | ->]]] by lia;
    simpl Z.mul; simpl Z.to_nat; simpl nth;
    change (2 ^ 0) with 1; change (2 ^ 8) with 256; change (2 ^ 16) with 65536;
    change (2 ^ 24) with 16777216;
    Z.div_mod_to_equations; lia.
Qed.

Lemma Load32_byte m p k :
  0 <= k < 4 ->
  Z.land (Z.shiftr (UnalignedLoad32 m p) (8 * k)) 255 = load8 m (p .+ k).
Proof.
  intros Hk. unfold UnalignedLoad32.
  rewrite le_bytes_of_sum by (try apply load8_range; exact Hk).
  assert (k = 0 \/ k = 1 \/ k = 2 \/ k = 3) as [-> | [-> | [-> | ->]]] by lia;
    simpl; rewrite ?padd_0; reflexivity.
Qed.

Lemma Load32_range m p : 0 <= UnalignedLoad32 m p < 2 ^ 32.
Proof.
  unfold UnalignedLoad32. rewrite !Z.shiftl_mul_pow2 by lia.
  pose proof (load8_range m p). pose proof (load8_range m (p .+ 1)).
  pose proof (load8_range m (p .+ 2)). pose proof (load8_range m (p .+ 3)).
  lia.
Qed.

(** Equal 32-bit loads mean four equal bytes. *)
Lemma Load32_inj m p q k :
  UnalignedLoad32 m p = UnalignedLoad32 m q -> 0 <= k < 4 ->
  load8 m (p .+ k) = load8 m (q .+ k).
Proof.
  intros H Hk. rewrite <- !Load32_byte by exact Hk. rewrite H. reflexivity.
Qed.

Lemma Load32_ext m m' p q :
  (forall k, 0 <= k < 4 -> load8 m (p .+ k) = load8 m' (q .+ k)) ->
  UnalignedLoad32 m p = UnalignedLoad32 m' q.
Proof.
  intros H. unfold UnalignedLoad32.
  rewrite <- (padd_0 p) at 1. rewrite <- (padd_0 q) at 1.
  rewrite !H by lia. reflexivity.
Qed.

Lemma Copy32_unchanged m d s :
  unchanged_but m (UnalignedCopy32 m d s) (blk d) (off d) (off d + 4).
Proof. apply Store32_unchanged. Qed.

Lemma Copy32_byte m d s k :
  0 <= k < 4 -> load8 (UnalignedCopy32 m d s) (d .+ k) = load8 m (s .+ k).
Proof.
  intros Hk. unfold UnalignedCopy32. rewrite Store32_byte by exact Hk.
  apply Load32_byte. exact Hk.
Qed.

(** *** The strict byte-by-byte copy *)

Lemma byte_copy_ptr n : forall m d s, snd (byte_copy n m d s) = d .+ Z.of_nat n.
Proof.
  induction n as [| n IH]; intros m d s.
  - simpl. symmetry. apply padd_0.
  - cbn [byte_copy]. rewrite IH. ptr_eq.
Qed.

Lemma byte_copy_unchanged n : forall m d s,
  unchanged_but m (fst (byte_copy n m d s)) (blk d) (off d) (off d + Z.of_nat n).
Proof.
  induction n as [| n IH]; intros m d s.
  - apply unchanged_but_refl.
  - cbn [byte_copy].
    apply (unchanged_but_trans m (store8 m d (load8 m s)) _ (blk d)
             (off d) (off d + 1) (off d + 1) (off d + 1 + Z.of_nat n));
      [apply store8_unchanged | apply (IH _ (d .+ 1)) | lia ..].
Qed.

Lemma byte_copy_app a b : forall m d s,
  byte_copy (a + b) m d s =
  byte_copy b (fst (byte_copy a m d s)) (d .+ Z.of_nat a) (s .+ Z.of_nat a).
Proof.
  induction a as [| a IH]; intros m d s.
  - simpl. rewrite !padd_0. reflexivity.
  - cbn [Nat.add byte_copy]. rewrite IH. f_equal; ptr_eq.
Qed.

Lemma byte_copy_mem_eq n : forall m1 m2 d s,
  mem_eq m1 m2 -> mem_eq (fst (byte_copy n m1 d s)) (fst (byte_copy n m2 d s)).
Proof.
  induction n as [| n IH]; intros m1 m2 d s H.
  - exact H.
  - cbn [byte_copy]. apply IH. apply store8_mem_eq; [exact H | rewrite H; reflexivity].
Qed.

Lemma byte_copy_byte n : forall m d s k,
  forward_safe d s (Z.of_nat n) -> 0 <= k < Z.of_nat n ->
  load8 (fst (byte_copy n m d s)) (d .+ k) = load8 m (s .+ k).
Proof.
  induction n as [| n IH]; intros m d s k Hs Hk; [lia |].
  cbn [byte_copy]. destruct (Z.eq_dec k 0) as [-> | Hne].
  - rewrite !padd_0.
    rewrite (byte_copy_unchanged n) by (simpl; lia).
    rewrite load8_store8_eq. apply land255_small, load8_range.
  - replace (d .+ k) with (d .+ 1 .+ (k - 1)) by ptr_eq.
    rewrite IH; [| destruct Hs as [? | [? | ?]]; [left | right; left | right; right];
                   simpl; (assumption || lia) | lia].
    rewrite load8_store8_ne.
    + f_equal. ptr_eq.
    + destruct Hs as [? | [? | ?]]; [apply ptr_ne_blk; simpl; congruence | ptr_ne | ptr_ne].
Qed.

Lemma Copy32_byte_copy m d s :
  forward_safe d s 4 ->
  mem_eq (UnalignedCopy32 m d s) (fst (byte_copy 4 m d s)).
Proof.
  intros Hs q.
  destruct (decide (blk q = blk d /\ off d <= off q < off d + 4)) as [[Hb Ho] | Hn].
  - replace q with (d .+ (off q - off d)) by ptr_eq.
    rewrite Copy32_byte by lia. rewrite byte_copy_byte; [reflexivity | exact Hs | lia].
  - rewrite Copy32_unchanged by exact Hn.
    rewrite (byte_copy_unchanged 4) by exact Hn. reflexivity.
Qed.

(** *** WildCopy *)

Lemma wild_len_bounds n : 8 <= wild_len n /\ n <= wild_len n /\ (1 <= n -> wild_len n <= n + 7).
Proof.
  unfold wild_len. destruct (Z.ltb_spec 8 n); [Z.div_mod_to_equations |]; lia.
Qed.

Lemma forward_safe_shift d s i : forward_safe d s 4 -> forward_safe (d .+ i) (s .+ i) 4.
Proof. unfold forward_safe. simpl. intros [? | [? | ?]]; [left | right; left | right; right]; (assumption || lia). Qed.

Lemma Copy32_twice m d s :
  forward_safe d s 4 ->
  mem_eq (UnalignedCopy32 (UnalignedCopy32 m d s) (d .+ 4) (s .+ 4))
         (fst (byte_copy 8 m d s)).
Proof.
  intros Hs. change 8%nat with (4 + 4)%nat. rewrite byte_copy_app.
  change (Z.of_nat 4) with 4.
  eapply mem_eq_trans.
  - apply Copy32_byte_copy. apply forward_safe_shift. exact Hs.
  - apply byte_copy_mem_eq. apply Copy32_byte_copy. exact Hs.
Qed.

Lemma WildCopy_loop_spec d s n fuel : forall m i,
  forward_safe d s 4 -> n - i <= 8 * Z.of_nat fuel ->
  mem_eq (WildCopy_loop fuel m d s n i)
         (fst (byte_copy (Z.to_nat (if i <? n then 8 * ((n - i + 7) / 8) else 0))
                 m (d .+ i) (s .+ i))).
Proof.
  induction fuel as [| f IH]; intros m i Hs Hf.
  - simpl WildCopy_loop. destruct (Z.ltb_spec i n); [lia |]. apply mem_eq_refl.
  - cbn [WildCopy_loop]. destruct (Z.ltb_spec i n) as [Hlt | Hge].
    + replace (Z.to_nat (8 * ((n - i + 7) / 8)))
        with (8 + Z.to_nat (if (i + 8 <? n)%Z then (8 * ((n - (i + 8) + 7) / 8))%Z else 0%Z))%nat
        by (destruct (Z.ltb_spec (i + 8) n); Z.div_mod_to_equations; lia).
      rewrite byte_copy_app. change (Z.of_nat 8) with 8.
      eapply mem_eq_trans; [apply IH; [exact Hs | lia] |].
      rewrite !padd_padd. apply byte_copy_mem_eq.
      rewrite <- !padd_padd. apply Copy32_twice. apply forward_safe_shift. exact Hs.
    + apply mem_eq_refl.
Qed.

(** Where source and destination are at least four bytes apart (or in
    different buffers), [WildCopy] is the strict forward copy of [wild_len n]
    bytes. *)
Lemma WildCopy_spec m d s n :
  forward_safe d s 4 ->
  mem_eq (WildCopy m d s n) (fst (byte_copy (Z.to_nat (wild_len n)) m d s)).
Proof.
  intros Hs. unfold WildCopy.
  replace (Z.to_nat (wild_len n))
    with (8 + Z.to_nat (if (8 <? n)%Z then (8 * ((n - 8 + 7) / 8))%Z else 0%Z))%nat
    by (unfold wild_len; destruct (Z.ltb_spec 8 n); Z.div_mod_to_equations; lia).
  rewrite byte_copy_app. change (Z.of_nat 8) with 8.
  eapply mem_eq_trans.
  - apply WildCopy_loop_spec; [exact Hs |].
    rewrite Z.shiftr_div_pow2 by lia. change (2 ^ 3) with 8.
    Z.div_mod_to_equations; lia.
  - apply byte_copy_mem_eq. apply Copy32_twice. exact Hs.
Qed.

Lemma WildCopy_unchanged m d s n :
  forward_safe d s 4 ->
  unchanged_but m (WildCopy m d s n) (blk d) (off d) (off d + wild_len n).
Proof.
  intros Hs q Hq. rewrite WildCopy_spec by exact Hs.
  apply byte_copy_unchanged. pose proof (wild_len_bounds n). 
  replace (Z.of_nat (Z.to_nat (wild_len n))) with (wild_len n) by lia. exact Hq.
Qed.

(** The first [n] bytes of a [WildCopy] are those of the strict copy. *)
Lemma WildCopy_prefix m d s n q :
  forward_safe d s 4 -> 0 <= n ->
  (blk q = blk d -> off q < off d + n) ->
  load8 (WildCopy m d s n) q = load8 (fst (byte_copy (Z.to_nat n) m d s)) q.
Proof.
  intros Hs Hn Hq. rewrite WildCopy_spec by exact Hs.
  pose proof (wild_len_bounds n) as (_ & Hle & _).
  replace (Z.to_nat (wild_len n)) with (Z.to_nat n + Z.to_nat (wild_len n - n)%Z)%nat by lia.
  rewrite byte_copy_app. apply byte_copy_unchanged. simpl. intros [Hb Ho].
  specialize (Hq Hb). lia.
Qed.

(** C5.  For a match expansion with distance [dist >= 4] and any length
    [len], overlapping or not, the 8-byte-stride [WildCopy] from [op - dist]
    to [op] leaves in every byte below [op + len] (so in the [len] output bytes
    of the match) exactly what the strict byte-by-byte loop
    [while (len--) *op++=*cp++] leaves there. *)
Theorem WildCopy_equals_byte_copy (m : memory) (op : ptr) (dist len : Z) (q : ptr) :
  4 <= dist -> 0 <= len ->
  (blk q = blk op -> off q < off op + len) ->
  load8 (WildCopy m op (op .+ (- dist)) len) q
  = load8 (fst (byte_copy (Z.to_nat len) m op (op .+ (- dist)))) q.
Proof.
  intros Hd Hl Hq. apply WildCopy_prefix; [| exact Hl | exact Hq].
  right. left. simpl. lia.
Qed.

Lemma WildCopy_equals_byte_copy_witness :
  let m := store_bytes empty_memory pout (map to_u8 [1; 2; 3; 4; 5]) in
  load8 (WildCopy m (pout .+ 5) (pout .+ 5 .+ (- 5)) 13) (pout .+ 16)
  = load8 (fst (byte_copy (Z.to_nat 13) m (pout .+ 5) (pout .+ 5 .+ (- 5)))) (pout .+ 16).
Proof.
  intros m. apply (WildCopy_equals_byte_copy m (pout .+ 5) 5 13 (pout .+ 16)).
  - lia.
  - lia.
  - intros _. simpl. lia.
Defined.

(** ** EncodeMod and DecodeMod *)

Lemma EncodeMod_loop_spec fuel : forall m p x,
  snd (EncodeMod_loop fuel m p x) = p .+ Z.of_nat (length (enc_bytes fuel x))
  /\ bytes_at (fst (EncodeMod_loop fuel m p x)) p (enc_bytes fuel x)
  /\ unchanged_but m (fst (EncodeMod_loop fuel m p x)) (blk p) (off p)
       (off p + Z.of_nat (length (enc_bytes fuel x))).
Proof.
  induction fuel as [| f IH]; intros m p x.
  - simpl. split; [reflexivity |]. split.
    + apply bytes_at_cons. split; [apply load8_store8_eq | apply bytes_at_nil].
    + apply store8_unchanged.
  - cbn [EncodeMod_loop enc_bytes]. destruct (128 <=? x).
    + destruct (IH (store8 m p (128 + Z.land (x - 128) 127)) (p .+ 1)
                  (Z.shiftr (x - 128) 7)) as (Hp & Hb & Hu).
      split; [rewrite Hp; simpl length; ptr_eq |]. split.
      * apply bytes_at_cons. split; [| exact Hb].
        rewrite Hu by (simpl; lia). apply load8_store8_eq.
      * eapply unchanged_but_trans; [apply store8_unchanged | exact Hu | ..];
          simpl; lia.
    + simpl. split; [reflexivity |]. split.
      * apply bytes_at_cons. split; [apply load8_store8_eq | apply bytes_at_nil].
      * apply store8_unchanged.
Qed.

Lemma EncodeMod_spec m p x :
  snd (EncodeMod m p x) = p .+ varint_len x
  /\ bytes_at (fst (EncodeMod m p x)) p (varint x)
  /\ unchanged_but m (fst (EncodeMod m p x)) (blk p) (off p) (off p + varint_len x).
Proof. apply EncodeMod_loop_spec. Qed.

Lemma enc_bytes_length fuel : forall x,
  1 <= Z.of_nat (length (enc_bytes fuel x)) <= Z.of_nat fuel + 1.
Proof.
  induction fuel as [| f IH]; intros x; cbn [enc_bytes].
  - simpl. lia.
  - destruct (128 <=? x); [specialize (IH (Z.shiftr (x - 128) 7)); simpl length | simpl]; lia.
Qed.

Lemma varint_len_bounds x : 1 <= varint_len x <= 5.
Proof. unfold varint_len, varint. pose proof (enc_bytes_length 4 (u32 x)). lia. Qed.

Lemma DecodeMod_loop_S f m p x i :
  DecodeMod_loop (S f) m p x i =
  if i <=? 28 then
    if load8 m p <? 128 then (u32 (x + u32 (Z.shiftl (load8 m p) i)), p .+ 1)
    else DecodeMod_loop f m (p .+ 1) (u32 (x + u32 (Z.shiftl (load8 m p) i))) (i + 7)
  else (x, p).
Proof. reflexivity. Qed.

Lemma DecodeMod_loop_enc f : forall m p x acc i,
  i = 28 - 7 * Z.of_nat f -> 0 <= i -> 0 <= x -> 0 <= acc -> acc + x * 2 ^ i < 2 ^ 32 ->
  (f = O -> x < 128) ->
  bytes_at m p (enc_bytes f x) ->
  DecodeMod_loop (S f) m p acc i
  = (acc + x * 2 ^ i, p .+ Z.of_nat (length (enc_bytes f x))).
Proof.
  induction f as [| f IH]; intros m p x acc i Hi Hipos Hx Hacc Hlt H0 Hb.
  - specialize (H0 eq_refl). change (28 - 7 * Z.of_nat 0) with 28 in Hi. subst i.
    cbn [enc_bytes] in *. apply bytes_at_cons in Hb. destruct Hb as [Hb _].
    rewrite land255_small in Hb by lia.
    cbn [DecodeMod_loop]. cbv zeta. rewrite Hb. change (28 <=? 28) with true. cbv iota.
    rewrite Z.shiftl_mul_pow2 by lia.
    rewrite (u32_small (x * 2 ^ 28)) by lia. rewrite u32_small by lia.
    destruct (Z.ltb_spec x 128); [reflexivity | lia].
  - assert (Hi0 : 0 <= i <= 21) by lia.
    assert (Hs : 0 < 2 ^ i) by (apply Z.pow_pos_nonneg; lia).
    cbn [enc_bytes] in Hb |- *. rewrite DecodeMod_loop_S.
    destruct (Z.leb_spec i 28); [| lia].
    destruct (Z.leb_spec 128 x) as [Hge | Hsmall].
    + apply bytes_at_cons in Hb. destruct Hb as [Hc Hb].
      assert (Hc' : load8 m p = 128 + (x - 128) mod 128).
      { rewrite Hc. change 127 with (Z.ones 7). rewrite Z.land_ones by lia.
        change (2 ^ 7) with 128. apply land255_small.
        pose proof (Z.mod_pos_bound (x - 128) 128). lia. }
      assert (Hx1 : Z.shiftr (x - 128) 7 = (x - 128) / 128)
        by (rewrite Z.shiftr_div_pow2 by lia; reflexivity).
      assert (Hsplit : x = load8 m p + 128 * Z.shiftr (x - 128) 7)
        by (rewrite Hc', Hx1; Z.div_mod_to_equations; lia).
      assert (Hcs : 0 <= load8 m p * 2 ^ i <= x * 2 ^ i).
      { split; [pose proof (load8_range m p); nia |].
        apply Z.mul_le_mono_nonneg_r; [lia |].
        rewrite Hc'. Z.div_mod_to_equations; lia. }
      rewrite Z.shiftl_mul_pow2 by lia.
      rewrite (u32_small (load8 m p * 2 ^ i)) by lia. rewrite u32_small by lia.
      destruct (Z.ltb_spec (load8 m p) 128) as [Hc128 | _];
        [rewrite Hc' in Hc128; pose proof (Z.mod_pos_bound (x - 128) 128); lia |].
      assert (Hpow : 2 ^ (i + 7) = 2 ^ i * 128)
        by (rewrite Z.pow_add_r by lia; reflexivity).
      assert (Hx1pos : 0 <= Z.shiftr (x - 128) 7)
        by (rewrite Hx1; Z.div_mod_to_equations; lia).
      assert (Hfinal : acc + load8 m p * 2 ^ i + Z.shiftr (x - 128) 7 * 2 ^ (i + 7)
                       = acc + x * 2 ^ i)
        by (rewrite Hpow;
            transitivity (acc + (load8 m p + 128 * Z.shiftr (x - 128) 7) * 2 ^ i);
            [ring | rewrite <- Hsplit; reflexivity]).
      rewrite (IH m (p .+ 1) (Z.shiftr (x - 128) 7) (acc + load8 m p * 2 ^ i) (i + 7));
        [ rewrite Hfinal; f_equal; simpl length; ptr_eq
        | lia | lia | exact Hx1pos | lia | rewrite Hfinal; exact Hlt | | exact Hb ].
      intros ->. assert (i = 21) by lia. subst i. change (2 ^ 21) with 2097152 in *.
      rewrite Hx1. Z.div_mod_to_equations; lia.
    + apply bytes_at_cons in Hb. destruct Hb as [Hb _].
      rewrite land255_small in Hb by lia. rewrite Hb.
      rewrite Z.shiftl_mul_pow2 by lia.
      rewrite (u32_small (x * 2 ^ i)) by nia. rewrite u32_small by nia.
      destruct (Z.ltb_spec x 128); [reflexivity | lia].
Qed.

Lemma DecodeMod_varint m p x :
  0 <= x < 2 ^ 32 -> bytes_at m p (varint x) ->
  DecodeMod m p = (x, p .+ varint_len x).
Proof.
  intros Hx Hb. unfold DecodeMod, varint_len, varint in *.
  rewrite (u32_small x) in * by exact Hx.
  rewrite (DecodeMod_loop_enc 4 m p x 0 0);
    [f_equal; lia | reflexivity | lia | lia | lia | | discriminate | exact Hb].
  change (2 ^ 0) with 1. lia.
Qed.

(** C4.  For every 32-bit [x], [EncodeMod] stores between one and five
    bytes (and nothing else), and [DecodeMod] run on these bytes, wherever
    they are placed, consumes exactly them and returns [x]. *)
Theorem EncodeMod_DecodeMod_roundtrip (m : memory) (p : ptr) (x : Z) :
  0 <= x < 2 ^ 32 ->
  let m' := fst (EncodeMod m p x) in
  let p' := snd (EncodeMod m p x) in
  blk p' = blk p /\ 1 <= off p' - off p <= 5
  /\ unchanged_but m m' (blk p) (off p) (off p')
  /\ forall m2 q,
       (forall i, 0 <= i < off p' - off p -> load8 m2 (q .+ i) = load8 m' (p .+ i)) ->
       DecodeMod m2 q = (x, q .+ (off p' - off p)).
Proof.
  intros Hx m' p'. destruct (EncodeMod_spec m p x) as (Hp & Hb & Hu).
  fold m' in Hb, Hu. fold p' in Hp. pose proof (varint_len_bounds x) as Hl.
  rewrite Hp. simpl. split; [reflexivity |]. split; [lia |]. split; [exact Hu |].
  intros m2 q Hq. replace (off p + varint_len x - off p) with (varint_len x) in * by lia.
  apply DecodeMod_varint; [exact Hx |].
  intros i Hi. rewrite Hq by (unfold varint_len; exact Hi). apply Hb. exact Hi.
Qed.

Lemma EncodeMod_DecodeMod_roundtrip_witness :
  let m' := fst (EncodeMod empty_memory pout 300) in
  let p' := snd (EncodeMod empty_memory pout 300) in
  blk p' = blk pout /\ 1 <= off p' - off pout <= 5
  /\ unchanged_but empty_memory m' (blk pout) (off pout) (off p')
  /\ forall m2 q,
       (forall i, 0 <= i < off p' - off pout -> load8 m2 (q .+ i) = load8 m' (pout .+ i)) ->
       DecodeMod m2 q = (300, q .+ (off p' - off pout)).
Proof.
  apply (EncodeMod_DecodeMod_roundtrip empty_memory pout 300). lia.
Defined.

(** ** Decompress: the first token *)

Lemma Decompress_loop_S inp in_len out out_len f st :
  Decompress_loop inp in_len out out_len (S f) st =
  if off (d_ip st) <? off (ip_end inp in_len) then
    match Decompress_body inp in_len out out_len st with
    | Next st' => Decompress_loop inp in_len out out_len f st'
    | Break st' => Some (Decompress_return inp in_len out st')
    | Corrupt m => Some (-1, m)
    end
  else Some (Decompress_return inp in_len out st).
Proof. reflexivity. Qed.

Lemma byte_copy_self n : forall m p, mem_eq m (fst (byte_copy n m p p)).
Proof.
  induction n as [| n IH]; intros m p.
  - apply mem_eq_refl.
  - cbn [byte_copy]. eapply mem_eq_trans; [| apply IH].
    intros q. destruct (decide (q = p)) as [-> | Hne].
    + rewrite load8_store8_eq. symmetry. apply land255_small, load8_range.
    + rewrite load8_store8_ne by exact Hne. reflexivity.
Qed.

(** C9.  A stream whose first tag has run field 0 (so no literal precedes
    the match) and whose first match has a distance above 0 is rejected:
    [Decompress] returns -1, whatever the declared capacity. *)
Theorem Decompress_rejects_initial_match
    (m : memory) (inp : ptr) (in_len : Z) (out : ptr) (out_len : Z) :
  1 <= in_len ->
  let tag := load8 m inp in
  let ip :=
    if Z.land tag 15 + MIN_MATCH =? 15 + MIN_MATCH
    then snd (DecodeMod m (inp .+ 1)) else inp .+ 1 in
  tag < 32 ->
  0 < Z.shiftl (Z.land tag 16) 12 + UnalignedLoad16 m ip ->
  exists m', Decompress inp in_len out out_len m = Some (-1, m').
Proof.
  intros Hlen tag ip Htag Hdist. unfold Decompress.
  destruct (Z.to_nat in_len) as [| f] eqn:Ef; [lia |].
  rewrite Decompress_loop_S. cbn [d_ip d_op d_mem]. unfold ip_end. simpl off.
  destruct (Z.ltb_spec (off inp) (off inp + in_len)); [| lia].
  unfold Decompress_body. cbn [d_ip d_op d_mem]. fold tag.
  destruct (Z.geb_spec tag 32); [lia |].
  unfold match_phase. subst ip.
  destruct (Z.land tag 15 + MIN_MATCH =? 15 + MIN_MATCH).
  - destruct (DecodeMod m (inp .+ 1)) as [x ip'] eqn:Ed. simpl snd in Hdist.
    destruct (_ <? _); [eexists; reflexivity |].
    destruct (Z.ltb_spec (off out - off out) (Z.shiftl (Z.land tag 16) 12 + UnalignedLoad16 m ip'));
      [eexists; reflexivity | lia].
  - destruct (_ <? _); [eexists; reflexivity |].
    destruct (Z.ltb_spec (off out - off out) (Z.shiftl (Z.land tag 16) 12 + UnalignedLoad16 m (inp .+ 1)));
      [eexists; reflexivity | lia].
Qed.

Lemma Decompress_rejects_initial_match_witness :
  exists m',
    Decompress pin 3 pout 10 (store_bytes empty_memory pin [x00; x01; x00]) = Some (-1, m').
Proof.
  apply (Decompress_rejects_initial_match
           (store_bytes empty_memory pin [x00; x01; x00]) pin 3 pout 10).
  - lia.
  - vm_compute. reflexivity.
  - vm_compute. reflexivity.
Defined.

(** C10.  A stream with a match token of distance 0 that [Decompress]
    accepts: the tag [0x00] (no literals, length 4, bit 4 clear) followed by
    the 16-bit value 0.  With a capacity of four bytes the range check
    [(op-out)<dist] passes, the byte loop copies each output byte onto itself,
    and the call returns 4 with the output buffer as it was. *)
Theorem Decompress_accepts_distance_zero :
  let m := store_bytes (store_bytes empty_memory pout [x07; x08; x09; x0a])
             pin [x00; x00; x00] in
  Z.land (load8 m pin) 16 = 0 /\ UnalignedLoad16 m (pin .+ 1) = 0
  /\ exists m',
       Decompress pin 3 pout 4 m = Some (4, m')
       /\ 0 <= 4
       /\ forall q, load8 m' q = load8 m q.
Proof.
  intros m. split; [reflexivity |]. split; [reflexivity |].
  exists (fst (byte_copy 4 m pout (pout .+ (- 0)))).
  split; [vm_compute; reflexivity |]. split; [lia |].
  intros q. symmetry. apply (byte_copy_self 4 m pout).
Qed.

(** ** The hash chain *)

Lemma tget_insert_eq t k v : tget (<[k := v]> t) k = v.
Proof. unfold tget. rewrite lookup_insert_eq. reflexivity. Qed.

Lemma tget_insert_ne t k v j : k <> j -> tget (<[k := v]> t) j = tget t j.
Proof. intros Hne. unfold tget. rewrite lookup_insert_ne by exact Hne. reflexivity. Qed.

Lemma Head_reset_spec n : forall i H j,
  0 <= i ->
  tget (Head_reset n i H) j = if (i <=? j) && (j <? i + Z.of_nat n) then NIL else tget H j.
Proof.
  induction n as [| n IH]; intros i H j Hi.
  - simpl Head_reset. destruct (Z.leb_spec i j), (Z.ltb_spec j (i + Z.of_nat 0)); simpl; try reflexivity; lia.
  - cbn [Head_reset]. rewrite IH by lia.
    destruct (Z.leb_spec (i + 1) j), (Z.ltb_spec j (i + 1 + Z.of_nat n)),
             (Z.leb_spec i j), (Z.ltb_spec j (i + Z.of_nat (S n))); simpl; try reflexivity; try lia.
    all: first [ apply tget_insert_ne; lia
               | assert (j = i) by lia; subst j; apply tget_insert_eq ].
Qed.

Lemma Hash32_range m p : 0 <= Hash32 m p < HASH_SIZE.
Proof.
  unfold Hash32. rewrite Z.shiftr_div_pow2 by (unfold HASH_BITS; lia).
  pose proof (u32_range (UnalignedLoad32 m p * 2654435769)) as Hr.
  change HASH_SIZE with 262144. change (2 ^ (32 - HASH_BITS)) with 16384.
  change (2 ^ 32) with 4294967296 in Hr. Z.div_mod_to_equations; lia.
Qed.

Lemma Hash32_ext m m' p :
  (forall k, 0 <= k < 4 -> load8 m (p .+ k) = load8 m' (p .+ k)) ->
  Hash32 m p = Hash32 m' p.
Proof. intros H. unfold Hash32. rewrite (Load32_ext m m' p p H). reflexivity. Qed.

Lemma land_mask s : 0 <= s -> Z.land s WINDOW_MASK = s mod WINDOW_SIZE.
Proof.
  intros _. change WINDOW_MASK with (Z.ones 17). rewrite Z.land_ones by lia. reflexivity.
Qed.

Lemma land_mask_ne s t :
  0 <= s -> 0 <= t -> t < s < t + WINDOW_SIZE ->
  Z.land s WINDOW_MASK <> Z.land t WINDOW_MASK.
Proof.
  intros Hs Ht Hst. rewrite !land_mask by assumption.
  change WINDOW_SIZE with 131072 in *. Z.div_mod_to_equations; lia.
Qed.

Lemma Max_spec a b : Max a b = Z.max a b.
Proof. unfold Max. destruct (Z.gtb_spec a b); lia. Qed.

Lemma Min_spec a b : Min a b = Z.min a b.
Proof. unfold Min. destruct (Z.ltb_spec a b); lia. Qed.

Lemma chain_ok_reach m inp p H T :
  chain_ok m inp p H T -> chain_reach m inp p H T.
Proof.
  intros (H1 & H2 & T1 & T2) q Hq. rewrite !Max_spec in *. unfold NIL in *.
  assert (Hq0 : 0 <= q < p) by lia.
  assert (Hwin : p - WINDOW_SIZE < q) by lia.
  pose proof (H2 q Hq0) as Hle.
  destruct (H1 _ (Hash32_range m (inp .+ q))) as [Hnil | [Hr Hh]]; [unfold NIL in Hnil; lia |].
  remember (tget H (Hash32 m (inp .+ q))) as s eqn:Es. clear Es H1 H2.
  assert (Hs : q <= s < p) by lia. clear Hle Hr.
  remember (Z.to_nat (s - q)) as k eqn:Ek.
  revert s Hh Hs Ek. induction k as [k IH] using lt_wf_ind. intros s Hh Hs Ek.
  destruct (Z.eq_dec s q) as [-> | Hne].
  - apply reaches_here. lia.
  - apply reaches_next; [lia |].
    assert (Hs0 : 0 <= s) by lia. assert (Hsw : p - WINDOW_SIZE <= s < p) by lia.
    pose proof (T2 s q Hs0 Hsw ltac:(lia) (eq_sym Hh)) as Hqt.
    destruct (T1 s Hs0 Hsw) as [Hnil | [Ht Hth]]; [unfold NIL in Hnil; lia |].
    apply (IH (Z.to_nat (tget T (Z.land s WINDOW_MASK) - q))); [lia | congruence | lia | reflexivity].
Qed.

Lemma chain_ok_init m inp T H0 :
  chain_ok m inp 0 (Head_reset (Z.to_nat HASH_SIZE) 0 H0) T.
Proof.
  split; [| split; [| split]].
  - intros h Hh. left. rewrite Head_reset_spec by lia.
    destruct (Z.leb_spec 0 h), (Z.ltb_spec h (0 + Z.of_nat (Z.to_nat HASH_SIZE)));
      simpl; try reflexivity; unfold HASH_SIZE in *; simpl in *; lia.
  - intros q Hq. lia.
  - intros s Hs Hw. lia.
  - intros s q Hs Hw. lia.
Qed.

Lemma insert_hash_ok m0 m inp p H T :
  0 <= p ->
  Hash32 m (inp .+ p) = Hash32 m0 (inp .+ p) ->
  chain_ok m0 inp p H T ->
  chain_ok m0 inp (p + 1) (fst (insert_hash inp m H T p)) (snd (insert_hash inp m H T p)).
Proof.
  intros Hp Hh (H1 & H2 & T1 & T2). unfold insert_hash. rewrite Hh. cbn [fst snd].
  set (h := Hash32 m0 (inp .+ p)) in *.
  split; [| split; [| split]].
  - intros h' Hh'. destruct (Z.eq_dec h h') as [<- | Hne].
    + rewrite tget_insert_eq. right. split; [lia | reflexivity].
    + rewrite tget_insert_ne by exact Hne.
      destruct (H1 h' Hh') as [? | [? ?]]; [left; assumption | right; split; [lia | assumption]].
  - intros q Hq. destruct (Z.eq_dec h (Hash32 m0 (inp .+ q))) as [<- | Hne].
    + rewrite tget_insert_eq. lia.
    + rewrite tget_insert_ne by exact Hne.
      destruct (Z.eq_dec q p) as [-> | Hqp]; [contradiction Hne; reflexivity |].
      apply H2. lia.
  - intros s Hs Hw. cbv zeta. destruct (Z.eq_dec s p) as [-> | Hsp].
    + rewrite tget_insert_eq.
      destruct (H1 h (Hash32_range m0 (inp .+ p))) as [? | [? ?]];
        [left; assumption | right; split; [lia | assumption]].
    + rewrite tget_insert_ne by (apply land_mask_ne; lia).
      apply T1; [exact Hs | lia].
  - intros s q Hs Hw Hq Hhq. destruct (Z.eq_dec s p) as [-> | Hsp].
    + rewrite tget_insert_eq. fold h in Hhq. rewrite <- Hhq. apply H2. lia.
    + rewrite tget_insert_ne by (apply land_mask_ne; lia).
      apply T2; [exact Hs | lia | exact Hq | exact Hhq].
Qed.

Lemma insert_n_ok m0 m inp n : forall p H T,
  0 <= p ->
  (forall q, blk q = blk inp -> load8 m q = load8 m0 q) ->
  chain_ok m0 inp p H T ->
  chain_ok m0 inp (p + Z.of_nat n) (fst (fst (insert_n inp n m H T p)))
    (snd (fst (insert_n inp n m H T p)))
  /\ snd (insert_n inp n m H T p) = p + Z.of_nat n.
Proof.
  induction n as [| n IH]; intros p H T Hp Hm Hok.
  - simpl. rewrite Z.add_0_r. split; [exact Hok | reflexivity].
  - cbn [insert_n].
    assert (Hh : Hash32 m (inp .+ p) = Hash32 m0 (inp .+ p))
      by (apply Hash32_ext; intros k _; apply Hm; reflexivity).
    pose proof (insert_hash_ok m0 m inp p H T Hp Hh Hok) as Hok'.
    destruct (insert_hash inp m H T p) as [H' T']. cbn [fst snd] in Hok'.
    destruct (IH (p + 1) H' T' ltac:(lia) Hm Hok') as [Hok'' Hp''].
    replace (p + Z.of_nat (S n)) with (p + 1 + Z.of_nat n) by lia.
    split; assumption.
Qed.

(** ** What one token looks like in the output *)

Lemma in_bytes_length m inp a n : 0 <= n -> Z.of_nat (length (in_bytes m inp a n)) = n.
Proof. intros Hn. unfold in_bytes. rewrite length_map, length_seq. lia. Qed.

Lemma in_bytes_nth m inp a n i :
  0 <= i < n -> nth (Z.to_nat i) (in_bytes m inp a n) 0 = load8 m (inp .+ (a + i)).
Proof.
  intros Hi. unfold in_bytes.
  rewrite (nth_indep _ 0 ((fun i => load8 m (inp .+ (a + Z.of_nat i))) 0%nat))
    by (rewrite length_map, length_seq; lia).
  rewrite (map_nth (fun i => load8 m (inp .+ (a + Z.of_nat i)))).
  rewrite seq_nth by lia. f_equal. ptr_eq.
Qed.

Lemma run_bytes_length m inp a run tmp :
  0 <= run -> Z.of_nat (length (run_bytes m inp a run tmp)) = run_size run.
Proof.
  intros Hr. unfold run_bytes, run_size. cbn [length]. rewrite length_app.
  rewrite Nat2Z.inj_succ, Nat2Z.inj_add, in_bytes_length by exact Hr.
  destruct (7 <=? run); [fold (varint_len (run - 7)) |]; simpl; lia.
Qed.

Lemma match_bytes_length best_len dist :
  Z.of_nat (length (match_bytes best_len dist))
  = (if 15 <=? best_len - MIN_MATCH then varint_len (best_len - MIN_MATCH - 15) else 0) + 2.
Proof.
  unfold match_bytes. rewrite length_app, Nat2Z.inj_add.
  destruct (15 <=? best_len - MIN_MATCH); [fold (varint_len (best_len - MIN_MATCH - 15)) |];
    simpl; lia.
Qed.

Lemma token_bytes_length m inp a run best_len dist :
  0 <= run ->
  Z.of_nat (length (token_bytes m inp a run best_len dist)) = token_size run best_len.
Proof.
  intros Hr. unfold token_bytes, token_size.
  rewrite length_app, Nat2Z.inj_add, run_bytes_length, match_bytes_length by exact Hr. lia.
Qed.

Lemma WildCopy_cross m d s n i :
  blk d <> blk s -> 0 <= i < wild_len n ->
  load8 (WildCopy m d s n) (d .+ i) = load8 m (s .+ i).
Proof.
  intros Hb Hi. rewrite WildCopy_spec by (left; exact Hb).
  apply byte_copy_byte; [left; exact Hb | lia].
Qed.

Ltac frame_side Hq :=
  let H := fresh in
  intros H; apply Hq; simpl in *; destruct H; split; [congruence | lia].

Lemma emit_run_spec inp m op run p tmp :
  blk op <> blk inp -> 0 <= run -> 0 <= tmp < 32 ->
  snd (emit_run inp m op run p tmp) = op .+ run_size run
  /\ bytes_at (fst (emit_run inp m op run p tmp)) op (run_bytes m inp (p - run) run tmp)
  /\ unchanged_but m (fst (emit_run inp m op run p tmp)) (blk op) (off op)
       (off op + run_size run + 8).
Proof.
  intros Hb Hr Ht. unfold emit_run, run_bytes, run_size.
  destruct (Z.eqb_spec run 0) as [-> | Hr0]; cbn [negb].
  - change (7 <=? 0) with false. cbv iota. cbn [fst snd].
    split; [ptr_eq |]. split.
    + change (in_bytes m inp (p - 0) 0) with (@nil Z). cbn [app].
      apply bytes_at_cons. split; [| apply bytes_at_nil].
      rewrite load8_store8_eq. change (Z.shiftl (Z.min 0 7) 5) with 0.
      apply land255_small. lia.
    + eapply unchanged_but_weaken; [apply store8_unchanged | lia | lia].
  - destruct (Z.geb_spec run 7) as [Hr7 | Hr7]; destruct (Z.leb_spec 7 run); try lia.
    + (* a long run: tag, varint, literals *)
      destruct (EncodeMod_spec (store8 m op (Z.shiftl 7 5 + tmp)) (op .+ 1) (run - 7))
        as (Hp & Hv & Hu).
      destruct (EncodeMod (store8 m op (Z.shiftl 7 5 + tmp)) (op .+ 1) (run - 7))
        as [m1 op1]. cbn [fst snd] in *. subst op1.
      pose proof (varint_len_bounds (run - 7)) as Hvl.
      pose proof (wild_len_bounds run) as (_ & Hwl & Hwu).
      assert (Hw : unchanged_but m1 (WildCopy m1 (op .+ 1 .+ varint_len (run - 7))
                     (inp .+ (p - run)) run) (blk op) (off op + 1 + varint_len (run - 7))
                     (off op + 1 + varint_len (run - 7) + wild_len run))
        by (apply (WildCopy_unchanged m1 (op .+ 1 .+ varint_len (run - 7))); left; exact Hb).
      split; [ptr_eq |]. split.
      * apply bytes_at_cons. split.
        { rewrite Hw by (simpl; lia). rewrite Hu by (simpl; lia).
          rewrite load8_store8_eq. rewrite Z.min_r by lia.
          apply land255_small. change (Z.shiftl 7 5) with 224. lia. }
        apply bytes_at_app. split.
        { eapply bytes_at_unchanged; [exact Hv | exact Hw |].
          right. left. simpl. unfold varint_len. lia. }
        intros i Hi. rewrite in_bytes_length in Hi by exact Hr.
        rewrite in_bytes_nth by exact Hi.
        fold (varint_len (run - 7)).
        replace (op .+ 1 .+ varint_len (run - 7) .+ i)
          with ((op .+ 1 .+ varint_len (run - 7)) .+ i) by reflexivity.
        rewrite WildCopy_cross by (simpl; (exact Hb || lia)).
        rewrite Hu by (simpl; intros [? ?]; congruence).
        rewrite load8_store8_ne by (apply ptr_ne_blk; simpl; congruence).
        f_equal. ptr_eq.
      * intros q Hq. rewrite Hw by frame_side Hq. rewrite Hu by frame_side Hq.
        apply store8_unchanged. frame_side Hq.
    + (* a short run: tag, literals *)
      cbn [fst snd]. pose proof (wild_len_bounds run) as (_ & Hwl & Hwu).
      assert (Hw : unchanged_but (store8 m op (Z.shiftl run 5 + tmp))
                     (WildCopy (store8 m op (Z.shiftl run 5 + tmp)) (op .+ 1)
                        (inp .+ (p - run)) run) (blk op) (off op + 1)
                     (off op + 1 + wild_len run))
        by (apply (WildCopy_unchanged _ (op .+ 1)); left; exact Hb).
      split; [ptr_eq |]. split.
      * apply bytes_at_cons. split.
        { rewrite Hw by (simpl; lia). rewrite load8_store8_eq. rewrite Z.min_l by lia.
          rewrite Z.shiftl_mul_pow2 by lia. change (2 ^ 5) with 32.
          apply land255_small. lia. }
        cbn [app]. intros i Hi. rewrite in_bytes_length in Hi by exact Hr.
        rewrite in_bytes_nth by exact Hi.
        rewrite WildCopy_cross by (simpl; (exact Hb || lia)).
        rewrite load8_store8_ne by (apply ptr_ne_blk; simpl; congruence).
        f_equal. ptr_eq.
      * intros q Hq. rewrite Hw by frame_side Hq.
        apply store8_unchanged. frame_side Hq.
Qed.

(** Checking a Boolean property on every number below a bound. *)
Lemma forall_below (P : Z -> bool) (n : nat) :
  forallb P (map Z.of_nat (seq 0 n)) = true ->
  forall x, 0 <= x < Z.of_nat n -> P x = true.
Proof.
  intros H x Hx. rewrite forallb_forall in H. apply H.
  apply in_map_iff. exists (Z.to_nat x). split; [lia |].
  apply in_seq. lia.
Qed.

Lemma tag_fields tag :
  0 <= tag < 256 ->
  Z.land tag 15 = tag mod 16 /\ Z.land tag 16 = 16 * ((tag / 16) mod 2)
  /\ Z.shiftr tag 5 = tag / 32.
Proof.
  intros Ht.
  pose proof (forall_below
    (fun t => (Z.land t 15 =? t mod 16) && (Z.land t 16 =? 16 * ((t / 16) mod 2))
              && (Z.shiftr t 5 =? t / 32)) 256 eq_refl tag Ht) as H.
  cbv beta in H. apply andb_true_iff in H. destruct H as [H H3].
  apply andb_true_iff in H. destruct H as [H1 H2]. lia.
Qed.

Lemma dist_bit d :
  0 <= d < 131072 -> Z.land (Z.shiftr d 12) 16 = 16 * (d / 65536).
Proof.
  intros Hd. rewrite Z.shiftr_div_pow2 by lia. change (2 ^ 12) with 4096.
  assert (Hx : 0 <= d / 4096 < 32) by (Z.div_mod_to_equations; lia).
  pose proof (forall_below (fun x => Z.land x 16 =? 16 * (x / 16)) 32 eq_refl _ Hx) as H.
  cbv beta in H. apply Z.eqb_eq in H. rewrite H. Z.div_mod_to_equations; lia.
Qed.

Lemma match_tag_range best_len dist :
  MIN_MATCH <= best_len -> 0 <= dist < 131072 ->
  0 <= match_tag best_len dist < 32.
Proof.
  intros Hb Hd. unfold match_tag. rewrite dist_bit by exact Hd.
  unfold MIN_MATCH in *. Z.div_mod_to_equations; lia.
Qed.

Lemma insert_n_p inp m n : forall H T p, snd (insert_n inp n m H T p) = p + Z.of_nat n.
Proof.
  induction n as [| n IH]; intros H T p.
  - simpl. lia.
  - cbn [insert_n]. destruct (insert_hash inp m H T p) as [H' T']. rewrite IH. lia.
Qed.

Ltac len_side Hr :=
  right; left; rewrite ?run_bytes_length by exact Hr;
  cbn [off blk padd]; unfold varint_len in *; lia.

Lemma emit_match_spec inp st best_len dist :
  blk (c_op st) <> blk inp -> 0 <= c_run st ->
  MIN_MATCH <= best_len -> 0 <= dist < 131072 ->
  let st' := emit_match inp st best_len dist in
  c_op st' = c_op st .+ token_size (c_run st) best_len
  /\ c_run st' = 0
  /\ c_p st' = c_p st + best_len
  /\ bytes_at (c_mem st') (c_op st)
       (token_bytes (c_mem st) inp (c_p st - c_run st) (c_run st) best_len dist)
  /\ unchanged_but (c_mem st) (c_mem st') (blk (c_op st)) (off (c_op st))
       (off (c_op st) + token_size (c_run st) best_len + 8)
  /\ (c_Head st', c_Tail st', c_p st')
     = insert_n inp (Z.to_nat best_len) (c_mem st') (c_Head st) (c_Tail st) (c_p st).
Proof.
  intros Hb Hr Hl Hd st'. subst st'. unfold emit_match.
  pose proof (match_tag_range best_len dist Hl Hd) as Ht.
  rewrite Min_spec. fold (match_tag best_len dist).
  destruct (emit_run_spec inp (c_mem st) (c_op st) (c_run st) (c_p st)
              (match_tag best_len dist) Hb Hr Ht) as (Hp1 & Hb1 & Hu1).
  destruct (emit_run inp (c_mem st) (c_op st) (c_run st) (c_p st)
              (match_tag best_len dist)) as [m1 op1]. cbn [fst snd] in *. subst op1.
  assert (Hrs : 1 <= run_size (c_run st))
    by (unfold run_size; destruct (7 <=? c_run st);
        [pose proof (varint_len_bounds (c_run st - 7)) |]; lia).
  unfold token_size, token_bytes, match_bytes.
  destruct (Z.geb_spec (best_len - MIN_MATCH) 15) as [Hlong | Hshort];
    destruct (Z.leb_spec 15 (best_len - MIN_MATCH)); try lia.
  - destruct (EncodeMod_spec m1 (c_op st .+ run_size (c_run st))
                (best_len - MIN_MATCH - 15)) as (Hp2 & Hb2 & Hu2).
    destruct (EncodeMod m1 (c_op st .+ run_size (c_run st)) (best_len - MIN_MATCH - 15))
      as [m2 op2]. cbn [fst snd] in *. subst op2.
    pose proof (varint_len_bounds (best_len - MIN_MATCH - 15)) as Hvl.
    set (op2 := c_op st .+ run_size (c_run st) .+ varint_len (best_len - MIN_MATCH - 15)) in *.
    pose proof (Store16_unchanged m2 op2 dist) as Hu3.
    pose proof (Store16_bytes m2 op2 dist) as Hb3.
    pose proof (insert_n_p inp (UnalignedStore16 m2 op2 dist) (Z.to_nat best_len)
                  (c_Head st) (c_Tail st) (c_p st)) as Hpn.
    destruct (insert_n inp (Z.to_nat best_len) (UnalignedStore16 m2 op2 dist)
                (c_Head st) (c_Tail st) (c_p st)) as [[H' T'] p'] eqn:Ein.
    cbn [fst snd c_op c_run c_p c_mem c_Head c_Tail] in *.
    split; [subst op2; ptr_eq |]. split; [reflexivity |].
    split; [unfold MIN_MATCH in *; lia |]. split; [| split; [| symmetry; exact Ein]].
    + apply bytes_at_app. split.
      * eapply bytes_at_unchanged;
          [ eapply bytes_at_unchanged;
              [ exact Hb1 | exact Hu2
              | len_side Hr ]
          | exact Hu3
          | subst op2; len_side Hr ].
      * rewrite run_bytes_length by exact Hr. apply bytes_at_app. split.
        { eapply bytes_at_unchanged; [exact Hb2 | exact Hu3 | subst op2; len_side Hr]. }
        fold (varint_len (best_len - MIN_MATCH - 15)). exact Hb3.
    + intros q Hq. rewrite Hu3 by (subst op2; frame_side Hq).
      rewrite Hu2 by frame_side Hq. apply Hu1. frame_side Hq.
  - set (op2 := c_op st .+ run_size (c_run st)) in *.
    pose proof (Store16_unchanged m1 op2 dist) as Hu3.
    pose proof (Store16_bytes m1 op2 dist) as Hb3.
    pose proof (insert_n_p inp (UnalignedStore16 m1 op2 dist) (Z.to_nat best_len)
                  (c_Head st) (c_Tail st) (c_p st)) as Hpn.
    destruct (insert_n inp (Z.to_nat best_len) (UnalignedStore16 m1 op2 dist)
                (c_Head st) (c_Tail st) (c_p st)) as [[H' T'] p'] eqn:Ein.
    cbn [fst snd c_op c_run c_p c_mem c_Head c_Tail app] in *.
    split; [subst op2; ptr_eq |]. split; [reflexivity |].
    split; [unfold MIN_MATCH in *; lia |]. split; [| split; [| symmetry; exact Ein]].
    + apply bytes_at_app. split.
      * eapply bytes_at_unchanged; [exact Hb1 | exact Hu3 | subst op2; len_side Hr].
      * rewrite run_bytes_length by exact Hr. exact Hb3.
    + intros q Hq. rewrite Hu3 by (subst op2; frame_side Hq).
      apply Hu1. frame_side Hq.
Qed.

(** ** The match finder returns real matches *)

Lemma match_len_spec inp m s p bound fuel : forall len,
  bound - len <= Z.of_nat fuel -> len <= bound ->
  matches m inp s p len ->
  let r := match_len inp fuel m s p bound len in
  len <= r <= bound /\ matches m inp s p r
  /\ (r < bound -> load8 m (inp .+ (s + r)) <> load8 m (inp .+ (p + r))).
Proof.
  induction fuel as [| f IH]; intros len Hf Hle Hm; cbn [match_len]; cbv zeta.
  - split; [lia |]. split; [exact Hm | lia].
  - destruct (Z.ltb_spec len bound) as [Hlt | Hge]; cbn [andb].
    + destruct (Z.eqb_spec (load8 m (inp .+ (s + len))) (load8 m (inp .+ (p + len))))
        as [He | Hne].
      * destruct (IH (len + 1)) as (H1 & H2 & H3); [lia | lia | |].
        { intros k Hk. destruct (Z.eq_dec k len) as [-> | ?]; [exact He | apply Hm; lia]. }
        split; [lia |]. split; assumption.
      * split; [lia |]. split; [exact Hm | intros _; exact Hne].
    + split; [lia |]. split; [exact Hm | lia].
Qed.

Lemma chain_ok_tail m inp p H T : chain_ok m inp p H T -> tail_ok T p.
Proof.
  intros (_ & _ & T1 & _) s Hs Hw. destruct (T1 s Hs Hw) as [Hn | [? _]];
    [rewrite Hn; unfold NIL |]; lia.
Qed.

Lemma chain_ok_head m inp p H T : 0 <= p -> chain_ok m inp p H T -> head_ok H p.
Proof.
  intros Hp (H1 & _) h Hh. destruct (H1 h Hh) as [Hn | [? _]];
    [rewrite Hn; unfold NIL |]; lia.
Qed.

Lemma Load32_matches m inp s p :
  UnalignedLoad32 m (inp .+ s) = UnalignedLoad32 m (inp .+ p) ->
  matches m inp s p MIN_MATCH.
Proof.
  intros H k Hk. rewrite <- !padd_padd. apply Load32_inj; [exact H | exact Hk].
Qed.

Lemma search_sound inp m T p mm limit :
  MIN_MATCH <= mm -> p - WINDOW_SIZE <= limit -> -1 <= limit -> tail_ok T p ->
  forall c s bl d, s < p -> good_match m inp p mm limit bl d ->
  good_match m inp p mm limit
    (fst (search inp c m T p mm limit s bl d)) (snd (search inp c m T p mm limit s bl d)).
Proof.
  intros Hmm Hlim Hlim' HT. induction c as [| c IH]; intros s bl d Hs Hg.
  - exact Hg.
  - cbn [search]. destruct (Z.gtb_spec s limit) as [Hgt | Hle]; [| exact Hg].
    assert (Hnext : tget T (Z.land s WINDOW_MASK) < p)
      by (pose proof (HT s ltac:(lia) ltac:(lia)); lia).
    destruct (_ =? _); cbn [andb]; [| apply IH; assumption].
    destruct (Z.eqb_spec (UnalignedLoad32 m (inp .+ s)) (UnalignedLoad32 m (inp .+ p)))
      as [He | Hne]; [| apply IH; assumption].
    destruct (match_len_spec inp m s p mm (Z.to_nat (mm - MIN_MATCH)) MIN_MATCH)
      as (H1 & H2 & _); [lia | lia | apply Load32_matches; exact He |].
    set (len := match_len inp (Z.to_nat (mm - MIN_MATCH)) m s p mm MIN_MATCH) in *.
    assert (Hg' : good_match m inp p mm limit len (p - s)).
    { right. split; [lia |]. replace (p - (p - s)) with s by lia. split; [lia | exact H2]. }
    destruct (Z.gtb_spec len bl); [| apply IH; assumption].
    destruct (len =? mm); [exact Hg' | apply IH; assumption].
Qed.

Lemma lookahead_cases inp level n : forall m H T p bl i,
  lookahead inp level n m H T p bl i = bl \/ lookahead inp level n m H T p bl i = 0.
Proof.
  induction n as [| n IH]; intros m H T p bl i; cbn [lookahead]; [left; reflexivity |].
  destruct ((i <=? 2) && negb (bl =? 0)); [| left; reflexivity].
  cbv zeta. destruct (probe _ _ _ _ _ _ _ _ _).
  - destruct (IH m H T p 0 (i + 1)) as [-> | ->]; right; reflexivity.
  - apply IH.
Qed.

Lemma find_match_spec inp in_len level m H T run p :
  0 <= p -> head_ok H p -> tail_ok T p ->
  let bl := fst (find_match inp in_len level m H T run p) in
  let d := snd (find_match inp in_len level m H T run p) in
  bl < MIN_MATCH
  \/ (MIN_MATCH <= bl <= in_len - p /\ 1 <= d <= p /\ d < WINDOW_SIZE
      /\ matches m inp (p - d) p bl /\ (bl = MIN_MATCH -> run < 7 + 128)).
Proof.
  intros Hp HH HT bl d. subst bl d. unfold find_match.
  destruct (Z.geb_spec (in_len - p) MIN_MATCH) as [Hmm | Hmm];
    [| left; cbn [fst]; unfold MIN_MATCH; lia].
  assert (Hs0 : tget H (Hash32 m (inp .+ p)) < p) by (apply HH, Hash32_range).
  pose proof (search_sound inp m T p (in_len - p) (Max (p - WINDOW_SIZE) NIL) Hmm
                ltac:(rewrite Max_spec; lia) ltac:(rewrite Max_spec; unfold NIL; lia) HT
                (Z.to_nat (max_chain level)) _ (MIN_MATCH - 1) 0 Hs0 (or_introl eq_refl)) as Hg.
  destruct (search inp (Z.to_nat (max_chain level)) m T p (in_len - p)
              (Max (p - WINDOW_SIZE) NIL) (tget H (Hash32 m (inp .+ p))) (MIN_MATCH - 1) 0)
    as [bl d]. cbn [fst snd] in *.
  destruct Hg as [-> | (Hbl & Hd & Hm)]; [left |].
  - change (MIN_MATCH - 1 =? MIN_MATCH) with false. cbn [andb].
    change (MIN_MATCH - 1 >=? MIN_MATCH) with false. rewrite andb_false_r. cbn [andb].
    unfold MIN_MATCH. lia.
  - rewrite Max_spec in Hd. unfold NIL in Hd.
    set (bl1 := if (bl =? MIN_MATCH) && (run >=? 7 + 128) then 0 else bl).
    assert (Hbl1 : bl1 = 0 \/ (bl1 = bl /\ (bl = MIN_MATCH -> run < 7 + 128))).
    { subst bl1. destruct (Z.eqb_spec bl MIN_MATCH), (Z.geb_spec run (7 + 128)); cbn [andb];
        first [ left; reflexivity
              | right; split; [reflexivity | intros; first [assumption | contradiction]] ]. }
    set (bl2 := if (level =? 9) && (bl1 >=? MIN_MATCH) && (bl1 <? in_len - p)
                then lookahead inp level 2 m H T p bl1 1 else bl1).
    assert (Hbl2 : bl2 = 0 \/ bl2 = bl1).
    { subst bl2. destruct ((level =? 9) && (bl1 >=? MIN_MATCH) && (bl1 <? in_len - p));
        [| right; reflexivity].
      destruct (lookahead_cases inp level 2 m H T p bl1 1) as [-> | ->]; auto. }
    cbn [fst snd].
    destruct Hbl2 as [-> | ->]; [left; unfold MIN_MATCH; lia |].
    destruct Hbl1 as [-> | [-> Hrun]]; [left; unfold MIN_MATCH; lia |].
    right. split; [exact Hbl |]. split; [lia |]. split; [lia |]. split; [exact Hm | exact Hrun].
Qed.

(** ** One round of the main loop *)

Lemma Compress_body_cases inp in_len out level m0 st :
  enc_inv inp in_len out m0 st -> c_p st < in_len ->
  Compress_body inp in_len level st = emit_literal inp st
  \/ exists bl d,
       Compress_body inp in_len level st = emit_match inp st bl d
       /\ find_match inp in_len level (c_mem st) (c_Head st) (c_Tail st) (c_run st) (c_p st)
          = (bl, d)
       /\ MIN_MATCH <= bl <= in_len - c_p st /\ 1 <= d <= c_p st /\ d < WINDOW_SIZE
       /\ matches (c_mem st) inp (c_p st - d) (c_p st) bl
       /\ (bl = MIN_MATCH -> c_run st < 7 + 128).
Proof.
  intros (Hrun & Hp & Hblk & Hmem & Hok) Hlt. unfold Compress_body.
  assert (Hp0 : 0 <= c_p st) by lia.
  pose proof (find_match_spec inp in_len level (c_mem st) (c_Head st) (c_Tail st)
                (c_run st) (c_p st) Hp0
                (chain_ok_head _ _ _ _ _ Hp0 Hok) (chain_ok_tail _ _ _ _ _ Hok)) as Hf.
  destruct (find_match inp in_len level (c_mem st) (c_Head st) (c_Tail st)
              (c_run st) (c_p st)) as [bl d]. cbn [fst snd] in Hf.
  destruct (Z.geb_spec bl MIN_MATCH) as [Hge | Hlow].
  - right. exists bl, d. destruct Hf as [? | Hf]; [lia |].
    split; [reflexivity |]. split; [reflexivity |]. tauto.
  - left. reflexivity.
Qed.

Lemma emit_literal_inv inp in_len out m0 st :
  blk inp <> blk out ->
  enc_inv inp in_len out m0 st -> c_p st < in_len ->
  enc_inv inp in_len out m0 (emit_literal inp st).
Proof.
  intros Hio (Hrun & Hp & Hblk & Hmem & Hok) Hlt. unfold emit_literal.
  assert (Hh : Hash32 (c_mem st) (inp .+ c_p st) = Hash32 m0 (inp .+ c_p st))
    by (apply Hash32_ext; intros k _; apply Hmem; simpl; exact Hio).
  pose proof (insert_hash_ok m0 (c_mem st) inp (c_p st) (c_Head st) (c_Tail st)
                ltac:(lia) Hh Hok) as Hok'.
  destruct (insert_hash inp (c_mem st) (c_Head st) (c_Tail st) (c_p st)) as [H' T'].
  cbn [fst snd] in Hok'. unfold enc_inv. cbn [c_run c_p c_op c_mem c_Head c_Tail].
  split; [lia |]. split; [lia |]. split; [exact Hblk |]. split; [exact Hmem | exact Hok'].
Qed.

Lemma emit_match_inv inp in_len out m0 st bl d :
  blk inp <> blk out ->
  enc_inv inp in_len out m0 st ->
  MIN_MATCH <= bl <= in_len - c_p st -> 1 <= d <= c_p st -> d < WINDOW_SIZE ->
  enc_inv inp in_len out m0 (emit_match inp st bl d).
Proof.
  intros Hio (Hrun & Hp & Hblk & Hmem & Hok) Hbl Hd Hw.
  destruct (emit_match_spec inp st bl d) as (Hop & Hr & Hp' & _ & Hu & Hins);
    [congruence | lia | lia | change WINDOW_SIZE with 131072 in Hw; lia |].
  assert (Hmem' : forall q, blk q <> blk out ->
            load8 (c_mem (emit_match inp st bl d)) q = load8 m0 q).
  { intros q Hq. rewrite Hu by (intros [? ?]; congruence). apply Hmem. exact Hq. }
  destruct (insert_n_ok m0 (c_mem (emit_match inp st bl d)) inp (Z.to_nat bl)
              (c_p st) (c_Head st) (c_Tail st)) as [Hok' _];
    [lia | intros q Hq; apply Hmem'; congruence | exact Hok |].
  rewrite <- Hins in Hok'. cbn [fst snd] in Hok'.
  unfold MIN_MATCH in *.
  replace (c_p st + Z.of_nat (Z.to_nat bl)) with (c_p st + bl) in Hok' by lia.
  rewrite <- Hp' in Hok'.
  unfold enc_inv. rewrite Hr, Hop. split; [lia |]. split; [lia |].
  split; [exact Hblk |]. split; [exact Hmem' | exact Hok'].
Qed.

Lemma Compress_body_inv inp in_len out level m0 st :
  blk inp <> blk out ->
  enc_inv inp in_len out m0 st -> c_p st < in_len ->
  enc_inv inp in_len out m0 (Compress_body inp in_len level st)
  /\ c_p st < c_p (Compress_body inp in_len level st).
Proof.
  intros Hio Hinv Hlt.
  destruct (Compress_body_cases inp in_len out level m0 st Hinv Hlt)
    as [-> | (bl & d & -> & _ & Hbl & Hd & Hw & _)].
  - split; [apply emit_literal_inv; assumption |].
    unfold emit_literal. destruct (insert_hash _ _ _ _ _). simpl. lia.
  - split; [apply emit_match_inv; assumption |].
    destruct Hinv as (Hrun & Hp & Hblk & _).
    destruct (emit_match_spec inp st bl d) as (_ & _ & Hp' & _);
      [congruence | lia | lia | change WINDOW_SIZE with 131072 in Hw; lia |].
    rewrite Hp'. unfold MIN_MATCH in *. lia.
Qed.

Lemma Compress_init_inv inp in_len out self m0 :
  0 <= in_len -> enc_inv inp in_len out m0 (Compress_init out self m0).
Proof.
  intros Hn. unfold enc_inv, Compress_init. cbn [c_run c_p c_op c_mem c_Head c_Tail].
  split; [lia |]. split; [lia |]. split; [reflexivity |]. split; [reflexivity |].
  apply chain_ok_init.
Qed.

(** The loop rule: an invariant kept by every round that also advances [p]
    holds when the loop ends, and [in_len - p] rounds are enough. *)
Lemma Compress_loop_rule inp in_len level (I : cstate -> Prop) :
  (forall st, I st -> c_p st < in_len ->
     I (Compress_body inp in_len level st)
     /\ c_p st < c_p (Compress_body inp in_len level st)) ->
  forall fuel st, I st -> in_len - c_p st <= Z.of_nat fuel ->
  exists st', Compress_loop inp in_len level fuel st = Some st' /\ I st' /\ in_len <= c_p st'.
Proof.
  intros Hstep. induction fuel as [| f IH]; intros st HI Hf.
  - simpl. destruct (Z.ltb_spec (c_p st) in_len); [lia |].
    exists st. split; [reflexivity |]. split; [exact HI | lia].
  - cbn [Compress_loop]. destruct (Z.ltb_spec (c_p st) in_len) as [Hlt | Hge].
    + destruct (Hstep st HI Hlt) as [HI' Hp']. apply IH; [exact HI' | lia].
    + exists st. split; [reflexivity |]. split; [exact HI | lia].
Qed.

(** ** C6: the reachability invariant *)

Lemma loop_state_inv inp in_len out level self m0 st :
  blk inp <> blk out -> 0 <= in_len ->
  loop_state inp in_len out level self m0 st -> enc_inv inp in_len out m0 st.
Proof.
  intros Hio Hn Hst. induction Hst as [| st Hst IH Hlt].
  - apply Compress_init_inv. exact Hn.
  - apply Compress_body_inv; assumption.
Qed.

Lemma chain_reach_ext m m0 inp p H T :
  (forall q, blk q = blk inp -> load8 m q = load8 m0 q) ->
  chain_reach m0 inp p H T -> chain_reach m inp p H T.
Proof.
  intros Hm Hr q Hq.
  rewrite (Hash32_ext m m0) by (intros k _; apply Hm; reflexivity). apply Hr. exact Hq.
Qed.

(** C6.  Whenever [Compress] is encoding at a position [p] (at each round
    of its loop, and after each single insertion of a position covered by a
    match), every position [q] of the window [max(0, p-W+1) .. p-1] is reached
    from [Head[Hash32(&in[q])]] through [Tail[s & WINDOW_MASK]] by a walk that
    only visits positions above the window floor [max(p-W, NIL)]. *)
Theorem hash_chain_reachability
    (inp : ptr) (in_len : Z) (out : ptr) (level : Z) (self : CULZ) (m0 : memory)
    (m : memory) (p : Z) (H T : Zmap Z) :
  blk inp <> blk out -> 0 <= in_len ->
  encoding_at inp in_len out level self m0 m p H T ->
  chain_reach m inp p H T.
Proof.
  intros Hio Hn Hat. destruct Hat as [st Hst | st bl d k Hst Hlt Hfm Hbl Hk].
  - destruct (loop_state_inv _ _ _ _ _ _ _ Hio Hn Hst) as (_ & _ & _ & Hmem & Hok).
    apply (chain_reach_ext _ m0); [intros q Hq; apply Hmem; congruence |].
    apply chain_ok_reach. exact Hok.
  - pose proof (loop_state_inv _ _ _ _ _ _ _ Hio Hn Hst) as Hinv.
    pose proof Hinv as (Hrun & Hp & Hblk & Hmem & Hok).
    assert (Hp0 : 0 <= c_p st) by lia.
    pose proof (find_match_spec inp in_len level (c_mem st) (c_Head st) (c_Tail st)
                  (c_run st) (c_p st) Hp0
                  (chain_ok_head _ _ _ _ _ Hp0 Hok) (chain_ok_tail _ _ _ _ _ Hok)) as Hf.
    rewrite Hfm in Hf. cbn [fst snd] in Hf.
    destruct Hf as [? | (Hbl' & Hd' & Hw' & _)]; [lia |].
    destruct (emit_match_spec inp st bl d) as (_ & _ & _ & _ & Hu & _);
      [congruence | lia | lia | change WINDOW_SIZE with 131072 in Hw'; lia |].
    assert (Hmem' : forall q, blk q = blk inp ->
              load8 (c_mem (emit_match inp st bl d)) q = load8 m0 q).
    { intros q Hq. rewrite Hu by (intros [? ?]; congruence). apply Hmem. congruence. }
    apply (chain_reach_ext _ m0); [exact Hmem' |].
    apply chain_ok_reach.
    destruct (insert_n_ok m0 (c_mem (emit_match inp st bl d)) inp k (c_p st)
                (c_Head st) (c_Tail st) ltac:(lia) Hmem' Hok) as [Hok' Hp'].
    rewrite Hp'. exact Hok'.
Qed.

Lemma hash_chain_reachability_witness :
  let m0 := store_bytes empty_memory pin [x61; x61; x61; x61; x61] in
  let st := Compress_body pin 5 1 (Compress_init pout fresh m0) in
  chain_reach (c_mem st) pin (c_p st) (c_Head st) (c_Tail st).
Proof.
  intros m0 st.
  apply (hash_chain_reachability pin 5 pout 1 fresh m0).
  - discriminate.
  - lia.
  - apply at_round. apply loop_next; [apply loop_init | reflexivity].
Defined.

(** ** The size of the output *)

Lemma varint_len_classes x :
  0 <= x < 2 ^ 32 ->
  (x < 128 -> varint_len x = 1)
  /\ (3 <= varint_len x -> 16512 <= x)
  /\ (4 <= varint_len x -> 2113664 <= x)
  /\ (5 <= varint_len x -> 270549120 <= x)
  /\ (16512 <= x -> 3 <= varint_len x)
  /\ (x < 2113664 -> varint_len x <= 3).
Proof.
  intros Hx. unfold varint_len, varint. rewrite u32_small by exact Hx.
  change (2 ^ 32) with 4294967296 in Hx.
  cbn [enc_bytes]. rewrite !Z.shiftr_div_pow2 by lia. change (2 ^ 7) with 128.
  destruct (Z.leb_spec 128 x); [| simpl; lia].
  destruct (Z.leb_spec 128 ((x - 128) / 128)); [| simpl; Z.div_mod_to_equations; lia].
  destruct (Z.leb_spec 128 (((x - 128) / 128 - 128) / 128));
    [| simpl; Z.div_mod_to_equations; lia].
  destruct (Z.leb_spec 128 ((((x - 128) / 128 - 128) / 128 - 128) / 128));
    simpl; Z.div_mod_to_equations; lia.
Qed.

(** The bytes a run costs beyond its literals, and a match beyond... *)
Lemma run_size_bound run :
  0 <= run < 2 ^ 31 ->
  run + 1 <= run_size run <= run + 6
  /\ (run < 7 + 128 -> run_size run <= run + 2)
  /\ 16519 * (run_size run - run - 3) <= run.
Proof.
  intros Hr. unfold run_size. change (2 ^ 31) with 2147483648 in Hr.
  destruct (Z.leb_spec 7 run); [| lia].
  pose proof (varint_len_bounds (run - 7)).
  destruct (varint_len_classes (run - 7)) as (H1 & H3 & H4 & H5 & _);
    [change (2 ^ 32) with 4294967296; lia |].
  split; [lia |]. split; [intros; rewrite H1 by lia; lia |].
  destruct (Z.le_gt_cases 5 (varint_len (run - 7))); [specialize (H5 ltac:(lia)); lia |].
  destruct (Z.le_gt_cases 4 (varint_len (run - 7))); [specialize (H4 ltac:(lia)); lia |].
  destruct (Z.le_gt_cases 3 (varint_len (run - 7))); [specialize (H3 ltac:(lia)); lia |].
  lia.
Qed.

Lemma token_size_bound run bl :
  0 <= run < 2 ^ 31 -> MIN_MATCH <= bl -> (bl = MIN_MATCH -> run < 7 + 128) ->
  16519 * (token_size run bl - run - bl) <= run.
Proof.
  intros Hr Hbl Hsup. unfold token_size.
  destruct (run_size_bound run Hr) as (H1 & H2 & H3). unfold MIN_MATCH in *.
  destruct (Z.leb_spec 15 (bl - 4)).
  - pose proof (varint_len_bounds (bl - 4 - 15)). lia.
  - destruct (Z.eq_dec bl 4) as [-> | ?]; [specialize (H2 (Hsup eq_refl)); lia | lia].
Qed.

Lemma Compress_body_size inp in_len out level m0 st :
  blk inp <> blk out -> in_len < 2 ^ 31 ->
  enc_inv inp in_len out m0 st /\ size_inv out st -> c_p st < in_len ->
  (enc_inv inp in_len out m0 (Compress_body inp in_len level st)
   /\ size_inv out (Compress_body inp in_len level st))
  /\ c_p st < c_p (Compress_body inp in_len level st).
Proof.
  intros Hio Hn [Hinv [Hsz Hop]] Hlt.
  destruct (Compress_body_inv inp in_len out level m0 st Hio Hinv Hlt) as [Hinv' Hp'].
  split; [split; [exact Hinv' |] | exact Hp'].
  destruct (Compress_body_cases inp in_len out level m0 st Hinv Hlt)
    as [-> | (bl & d & -> & _ & Hbl & Hd & Hw & _ & Hsup)].
  - unfold emit_literal, size_inv. destruct (insert_hash _ _ _ _ _). simpl. lia.
  - destruct Hinv as (Hrun & Hp & Hblk & _).
    destruct (emit_match_spec inp st bl d) as (Hop' & Hr' & Hpp & _);
      [congruence | lia | lia | change WINDOW_SIZE with 131072 in Hw; lia |].
    unfold size_inv. rewrite Hop', Hr', Hpp. simpl off.
    pose proof (token_size_bound (c_run st) bl ltac:(lia) ltac:(lia) Hsup).
    assert (1 <= token_size (c_run st) bl)
      by (unfold token_size; destruct (run_size_bound (c_run st)) as [? _]; [lia |];
          destruct (15 <=? bl - MIN_MATCH);
          [pose proof (varint_len_bounds (bl - MIN_MATCH - 15)) |]; lia).
    unfold MIN_MATCH in *. lia.
Qed.

Lemma flush_tail_size inp st :
  blk (c_op st) <> blk inp -> 0 <= c_run st ->
  off (c_op (flush_tail inp st))
  = off (c_op st) + (if c_run st =? 0 then 0 else run_size (c_run st)).
Proof.
  intros Hb Hr. unfold flush_tail. destruct (Z.eqb_spec (c_run st) 0); cbn [negb].
  - lia.
  - destruct (emit_run_spec inp (c_mem st) (c_op st) (c_run st) (c_p st) 0 Hb Hr) as [Hp _];
      [lia |].
    destruct (emit_run inp (c_mem st) (c_op st) (c_run st) (c_p st) 0) as [m1 op1].
    cbn [fst snd c_op] in *. rewrite Hp. reflexivity.
Qed.

Lemma Compress_size inp n out level self m :
  blk inp <> blk out -> 0 <= n < 2 ^ 31 ->
  exists r m',
    Compress inp n out level self m = Some (r, m')
    /\ 0 <= r <= n + 3 + n / 16519
    /\ (n < 231266 -> r <= n + EXCESS).
Proof.
  intros Hio Hn. unfold Compress, Compress_run.
  destruct (Compress_loop_rule inp n level
              (fun st => enc_inv inp n out m st /\ size_inv out st)
              (fun st HI Hlt => Compress_body_size inp n out level m st Hio (proj2 Hn) HI Hlt)
              (Z.to_nat n) (Compress_init out self m))
    as (st & -> & [Hinv [Hsz Hop]] & Hend).
  - split; [apply Compress_init_inv; lia |]. unfold size_inv, Compress_init. simpl. lia.
  - unfold Compress_init. simpl c_p. lia.
  - destruct Hinv as (Hrun & Hp & Hblk & _).
    eexists _, _. split; [reflexivity |].
    rewrite flush_tail_size by (congruence || lia).
    assert (Hpn : c_p st = n) by lia.
    assert (Hgoal : 0 <= off (c_op st)
                    + (if c_run st =? 0 then 0 else run_size (c_run st)) - off out
                    <= n + 3 + n / 16519).
    { destruct (Z.eqb_spec (c_run st) 0).
      - Z.div_mod_to_equations; lia.
      - destruct (run_size_bound (c_run st)) as (H1 & _ & H3); [lia |].
        Z.div_mod_to_equations; lia. }
    split; [exact Hgoal |]. intros Hsmall. unfold EXCESS.
    assert (n / 16519 <= 13) by (Z.div_mod_to_equations; lia). lia.
Qed.



(** ** Decompress: one token *)

Lemma tag_split r t :
  0 <= r <= 7 -> 0 <= t < 32 ->
  let tag := Z.shiftl r 5 + t in
  0 <= tag < 256 /\ Z.shiftr tag 5 = r /\ Z.land tag 15 = t mod 16
  /\ Z.land tag 16 = 16 * (t / 16) /\ (32 <= tag <-> 1 <= r).
Proof.
  intros Hr Ht tag. subst tag. rewrite Z.shiftl_mul_pow2 by lia. change (2 ^ 5) with 32.
  assert (Hb : 0 <= r * 32 + t < 256) by lia.
  destruct (tag_fields _ Hb) as (H1 & H2 & H3). rewrite H1, H2, H3.
  split; [exact Hb |]. repeat split; try (Z.div_mod_to_equations; lia).
Qed.

Lemma match_tag_fields bl d :
  MIN_MATCH <= bl -> 0 <= d < 131072 ->
  match_tag bl d mod 16 = Z.min (bl - MIN_MATCH) 15
  /\ match_tag bl d / 16 = d / 65536.
Proof.
  intros Hb Hd. unfold match_tag. rewrite dist_bit by exact Hd.
  unfold MIN_MATCH in *. Z.div_mod_to_equations; lia.
Qed.

Lemma dist_roundtrip d :
  0 <= d < 131072 ->
  Z.shiftl (16 * (d / 65536)) 12
  + (Z.land d 255 + Z.shiftl (Z.land (Z.shiftr d 8) 255) 8) = d.
Proof.
  intros Hd. change 255 with (Z.ones 8). rewrite !Z.land_ones by lia.
  rewrite Z.shiftr_div_pow2, !Z.shiftl_mul_pow2 by lia.
  change (2 ^ 8) with 256. change (2 ^ 12) with 4096.
  Z.div_mod_to_equations; lia.
Qed.

Lemma run_bytes_hdr m inp a run tmp :
  run_bytes m inp a run tmp = run_hdr run tmp ++ in_bytes m inp a run.
Proof. reflexivity. Qed.

Lemma run_hdr_length run tmp :
  Z.of_nat (length (run_hdr run tmp)) = run_size run - run.
Proof.
  unfold run_hdr, run_size. cbn [length]. rewrite Nat2Z.inj_succ.
  destruct (7 <=? run); [fold (varint_len (run - 7)) |]; simpl; lia.
Qed.

(** The literal phase of a round, once the header of the run is known. *)
Lemma Decompress_body_run dinp dlen dout cap md ip op run t :
  bytes_at md ip (run_hdr run t) -> 1 <= run < 2 ^ 31 -> 0 <= t < 32 ->
  Decompress_body dinp dlen dout cap (DState md ip op) =
  let ip1 := ip .+ (run_size run - run) in
  if (off (op_end dout cap) - off op <? run) || (off (ip_end dinp dlen) - off ip1 <? run)
  then Corrupt md
  else
    let md1 := WildCopy md op ip1 run in
    if off (ip1 .+ run) >=? off (ip_end dinp dlen)
    then Break (DState md1 (ip1 .+ run) (op .+ run))
    else match_phase dout cap md1 (ip1 .+ run) (op .+ run)
           (Z.shiftl (Z.min run 7) 5 + t).
Proof.
  intros Hb Hr Ht. unfold run_hdr in Hb. apply bytes_at_cons in Hb. destruct Hb as [Htag Hv].
  unfold Decompress_body. cbn [d_mem d_ip d_op]. rewrite Htag.
  destruct (tag_split (Z.min run 7) t ltac:(lia) Ht) as (Hrng & Hsh & _ & _ & H32).
  cbv zeta in Hsh, H32, Hrng.
  destruct (Z.geb_spec (Z.shiftl (Z.min run 7) 5 + t) 32) as [_ | Hlow]; [| lia].
  rewrite Hsh. unfold run_size. change (2 ^ 31) with 2147483648 in Hr.
  destruct (Z.leb_spec 7 run) as [H7 | H7].
  - rewrite Z.min_r by lia. change (7 =? 7) with true. cbv iota.
    rewrite (DecodeMod_varint md (ip .+ 1) (run - 7)) by
      (change (2 ^ 32) with 4294967296; (lia || exact Hv)).
    rewrite u32_small by (change (2 ^ 32) with 4294967296; lia).
    replace (7 + (run - 7)) with run by lia.
    replace (ip .+ 1 .+ varint_len (run - 7))
      with (ip .+ (1 + varint_len (run - 7) + run - run)) by ptr_eq.
    reflexivity.
  - rewrite Z.min_l by lia. destruct (Z.eqb_spec run 7); [lia |].
    replace (ip .+ (1 + 0 + run - run)) with (ip .+ 1) by ptr_eq. reflexivity.
Qed.

Lemma Decompress_body_norun dinp dlen dout cap md ip op t :
  load8 md ip = t -> 0 <= t < 32 ->
  Decompress_body dinp dlen dout cap (DState md ip op)
  = match_phase dout cap md (ip .+ 1) op t.
Proof.
  intros Htag Ht. unfold Decompress_body. cbn [d_mem d_ip d_op]. rewrite Htag.
  destruct (Z.geb_spec t 32); [lia | reflexivity].
Qed.

Lemma match_bytes_ext bl d :
  match_bytes bl d = len_ext bl ++ [Z.land d 255; Z.land (Z.shiftr d 8) 255].
Proof. reflexivity. Qed.

(** The match phase of a round, once the length is known. *)
Lemma match_phase_len dout cap md ip op tag bl :
  bytes_at md ip (len_ext bl) -> MIN_MATCH <= bl < 2 ^ 31 ->
  Z.land tag 15 = Z.min (bl - MIN_MATCH) 15 ->
  match_phase dout cap md ip op tag =
  let ip2 := ip .+ Z.of_nat (length (len_ext bl)) in
  if off (op_end dout cap) - off op <? bl then Corrupt md
  else
    let dist := Z.shiftl (Z.land tag 16) 12 + UnalignedLoad16 md ip2 in
    if off op - off dout <? dist then Corrupt md
    else if dist >=? 4
         then Next (DState (WildCopy md op (op .+ (- dist)) bl) (ip2 .+ 2) (op .+ bl))
         else Next (DState (fst (byte_copy (Z.to_nat bl) md op (op .+ (- dist))))
                      (ip2 .+ 2) (snd (byte_copy (Z.to_nat bl) md op (op .+ (- dist))))).
Proof.
  intros Hb Hbl Htag. unfold match_phase, len_ext in *. rewrite Htag.
  unfold MIN_MATCH in *. change (2 ^ 31) with 2147483648 in Hbl.
  destruct (Z.leb_spec 15 (bl - 4)) as [Hlong | Hshort].
  - rewrite Z.min_r by lia. change (15 + 4 =? 15 + 4) with true. cbv iota.
    rewrite (DecodeMod_varint md ip (bl - 4 - 15)) by
      (change (2 ^ 32) with 4294967296; (lia || exact Hb)).
    rewrite u32_small by (change (2 ^ 32) with 4294967296; lia).
    replace (15 + 4 + (bl - 4 - 15)) with bl by lia.
    fold (varint_len (bl - 4 - 15)). cbv zeta.
    destruct (_ <? bl); [reflexivity |]. destruct (_ <? _); [reflexivity |].
    destruct (_ >=? 4); [reflexivity |].
    destruct (byte_copy _ _ _ _). reflexivity.
  - rewrite Z.min_l by lia. destruct (Z.eqb_spec (bl - 4 + 4) (15 + 4)); [lia |].
    replace (bl - 4 + 4) with bl by lia. simpl length. rewrite padd_0. cbv zeta.
    destruct (_ <? bl); [reflexivity |]. destruct (_ <? _); [reflexivity |].
    destruct (_ >=? 4); [reflexivity |].
    destruct (byte_copy _ _ _ _). reflexivity.
Qed.

Lemma byte_copy_lz m0 inp dout n : forall md a d,
  1 <= d <= a -> prefix_ok md dout m0 inp a ->
  matches m0 inp (a - d) a (Z.of_nat n) ->
  prefix_ok (fst (byte_copy n md (dout .+ a) (dout .+ a .+ (- d)))) dout m0 inp
    (a + Z.of_nat n).
Proof.
  induction n as [| n IH]; intros md a d Hd Hpre Hm.
  - simpl. rewrite Z.add_0_r. exact Hpre.
  - cbn [byte_copy].
    replace (dout .+ a .+ 1) with (dout .+ (a + 1)) by ptr_eq.
    replace (dout .+ a .+ - d .+ 1) with (dout .+ (a + 1) .+ (- d)) by ptr_eq.
    replace (a + Z.of_nat (S n)) with (a + 1 + Z.of_nat n) by lia.
    apply IH; [lia | |].
    + intros j Hj. destruct (Z.eq_dec j a) as [-> | Hne].
      * rewrite load8_store8_eq. rewrite land255_small by apply load8_range.
        replace (dout .+ a .+ - d) with (dout .+ (a - d)) by ptr_eq.
        rewrite Hpre by lia. specialize (Hm 0 ltac:(lia)).
        rewrite !Z.add_0_r in Hm. exact Hm.
      * rewrite load8_store8_ne by ptr_ne. apply Hpre. lia.
    + intros k Hk. specialize (Hm (k + 1) ltac:(lia)).
      replace (a + 1 - d + k) with (a - d + (k + 1)) by lia.
      replace (a + 1 + k) with (a + (k + 1)) by lia. exact Hm.
Qed.

Lemma decode_match m0 inp dinp dout cap md ip a bl d tag :
  blk dinp <> blk dout -> blk ip = blk dinp ->
  bytes_at md ip (match_bytes bl d) ->
  Z.land tag 15 = Z.min (bl - MIN_MATCH) 15 -> Z.land tag 16 = 16 * (d / 65536) ->
  prefix_ok md dout m0 inp a ->
  MIN_MATCH <= bl -> a + bl <= cap -> cap < 2 ^ 31 ->
  1 <= d <= a -> d < WINDOW_SIZE -> matches m0 inp (a - d) a bl ->
  exists md',
    match_phase dout cap md ip (dout .+ a) tag
    = Next (DState md' (ip .+ Z.of_nat (length (match_bytes bl d))) (dout .+ (a + bl)))
    /\ prefix_ok md' dout m0 inp (a + bl)
    /\ (forall q, blk q <> blk dout -> load8 md' q = load8 md q).
Proof.
  intros Hio Hip Hb Ht15 Ht16 Hpre Hbl Hcap Hc31 Hd Hw Hm.
  change WINDOW_SIZE with 131072 in Hw. change (2 ^ 31) with 2147483648 in Hc31.
  rewrite match_bytes_ext in Hb. apply bytes_at_app in Hb. destruct Hb as [Hb1 Hb2].
  rewrite (match_phase_len dout cap md ip (dout .+ a) tag bl Hb1)
    by (change (2 ^ 31) with 2147483648; (lia || exact Ht15)).
  cbv zeta. unfold op_end. simpl off.
  destruct (Z.ltb_spec (off dout + cap - (off dout + a)) bl); [lia |].
  assert (Hl16 : UnalignedLoad16 md (ip .+ Z.of_nat (length (len_ext bl)))
                 = Z.land d 255 + Z.shiftl (Z.land (Z.shiftr d 8) 255) 8).
  { unfold UnalignedLoad16. apply bytes_at_cons in Hb2. destruct Hb2 as [H0 Hb2].
    apply bytes_at_cons in Hb2. destruct Hb2 as [H1 _]. rewrite H0, H1. reflexivity. }
  rewrite Hl16, Ht16, dist_roundtrip by lia.
  destruct (Z.ltb_spec (off dout + a - off dout) d); [lia |].
  assert (Hlen : ip .+ Z.of_nat (length (len_ext bl)) .+ 2
                 = ip .+ Z.of_nat (length (match_bytes bl d)))
    by (rewrite match_bytes_ext, length_app; simpl length; ptr_eq).
  assert (Hlz : prefix_ok (fst (byte_copy (Z.to_nat bl) md (dout .+ a) (dout .+ a .+ (- d))))
                  dout m0 inp (a + bl)).
  { replace (a + bl) with (a + Z.of_nat (Z.to_nat bl)) by (unfold MIN_MATCH in *; lia).
    apply byte_copy_lz; [lia | exact Hpre |].
    replace (Z.of_nat (Z.to_nat bl)) with bl by (unfold MIN_MATCH in *; lia). exact Hm. }
  destruct (Z.geb_spec d 4) as [Hd4 | Hd4].
  - eexists. rewrite Hlen. replace (dout .+ a .+ bl) with (dout .+ (a + bl)) by ptr_eq.
    split; [reflexivity |]. split.
    + intros j Hj. rewrite WildCopy_prefix;
        [apply Hlz; exact Hj | right; left; simpl; lia | unfold MIN_MATCH in *; lia
        | simpl; lia].
    + intros q Hq. apply WildCopy_unchanged; [right; left; simpl; lia |].
      simpl. intros [? ?]. congruence.
  - eexists. rewrite Hlen. rewrite byte_copy_ptr.
    replace (dout .+ a .+ Z.of_nat (Z.to_nat bl)) with (dout .+ (a + bl))
      by (unfold MIN_MATCH in *; ptr_eq).
    split; [reflexivity |]. split; [exact Hlz |].
    intros q Hq. apply byte_copy_unchanged. simpl. intros [? ?]. congruence.
Qed.

Lemma WildCopy_literals m0 inp dinp dout md ip1 a run :
  blk dinp <> blk dout -> blk ip1 = blk dinp ->
  bytes_at md ip1 (in_bytes m0 inp a run) -> 0 <= run ->
  prefix_ok md dout m0 inp a ->
  prefix_ok (WildCopy md (dout .+ a) ip1 run) dout m0 inp (a + run)
  /\ (forall q, blk q <> blk dout -> load8 (WildCopy md (dout .+ a) ip1 run) q = load8 md q).
Proof.
  intros Hio Hip Hb Hr Hpre.
  assert (Hfs : forward_safe (dout .+ a) ip1 4) by (left; simpl; congruence).
  pose proof (wild_len_bounds run) as (_ & Hwl & _).
  split.
  - intros j Hj. destruct (Z.lt_ge_cases j a) as [Hlt | Hge].
    + rewrite WildCopy_unchanged by (exact Hfs || (simpl; lia)). apply Hpre. lia.
    + replace (dout .+ j) with (dout .+ a .+ (j - a)) by ptr_eq.
      rewrite WildCopy_cross by (simpl; (congruence || lia)).
      rewrite Hb by (rewrite in_bytes_length by exact Hr; lia).
      rewrite in_bytes_nth by lia. f_equal. ptr_eq.
  - intros q Hq. apply WildCopy_unchanged; [exact Hfs |]. simpl. intros [? ?]. congruence.
Qed.

(** One whole token: literals and match. *)
Lemma decode_token m0 inp dinp dlen dout cap md ip a run bl d :
  blk dinp <> blk dout -> blk ip = blk dinp ->
  bytes_at md ip (token_bytes m0 inp a run bl d) ->
  prefix_ok md dout m0 inp a ->
  0 <= a -> 0 <= run -> MIN_MATCH <= bl -> a + run + bl <= cap -> cap < 2 ^ 31 ->
  1 <= d <= a + run -> d < WINDOW_SIZE -> matches m0 inp (a + run - d) (a + run) bl ->
  off ip + token_size run bl <= off (ip_end dinp dlen) ->
  exists md',
    Decompress_body dinp dlen dout cap (DState md ip (dout .+ a))
    = Next (DState md' (ip .+ token_size run bl) (dout .+ (a + run + bl)))
    /\ prefix_ok md' dout m0 inp (a + run + bl)
    /\ (forall q, blk q <> blk dout -> load8 md' q = load8 md q).
Proof.
  intros Hio Hip Hb Hpre Ha Hr Hbl Hcap Hc31 Hd Hw Hm Hend.
  assert (Hd' : 0 <= d < 131072) by (change WINDOW_SIZE with 131072 in Hw; lia).
  pose proof (match_tag_range bl d Hbl Hd') as Htr.
  destruct (match_tag_fields bl d Hbl Hd') as [Hf15 Hf16].
  destruct (tag_split (Z.min run 7) (match_tag bl d) ltac:(lia) Htr)
    as (_ & _ & Ht15 & Ht16 & _). cbv zeta in Ht15, Ht16.
  rewrite Hf15 in Ht15. rewrite Hf16 in Ht16.
  unfold token_bytes in Hb. rewrite run_bytes_hdr in Hb.
  apply bytes_at_app in Hb. destruct Hb as [Hb Hbm].
  apply bytes_at_app in Hb. destruct Hb as [Hbh Hbl'].
  rewrite length_app, Nat2Z.inj_add, run_hdr_length, in_bytes_length in Hbm by exact Hr.
  rewrite run_hdr_length in Hbl'.
  replace (run_size run - run + run) with (run_size run) in Hbm by lia.
  pose proof (match_bytes_length bl d) as Hml.
  assert (Hts : token_size run bl = run_size run + Z.of_nat (length (match_bytes bl d)))
    by (unfold token_size; lia).
  assert (Hm2 : 2 <= Z.of_nat (length (match_bytes bl d)))
    by (rewrite Hml; destruct (15 <=? bl - MIN_MATCH);
        [pose proof (varint_len_bounds (bl - MIN_MATCH - 15)) |]; lia).
  clear Hml.
  assert (Hrs : 1 <= run_size run - run)
    by (rewrite <- (run_hdr_length run 0); unfold run_hdr; simpl length; lia).
  change (2 ^ 31) with 2147483648 in Hc31. unfold MIN_MATCH in Hbl.
  destruct (Z.eq_dec run 0) as [-> | Hr0].
  - (* no literals *)
    unfold run_hdr in Hbh. change (7 <=? 0) with false in Hbh.
    apply bytes_at_cons in Hbh. destruct Hbh as [Htag _].
    change (Z.shiftl (Z.min 0 7) 5) with 0 in *. rewrite Z.add_0_l in *.
    rewrite (Decompress_body_norun dinp dlen dout cap md ip (dout .+ a) _ Htag Htr).
    change (run_size 0) with 1 in *.
    destruct (decode_match m0 inp dinp dout cap md (ip .+ 1) a bl d (match_tag bl d))
      as (md' & He & Hp' & Hf'); try assumption; try lia.
    + rewrite Z.add_0_r in Hm. exact Hm.
    + exists md'. rewrite He. rewrite Hts, Z.add_0_r.
      replace (ip .+ 1 .+ Z.of_nat (length (match_bytes bl d)))
        with (ip .+ (1 + Z.of_nat (length (match_bytes bl d)))) by ptr_eq.
      split; [reflexivity |]. split; [exact Hp' | exact Hf'].
  - (* literals, then the match *)
    rewrite (Decompress_body_run dinp dlen dout cap md ip (dout .+ a) run (match_tag bl d) Hbh)
      by (change (2 ^ 31) with 2147483648; lia).
    cbv zeta. unfold op_end, ip_end in *. simpl off in *.
    destruct (Z.ltb_spec (off dout + cap - (off dout + a)) run); [lia |].
    destruct (Z.ltb_spec (off dinp + dlen - (off ip + (run_size run - run))) run); [lia |].
    cbn [orb]. destruct (Z.geb_spec (off ip + (run_size run - run) + run) (off dinp + dlen));
      [lia |].
    destruct (WildCopy_literals m0 inp dinp dout md (ip .+ (run_size run - run)) a run)
      as [Hp1 Hf1]; try assumption; try lia.
    replace (ip .+ (run_size run - run) .+ run) with (ip .+ run_size run) by ptr_eq.
    replace (dout .+ a .+ run) with (dout .+ (a + run)) by ptr_eq.
    destruct (decode_match m0 inp dinp dout cap
                (WildCopy md (dout .+ a) (ip .+ (run_size run - run)) run)
                (ip .+ run_size run) (a + run) bl d
                (Z.shiftl (Z.min run 7) 5 + match_tag bl d))
      as (md' & He & Hp' & Hf'); try assumption; try lia.
    + intros i Hi. rewrite Hf1 by (simpl; congruence). apply Hbm. exact Hi.
    + exists md'. rewrite He. rewrite Hts.
      replace (ip .+ run_size run .+ Z.of_nat (length (match_bytes bl d)))
        with (ip .+ (run_size run + Z.of_nat (length (match_bytes bl d)))) by ptr_eq.
      replace (a + run + bl) with (a + run + bl) by lia.
      split; [reflexivity |]. split; [exact Hp' |].
      intros q Hq. rewrite Hf' by exact Hq. apply Hf1. exact Hq.
Qed.

(** ** The token stream *)

Lemma toks_end_ge m0 inp toks : forall a, toks_ok m0 inp a toks -> a <= toks_end a toks.
Proof.
  induction toks as [| [[run bl] d] rest IH]; intros a Hok; cbn [toks_end]; [lia |].
  destruct Hok as (Hr & Hbl & _ & _ & _ & Hrest). specialize (IH _ Hrest).
  unfold MIN_MATCH in *. lia.
Qed.

Lemma toks_end_app t1 : forall a t2, toks_end a (t1 ++ t2) = toks_end (toks_end a t1) t2.
Proof.
  induction t1 as [| [[run bl] d] rest IH]; intros a t2; cbn [toks_end app]; [reflexivity |].
  apply IH.
Qed.

Lemma stream_bytes_app m0 inp t1 : forall a t2,
  stream_bytes m0 inp a (t1 ++ t2)
  = stream_bytes m0 inp a t1 ++ stream_bytes m0 inp (toks_end a t1) t2.
Proof.
  induction t1 as [| [[run bl] d] rest IH]; intros a t2; cbn [stream_bytes toks_end app];
    [reflexivity |].
  rewrite IH, app_assoc. reflexivity.
Qed.

Lemma toks_ok_app m0 inp t1 : forall a t2,
  toks_ok m0 inp a (t1 ++ t2) <-> toks_ok m0 inp a t1 /\ toks_ok m0 inp (toks_end a t1) t2.
Proof.
  induction t1 as [| [[run bl] d] rest IH]; intros a t2; cbn [toks_ok toks_end app];
    [tauto |].
  rewrite IH. tauto.
Qed.

Lemma token_size_pos run bl : 0 <= run -> 3 <= token_size run bl.
Proof.
  intros Hr. unfold token_size, run_size.
  destruct (7 <=? run); [pose proof (varint_len_bounds (run - 7)) |];
    (destruct (15 <=? bl - MIN_MATCH);
     [pose proof (varint_len_bounds (bl - MIN_MATCH - 15)) |]); lia.
Qed.

Lemma in_bytes_ext m m0 inp a n :
  (forall q, blk q = blk inp -> load8 m q = load8 m0 q) ->
  in_bytes m inp a n = in_bytes m0 inp a n.
Proof. intros H. unfold in_bytes. apply map_ext. intros i. apply H. reflexivity. Qed.

Lemma token_bytes_ext m m0 inp a run bl d :
  (forall q, blk q = blk inp -> load8 m q = load8 m0 q) ->
  token_bytes m inp a run bl d = token_bytes m0 inp a run bl d.
Proof. intros H. unfold token_bytes, run_bytes. rewrite (in_bytes_ext m m0) by exact H. reflexivity. Qed.

Lemma matches_ext m m0 inp s p len :
  (forall q, blk q = blk inp -> load8 m q = load8 m0 q) ->
  matches m inp s p len -> matches m0 inp s p len.
Proof. intros H Hm k Hk. rewrite <- !H by reflexivity. apply Hm. exact Hk. Qed.

(** *** Decoding a stream of tokens *)

Lemma decode_stream m0 inp dinp dlen dout cap :
  blk dinp <> blk dout -> cap < 2 ^ 31 ->
  forall toks a md ip fuel,
  blk ip = blk dinp -> 0 <= a ->
  toks_ok m0 inp a toks -> toks_end a toks <= cap ->
  bytes_at md ip (stream_bytes m0 inp a toks) ->
  prefix_ok md dout m0 inp a ->
  off ip + Z.of_nat (length (stream_bytes m0 inp a toks)) <= off (ip_end dinp dlen) ->
  off (ip_end dinp dlen) - off ip <= Z.of_nat fuel ->
  exists md' fuel',
    Decompress_loop dinp dlen dout cap fuel (DState md ip (dout .+ a))
    = Decompress_loop dinp dlen dout cap fuel'
        (DState md' (ip .+ Z.of_nat (length (stream_bytes m0 inp a toks)))
           (dout .+ toks_end a toks))
    /\ off (ip_end dinp dlen)
       - (off ip + Z.of_nat (length (stream_bytes m0 inp a toks))) <= Z.of_nat fuel'
    /\ prefix_ok md' dout m0 inp (toks_end a toks)
    /\ (forall q, blk q <> blk dout -> load8 md' q = load8 md q).
Proof.
  intros Hio Hcap. induction toks as [| [[run bl] d] rest IH];
    intros a md ip fuel Hip Ha Hok Hend Hb Hpre Hlen Hfuel.
  - exists md, fuel. cbn [stream_bytes toks_end length]. rewrite padd_0.
    split; [reflexivity |]. split; [simpl in *; lia |]. split; [exact Hpre | reflexivity].
  - cbn [stream_bytes toks_end toks_ok] in *.
    destruct Hok as (Hr & Hbl & Hd & Hw & Hm & Hrest).
    apply bytes_at_app in Hb. destruct Hb as [Hbt Hbr].
    rewrite length_app, Nat2Z.inj_add in Hlen |- *.
    rewrite token_bytes_length in * by exact Hr.
    pose proof (token_size_pos run bl Hr) as Hts.
    pose proof (toks_end_ge _ _ _ _ Hrest) as Hmono.
    destruct fuel as [| f]; [lia |].
    rewrite Decompress_loop_S. cbn [d_ip].
    destruct (Z.ltb_spec (off ip) (off (ip_end dinp dlen))); [| lia].
    destruct (decode_token m0 inp dinp dlen dout cap md ip a run bl d)
      as (md1 & He & Hp1 & Hf1); try assumption; try lia.
    rewrite He.
    assert (Hip' : blk (ip .+ token_size run bl) = blk dinp) by exact Hip.
    assert (Ha' : 0 <= a + run + bl) by (unfold MIN_MATCH in *; lia).
    assert (Hb1 : bytes_at md1 (ip .+ token_size run bl)
                    (stream_bytes m0 inp (a + run + bl) rest))
      by (intros i Hi; rewrite Hf1 by (simpl; congruence); apply Hbr; exact Hi).
    assert (Hlen' : off (ip .+ token_size run bl)
                    + Z.of_nat (length (stream_bytes m0 inp (a + run + bl) rest))
                    <= off (ip_end dinp dlen)) by (cbn [off padd]; lia).
    assert (Hfuel' : off (ip_end dinp dlen) - off (ip .+ token_size run bl) <= Z.of_nat f)
      by (cbn [off padd]; lia).
    destruct (IH (a + run + bl) md1 (ip .+ token_size run bl) f
                Hip' Ha' Hrest Hend Hb1 Hp1 Hlen' Hfuel')
      as (md' & fuel' & He' & Hfuel'' & Hp' & Hf').
    exists md', fuel'. rewrite He'. rewrite padd_padd.
    split; [reflexivity |]. split; [cbn [off padd] in Hfuel''; lia |].
    split; [exact Hp' |]. intros q Hq. rewrite Hf' by exact Hq. apply Hf1. exact Hq.
Qed.

(** The literals left at the end: the loop leaves by [break]. *)
Lemma decode_tail m0 inp dinp dlen dout cap md ip a run f :
  blk dinp <> blk dout -> blk ip = blk dinp ->
  bytes_at md ip (run_bytes m0 inp a run 0) -> 0 <= a -> 1 <= run -> a + run <= cap ->
  cap < 2 ^ 31 ->
  prefix_ok md dout m0 inp a ->
  off ip + run_size run = off (ip_end dinp dlen) ->
  exists md',
    Decompress_loop dinp dlen dout cap (S f) (DState md ip (dout .+ a)) = Some (a + run, md')
    /\ prefix_ok md' dout m0 inp (a + run).
Proof.
  intros Hio Hip Hb Ha Hr Hcap Hc31 Hpre Hend.
  rewrite run_bytes_hdr in Hb. apply bytes_at_app in Hb. destruct Hb as [Hbh Hbl].
  rewrite run_hdr_length in Hbl.
  assert (Hrs : 1 <= run_size run - run)
    by (rewrite <- (run_hdr_length run 0); unfold run_hdr; simpl length; lia).
  rewrite Decompress_loop_S. cbn [d_ip].
  destruct (Z.ltb_spec (off ip) (off (ip_end dinp dlen))); [| lia].
  rewrite (Decompress_body_run dinp dlen dout cap md ip (dout .+ a) run 0 Hbh)
    by (change (2 ^ 31) with 2147483648 in *; lia).
  cbv zeta. unfold op_end, ip_end in *. simpl off in *.
  destruct (Z.ltb_spec (off dout + cap - (off dout + a)) run); [lia |].
  destruct (Z.ltb_spec (off dinp + dlen - (off ip + (run_size run - run))) run); [lia |].
  cbn [orb]. destruct (Z.geb_spec (off ip + (run_size run - run) + run) (off dinp + dlen));
    [| lia].
  destruct (WildCopy_literals m0 inp dinp dout md (ip .+ (run_size run - run)) a run)
    as [Hp1 _]; try assumption; try lia.
  eexists. split; [| exact Hp1].
  unfold Decompress_return. cbn [d_ip d_op d_mem]. unfold ip_end. simpl off.
  destruct (Z.eqb_spec (off ip + (run_size run - run) + run) (off dinp + dlen)); [| lia].
  f_equal. f_equal. lia.
Qed.

(** *** The encoder writes a stream of tokens *)

Lemma Compress_body_stream inp in_len out level m0 st :
  blk inp <> blk out -> in_len < 2 ^ 31 ->
  enc_inv inp in_len out m0 st /\ stream_inv m0 inp out st -> c_p st < in_len ->
  (enc_inv inp in_len out m0 (Compress_body inp in_len level st)
   /\ stream_inv m0 inp out (Compress_body inp in_len level st))
  /\ c_p st < c_p (Compress_body inp in_len level st).
Proof.
  intros Hio Hn [Hinv (toks & Hok & Hend & Hb & Hlen)] Hlt.
  destruct (Compress_body_inv inp in_len out level m0 st Hio Hinv Hlt) as [Hinv' Hp'].
  split; [split; [exact Hinv' |] | exact Hp'].
  destruct (Compress_body_cases inp in_len out level m0 st Hinv Hlt)
    as [-> | (bl & d & -> & _ & Hbl & Hd & Hw & Hm & _)].
  - exists toks. unfold emit_literal. destruct (insert_hash _ _ _ _ _).
    cbn [c_mem c_op c_p c_run]. split; [exact Hok |]. split; [lia |]. split; assumption.
  - destruct Hinv as (Hrun & Hp & Hblk & Hmem & _).
    destruct (emit_match_spec inp st bl d) as (Hop' & Hr' & Hpp & Hbt & Hu & _);
      [congruence | lia | lia | change WINDOW_SIZE with 131072 in Hw; lia |].
    assert (Hin : forall q, blk q = blk inp -> load8 (c_mem st) q = load8 m0 q)
      by (intros q Hq; apply Hmem; congruence).
    exists (toks ++ [(c_run st, bl, d)]).
    rewrite toks_ok_app, toks_end_app, stream_bytes_app, Hend.
    cbn [toks_ok toks_end stream_bytes]. rewrite app_nil_r.
    replace (c_p st - c_run st + c_run st) with (c_p st) by lia.
    split; [| split; [| split]].
    + split; [exact Hok |]. repeat split; try lia.
      eapply matches_ext; [exact Hin | exact Hm].
    + rewrite Hpp, Hr'. lia.
    + apply bytes_at_app. split.
      * eapply bytes_at_unchanged; [exact Hb | exact Hu |]. right. left. lia.
      * replace (out .+ Z.of_nat (length (stream_bytes m0 inp 0 toks))) with (c_op st)
          by (apply ptr_ext; simpl; [exact Hblk | lia]).
        rewrite <- (token_bytes_ext (c_mem st) m0) by exact Hin. exact Hbt.
    + rewrite Hop'. rewrite length_app, Nat2Z.inj_add, token_bytes_length by lia.
      simpl off. lia.
Qed.

Lemma Compress_stream inp n out level self m0 :
  blk inp <> blk out -> 0 <= n < 2 ^ 31 ->
  exists r m1 toks run,
    Compress inp n out level self m0 = Some (r, m1)
    /\ 0 <= run /\ toks_ok m0 inp 0 toks /\ toks_end 0 toks = n - run
    /\ bytes_at m1 out (stream_bytes m0 inp 0 toks ++ tail_bytes m0 inp (n - run) run)
    /\ r = Z.of_nat (length (stream_bytes m0 inp 0 toks ++ tail_bytes m0 inp (n - run) run)).
Proof.
  intros Hio Hn. unfold Compress, Compress_run.
  destruct (Compress_loop_rule inp n level
              (fun st => enc_inv inp n out m0 st /\ stream_inv m0 inp out st)
              (fun st HI Hlt => Compress_body_stream inp n out level m0 st Hio (proj2 Hn) HI Hlt)
              (Z.to_nat n) (Compress_init out self m0))
    as (st & -> & [Hinv (toks & Hok & Hend & Hb & Hlen)] & Hfin).
  - split; [apply Compress_init_inv; lia |]. exists []. unfold Compress_init. simpl.
    split; [exact I |]. split; [reflexivity |]. split; [apply bytes_at_nil | lia].
  - unfold Compress_init. simpl c_p. lia.
  - destruct Hinv as (Hrun & Hp & Hblk & Hmem & _).
    assert (Hpn : c_p st = n) by lia.
    assert (Hin : forall q, blk q = blk inp -> load8 (c_mem st) q = load8 m0 q)
      by (intros q Hq; apply Hmem; congruence).
    eexists _, _, toks, (c_run st). split; [reflexivity |].
    split; [lia |]. split; [exact Hok |]. split; [lia |].
    unfold flush_tail, tail_bytes. destruct (Z.eqb_spec (c_run st) 0) as [Hr0 | Hr0]; cbn [negb].
    + rewrite app_nil_r. split; [exact Hb | lia].
    + destruct (emit_run_spec inp (c_mem st) (c_op st) (c_run st) (c_p st) 0)
        as (Hp1 & Hb1 & Hu1); [congruence | lia | lia |].
      destruct (emit_run inp (c_mem st) (c_op st) (c_run st) (c_p st) 0) as [m1 op1].
      cbn [fst snd c_mem c_op] in *. subst op1.
      rewrite length_app, Nat2Z.inj_add, run_bytes_length by lia.
      split; [| simpl off; lia].
      apply bytes_at_app. split.
      * eapply bytes_at_unchanged; [exact Hb | exact Hu1 |]. right. left. lia.
      * replace (out .+ Z.of_nat (length (stream_bytes m0 inp 0 toks))) with (c_op st)
          by (apply ptr_ext; simpl; [exact Hblk | lia]).
        unfold run_bytes in *. rewrite <- (in_bytes_ext (c_mem st) m0) by exact Hin.
        rewrite <- Hpn. exact Hb1.
Qed.

Lemma Decompress_loop_done dinp dlen dout cap fuel st :
  off (ip_end dinp dlen) <= off (d_ip st) ->
  Decompress_loop dinp dlen dout cap fuel st = Some (Decompress_return dinp dlen dout st).
Proof.
  intros H. destruct fuel; cbn [Decompress_loop];
    destruct (Z.ltb_spec (off (d_ip st)) (off (ip_end dinp dlen))); (lia || reflexivity).
Qed.

Lemma Decompress_stream m0 inp dinp dout n md toks run :
  blk dinp <> blk dout -> 0 <= n < 2 ^ 31 -> 0 <= run ->
  toks_ok m0 inp 0 toks -> toks_end 0 toks = n - run ->
  bytes_at md dinp (stream_bytes m0 inp 0 toks ++ tail_bytes m0 inp (n - run) run) ->
  exists md',
    Decompress dinp
      (Z.of_nat (length (stream_bytes m0 inp 0 toks ++ tail_bytes m0 inp (n - run) run)))
      dout n md = Some (n, md')
    /\ prefix_ok md' dout m0 inp n.
Proof.
  intros Hio Hn Hrun Hok Hend Hb. unfold Decompress.
  pose proof (toks_end_ge m0 inp toks 0 Hok) as Hge. rewrite Hend in Hge.
  apply bytes_at_app in Hb. destruct Hb as [Hbs Hbt].
  rewrite length_app, Nat2Z.inj_add.
  set (L := Z.of_nat (length (stream_bytes m0 inp 0 toks))) in *.
  set (Lt := Z.of_nat (length (tail_bytes m0 inp (n - run) run))).
  assert (HLt : 0 <= Lt) by (subst Lt; lia).
  destruct (decode_stream m0 inp dinp (L + Lt) dout n Hio (proj2 Hn) toks 0 md dinp
              (Z.to_nat (L + Lt)))
    as (md1 & fuel' & He & Hfuel & Hp1 & Hf1); try assumption; try reflexivity; try lia.
  - intros j Hj. lia.
  - fold L. unfold ip_end. simpl off. lia.
  - unfold ip_end. simpl off. lia.
  - rewrite (padd_0 dout) in He. rewrite He.
    fold L in Hfuel |- *. unfold ip_end in Hfuel. simpl off in Hfuel.
    rewrite Hend in *. unfold tail_bytes in *.
    destruct (Z.eqb_spec run 0) as [-> | Hr0].
    + rewrite Decompress_loop_done by (unfold ip_end; subst Lt; simpl; lia).
      unfold Decompress_return. cbn [d_ip d_op d_mem]. unfold ip_end. simpl off.
      exists md1. subst Lt. simpl length. 
      destruct (Z.eqb_spec (off dinp + L) (off dinp + (L + Z.of_nat 0))); [| lia].
      rewrite Z.sub_0_r in *. split; [f_equal; f_equal; lia | exact Hp1].
    + assert (HLt' : Lt = run_size run) by (subst Lt; apply run_bytes_length; lia).
      assert (Hrs : 1 <= run_size run) by (unfold run_size; destruct (7 <=? run);
        [pose proof (varint_len_bounds (run - 7)) |]; lia).
      destruct fuel' as [| f]; [lia |].
      destruct (decode_tail m0 inp dinp (L + Lt) dout n md1 (dinp .+ L) (n - run) run f)
        as (md' & He' & Hp'); try assumption; try reflexivity; try lia.
      * intros i Hi. rewrite Hf1 by (simpl; congruence). apply Hbt. exact Hi.
      * unfold ip_end. simpl off. lia.
      * exists md'. rewrite He'. replace (n - run + run) with n in * by lia.
        split; [reflexivity | exact Hp'].
Qed.

Lemma to_u8_inj x y : 0 <= x < 256 -> 0 <= y < 256 -> to_u8 x = to_u8 y -> x = y.
Proof.
  intros Hx Hy H. apply (f_equal u8) in H. rewrite !u8_to_u8 in H.
  rewrite !land255_small in H by assumption. exact H.
Qed.

Lemma read_bytes_load n : forall m1 p m2 q,
  read_bytes m1 p n = read_bytes m2 q n <->
  (forall i, 0 <= i < Z.of_nat n -> load8 m1 (p .+ i) = load8 m2 (q .+ i)).
Proof.
  induction n as [| n IH]; intros m1 p m2 q.
  - simpl. split; [intros _ i Hi; lia | reflexivity].
  - cbn [read_bytes]. split.
    + intros H. injection H as H0 Hr. apply to_u8_inj in H0; try apply load8_range.
      pose proof (proj1 (IH _ _ _ _) Hr) as Hr'.
      intros i Hi. destruct (Z.eq_dec i 0) as [-> | Hne].
      * rewrite !padd_0. exact H0.
      * replace i with (1 + (i - 1)) by lia. rewrite <- !padd_padd. apply Hr'. lia.
    + intros H. f_equal.
      * specialize (H 0 ltac:(lia)). rewrite !padd_0 in H. rewrite H. reflexivity.
      * apply IH. intros i Hi. rewrite !padd_padd. apply H. lia.
Qed.

Lemma bytes_at_transfer mc out md dinp l1 l2 k :
  bytes_at mc out (l1 ++ l2) ->
  (forall i, 0 <= i < k -> load8 md (dinp .+ i) = load8 mc (out .+ i)) ->
  Z.of_nat (length l1) <= k ->
  bytes_at md dinp l1.
Proof.
  intros Hb He Hk i Hi. rewrite He by lia.
  rewrite Hb by (rewrite length_app; lia). apply app_nth1. lia.
Qed.

(** C1.  Round trip: for an input of [n] bytes (short enough for the
    returned length to fit an [int]) and every level from 1 to 9, [Compress]
    returns a length [r], and [Decompress], given the [r] compressed bytes
    in any buffer and the capacity [n], returns [n] and leaves the [n] input
    bytes in its output buffer. *)
Theorem Compress_Decompress_roundtrip
    (inp : ptr) (n : Z) (out : ptr) (level : Z) (self : CULZ) (m : memory)
    (dinp dout : ptr) :
  blk inp <> blk out -> blk dinp <> blk dout ->
  0 <= n <= 2147221504 -> 1 <= level <= 9 ->
  exists r mc,
    Compress inp n out level self m = Some (r, mc)
    /\ 0 <= r < 2 ^ 31
    /\ forall md,
         read_bytes md dinp (Z.to_nat r) = read_bytes mc out (Z.to_nat r) ->
         exists md',
           Decompress dinp r dout n md = Some (n, md')
           /\ read_bytes md' dout (Z.to_nat n) = read_bytes m inp (Z.to_nat n).
Proof.
  intros Hio Hdio Hn _.
  assert (Hn' : 0 <= n < 2 ^ 31) by (change (2 ^ 31) with 2147483648; lia).
  destruct (Compress_stream inp n out level self m Hio Hn')
    as (r & mc & toks & run & Hc & Hrun & Hok & Hend & Hb & Hr).
  destruct (Compress_size inp n out level self m Hio Hn') as (r' & mc' & Hc' & Hsz & _).
  rewrite Hc in Hc'. injection Hc' as <- <-.
  exists r, mc. split; [exact Hc |]. split.
  - change (2 ^ 31) with 2147483648. assert (n / 16519 <= 129985) by (Z.div_mod_to_equations; lia).
    lia.
  - intros md Hmd. rewrite read_bytes_load in Hmd.
    assert (Hbd : bytes_at md dinp
                    (stream_bytes m inp 0 toks ++ tail_bytes m inp (n - run) run)).
    { apply (bytes_at_transfer mc out md dinp _ [] r);
        [rewrite app_nil_r; exact Hb | intros i Hi; apply Hmd; lia | lia]. }
    destruct (Decompress_stream m inp dinp dout n md toks run Hdio Hn' Hrun Hok Hend Hbd)
      as (md' & Hd & Hp).
    exists md'. rewrite Hr. split; [exact Hd |].
    apply read_bytes_load. intros i Hi. apply Hp. lia.
Qed.

Lemma Compress_Decompress_roundtrip_witness :
  exists r mc,
    Compress pin 3 pout 4 fresh (store_bytes empty_memory pin [x61; x62; x63]) = Some (r, mc)
    /\ 0 <= r < 2 ^ 31
    /\ forall md,
         read_bytes md pin (Z.to_nat r) = read_bytes mc pout (Z.to_nat r) ->
         exists md',
           Decompress pin r pout 3 md = Some (3, md')
           /\ read_bytes md' pout (Z.to_nat 3)
              = read_bytes (store_bytes empty_memory pin [x61; x62; x63]) pin (Z.to_nat 3).
Proof.
  apply (Compress_Decompress_roundtrip pin 3 pout 4 fresh
           (store_bytes empty_memory pin [x61; x62; x63]) pin pout).
  - discriminate.
  - discriminate.
  - lia.
  - lia.
Defined.

(** ** A stream without its last byte *)

Lemma match_phase_outcome dout cap md ip op tag bl :
  bytes_at md ip (len_ext bl) -> MIN_MATCH <= bl < 2 ^ 31 ->
  Z.land tag 15 = Z.min (bl - MIN_MATCH) 15 ->
  match_phase dout cap md ip op tag = Corrupt md
  \/ exists md' op',
       match_phase dout cap md ip op tag
       = Next (DState md' (ip .+ (Z.of_nat (length (len_ext bl)) + 2)) op').
Proof.
  intros Hb Hbl Ht. rewrite (match_phase_len dout cap md ip op tag bl Hb Hbl Ht). cbv zeta.
  destruct (_ <? bl); [left; reflexivity |].
  destruct (_ <? _); [left; reflexivity |].
  rewrite padd_padd. destruct (_ >=? 4); right; eexists _, _; reflexivity.
Qed.

Lemma truncated_tail dinp dlen dout cap md ip a run f :
  bytes_at md ip (run_hdr run 0) -> 0 <= a -> 1 <= run -> a + run <= cap -> cap < 2 ^ 31 ->
  off ip + run_size run = off (ip_end dinp dlen) + 1 ->
  exists md',
    Decompress_loop dinp dlen dout cap (S f) (DState md ip (dout .+ a)) = Some (-1, md').
Proof.
  intros Hbh Ha Hr Hcap Hc31 Hend.
  assert (Hrs : 1 <= run_size run - run)
    by (rewrite <- (run_hdr_length run 0); unfold run_hdr; simpl length; lia).
  rewrite Decompress_loop_S. cbn [d_ip].
  destruct (Z.ltb_spec (off ip) (off (ip_end dinp dlen))); [| lia].
  rewrite (Decompress_body_run dinp dlen dout cap md ip (dout .+ a) run 0 Hbh)
    by (change (2 ^ 31) with 2147483648 in *; lia).
  cbv zeta. unfold op_end, ip_end in *. simpl off in *.
  destruct (Z.ltb_spec (off dinp + dlen - (off ip + (run_size run - run))) run); [| lia].
  rewrite orb_true_r. eexists. reflexivity.
Qed.

Lemma truncated_token m0 inp dinp dlen dout cap md ip a rl bl d f :
  blk dinp <> blk dout -> blk ip = blk dinp ->
  bytes_at md ip (run_hdr rl (match_tag bl d) ++ in_bytes m0 inp a rl ++ len_ext bl) ->
  0 <= a -> 0 <= rl -> MIN_MATCH <= bl -> a + rl + bl <= cap -> cap < 2 ^ 31 ->
  0 <= d < 131072 ->
  off ip + token_size rl bl = off (ip_end dinp dlen) + 1 ->
  exists md',
    Decompress_loop dinp dlen dout cap (S f) (DState md ip (dout .+ a)) = Some (-1, md').
Proof.
  intros Hio Hip Hb Ha Hr Hbl Hcap Hc31 Hd Hend.
  pose proof (match_tag_range bl d Hbl Hd) as Htr.
  destruct (match_tag_fields bl d Hbl Hd) as [Hf15 _].
  destruct (tag_split (Z.min rl 7) (match_tag bl d) ltac:(lia) Htr)
    as (_ & _ & Ht15 & _ & _). cbv zeta in Ht15. rewrite Hf15 in Ht15.
  apply bytes_at_app in Hb. destruct Hb as [Hbh Hb].
  apply bytes_at_app in Hb. destruct Hb as [_ Hbe].
  rewrite run_hdr_length in Hbe. rewrite in_bytes_length in Hbe by exact Hr.
  rewrite padd_padd in Hbe.
  replace (run_size rl - rl + rl) with (run_size rl) in Hbe by lia.
  assert (Hrs : 1 <= run_size rl - rl)
    by (rewrite <- (run_hdr_length rl 0); unfold run_hdr; simpl length; lia).
  assert (Hts : token_size rl bl = run_size rl + Z.of_nat (length (len_ext bl)) + 2).
  { unfold token_size, len_ext. destruct (15 <=? bl - MIN_MATCH);
      [fold (varint_len (bl - MIN_MATCH - 15)) | simpl]; lia. }
  change (2 ^ 31) with 2147483648 in Hc31.
  assert (Hbl31 : MIN_MATCH <= bl < 2 ^ 31)
    by (change (2 ^ 31) with 2147483648; unfold MIN_MATCH in *; lia).
  rewrite Decompress_loop_S. cbn [d_ip]. unfold ip_end in *. simpl off in *.
  destruct (Z.ltb_spec (off ip) (off dinp + dlen)); [| lia].
  assert (Hfin : forall md' op' tag,
            Z.land tag 15 = Z.min (bl - MIN_MATCH) 15 ->
            bytes_at md' (ip .+ run_size rl) (len_ext bl) ->
            exists md'',
              match match_phase dout cap md' (ip .+ run_size rl) op' tag with
              | Next st' => Decompress_loop dinp dlen dout cap f st'
              | Break st' => Some (Decompress_return dinp dlen dout st')
              | Corrupt m => Some (-1, m)
              end = Some (-1, md'')).
  { intros md' op' tag Htag Hbe'.
    destruct (match_phase_outcome dout cap md' (ip .+ run_size rl) op' tag bl Hbe' Hbl31 Htag)
      as [-> | (md'' & op'' & ->)]; [eexists; reflexivity |].
    rewrite Decompress_loop_done by (cbn [d_ip]; unfold ip_end; simpl off; lia).
    unfold Decompress_return. cbn [d_ip d_mem d_op]. unfold ip_end. simpl off.
    destruct (Z.eqb_spec (off ip + run_size rl + (Z.of_nat (length (len_ext bl)) + 2))
                (off dinp + dlen)); [lia |].
    eexists. reflexivity. }
  destruct (Z.eq_dec rl 0) as [-> | Hr0].
  - unfold run_hdr in Hbh. apply bytes_at_cons in Hbh. destruct Hbh as [Htag _].
    change (Z.shiftl (Z.min 0 7) 5) with 0 in *. rewrite Z.add_0_l in *.
    rewrite (Decompress_body_norun dinp dlen dout cap md ip (dout .+ a) _ Htag Htr).
    change (run_size 0) with 1 in *. apply Hfin; assumption.
  - rewrite (Decompress_body_run dinp dlen dout cap md ip (dout .+ a) rl (match_tag bl d) Hbh)
      by (change (2 ^ 31) with 2147483648; unfold MIN_MATCH in *; lia).
    cbv zeta. unfold op_end, ip_end. simpl off. unfold MIN_MATCH in Hbl.
    destruct (Z.ltb_spec (off dout + cap - (off dout + a)) rl); [lia |].
    destruct (Z.ltb_spec (off dinp + dlen - (off ip + (run_size rl - rl))) rl); [lia |].
    cbn [orb]. destruct (Z.geb_spec (off ip + (run_size rl - rl) + rl) (off dinp + dlen));
      [lia |].
    replace (ip .+ (run_size rl - rl) .+ rl) with (ip .+ run_size rl) by ptr_eq.
    apply Hfin; [exact Ht15 |].
    intros i Hi. rewrite WildCopy_unchanged;
      [apply Hbe; exact Hi | left; simpl; congruence | simpl; intros [? ?]; congruence].
Qed.

Lemma toks_last (toks : list (Z * Z * Z)) :
  toks <> [] -> exists toks' t, toks = toks' ++ [t].
Proof.
  intros H. destruct (exists_last H) as (l & t & ->). exists l, t. reflexivity.
Qed.

(** C8.  For an input of at least one byte, [Decompress] rejects the
    output of [Compress] without its last byte: whatever lies behind the
    [r - 1] bytes it is given, it returns -1. *)
Theorem Decompress_rejects_truncated
    (inp : ptr) (n : Z) (out : ptr) (level : Z) (self : CULZ) (m : memory)
    (dinp dout : ptr) :
  blk inp <> blk out -> blk dinp <> blk dout ->
  1 <= n <= 2147221504 -> 1 <= level <= 9 ->
  exists r mc,
    Compress inp n out level self m = Some (r, mc)
    /\ 1 <= r
    /\ forall md,
         read_bytes md dinp (Z.to_nat (r - 1)) = read_bytes mc out (Z.to_nat (r - 1)) ->
         exists md', Decompress dinp (r - 1) dout n md = Some (-1, md').
Proof.
  intros Hio Hdio Hn _.
  assert (Hn' : 0 <= n < 2 ^ 31) by (change (2 ^ 31) with 2147483648; lia).
  destruct (Compress_stream inp n out level self m Hio Hn')
    as (r & mc & toks & run & Hc & Hrun & Hok & Hend & Hb & Hr).
  pose proof (toks_end_ge m inp toks 0 Hok) as Hge. rewrite Hend in Hge.
  exists r, mc. split; [exact Hc |].
  unfold tail_bytes in *. destruct (Z.eqb_spec run 0) as [-> | Hr0].
  - (* the stream ends with a match *)
    rewrite app_nil_r in *. rewrite Z.sub_0_r in *.
    assert (Hne : toks <> []) by (intros ->; simpl in Hend; lia).
    destruct (toks_last toks Hne) as (toks' & [[rl bl] d] & ->).
    rewrite toks_ok_app in Hok. destruct Hok as [Hok' Hlast].
    rewrite toks_end_app in Hend. rewrite stream_bytes_app in Hb, Hr.
    cbn [toks_ok toks_end stream_bytes] in *. rewrite app_nil_r in *.
    destruct Hlast as (Hrl & Hbl & Hd & Hw & _ & _).
    set (a := toks_end 0 toks') in *.
    pose proof (toks_end_ge m inp toks' 0 Hok') as Ha. fold a in Ha.
    rewrite length_app, Nat2Z.inj_add, token_bytes_length in Hr by exact Hrl.
    pose proof (token_size_pos rl bl Hrl) as Hts.
    split; [lia |]. intros md Hmd. rewrite read_bytes_load in Hmd.
    assert (Hsplit : token_bytes m inp a rl bl d
                     = (run_hdr rl (match_tag bl d) ++ in_bytes m inp a rl ++ len_ext bl)
                       ++ [Z.land d 255; Z.land (Z.shiftr d 8) 255]).
    { unfold token_bytes. rewrite run_bytes_hdr, match_bytes_ext.
      rewrite <- !app_assoc. reflexivity. }
    assert (Hlen2 : Z.of_nat (length (run_hdr rl (match_tag bl d) ++ in_bytes m inp a rl
                                        ++ len_ext bl)) = token_size rl bl - 2).
    { rewrite <- (token_bytes_length m inp a rl bl d) by exact Hrl.
      rewrite Hsplit, (length_app _ [_; _]). simpl length. lia. }
    assert (Hbd : bytes_at md dinp
                    (stream_bytes m inp 0 toks'
                     ++ (run_hdr rl (match_tag bl d) ++ in_bytes m inp a rl ++ len_ext bl))).
    { apply (bytes_at_transfer mc out md dinp _
               [Z.land d 255; Z.land (Z.shiftr d 8) 255] (r - 1)).
      - rewrite <- app_assoc, <- Hsplit. exact Hb.
      - intros i Hi. apply Hmd. lia.
      - rewrite length_app, Nat2Z.inj_add, Hlen2. lia. }
    apply bytes_at_app in Hbd. destruct Hbd as [Hbs Hbt].
    unfold Decompress.
    destruct (decode_stream m inp dinp (r - 1) dout n Hdio (proj2 Hn') toks' 0 md dinp
                (Z.to_nat (r - 1)))
      as (md1 & fuel' & He & Hfuel & Hp1 & Hf1);
      try assumption; try reflexivity; try lia.
    + fold a. unfold MIN_MATCH in *. lia.
    + intros j Hj. lia.
    + unfold ip_end. simpl off. lia.
    + unfold ip_end. simpl off. lia.
    + rewrite (padd_0 dout) in He. rewrite He. fold a.
      unfold ip_end in Hfuel. simpl off in Hfuel.
      destruct fuel' as [| f]; [lia |].
      apply (truncated_token m inp dinp (r - 1) dout n md1 _ a rl bl d f);
        try assumption; try reflexivity; try lia.
      * intros i Hi. rewrite Hf1 by (simpl; congruence). apply Hbt. exact Hi.
      * change WINDOW_SIZE with 131072 in Hw. lia.
      * unfold ip_end. simpl off. lia.
  - (* the stream ends with literals *)
    rewrite length_app, Nat2Z.inj_add, run_bytes_length in Hr by lia.
    assert (Hrs : run + 1 <= run_size run)
      by (unfold run_size; destruct (7 <=? run);
          [pose proof (varint_len_bounds (run - 7)) |]; lia).
    split; [lia |]. intros md Hmd. rewrite read_bytes_load in Hmd.
    rewrite run_bytes_hdr in Hb.
    assert (Hbd : bytes_at md dinp (stream_bytes m inp 0 toks ++ run_hdr run 0)).
    { apply (bytes_at_transfer mc out md dinp _ (in_bytes m inp (n - run) run) (r - 1)).
      - rewrite <- app_assoc. exact Hb.
      - intros i Hi. apply Hmd. lia.
      - rewrite length_app, Nat2Z.inj_add, run_hdr_length. lia. }
    apply bytes_at_app in Hbd. destruct Hbd as [Hbs Hbt].
    unfold Decompress.
    destruct (decode_stream m inp dinp (r - 1) dout n Hdio (proj2 Hn') toks 0 md dinp
                (Z.to_nat (r - 1)))
      as (md1 & fuel' & He & Hfuel & Hp1 & Hf1);
      try assumption; try reflexivity; try lia.
    + intros j Hj. lia.
    + unfold ip_end. simpl off. lia.
    + unfold ip_end. simpl off. lia.
    + rewrite (padd_0 dout) in He. rewrite He. rewrite Hend.
      unfold ip_end in Hfuel. simpl off in Hfuel.
      destruct fuel' as [| f]; [lia |].
      apply (truncated_tail dinp (r - 1) dout n md1 _ (n - run) run f);
        try assumption; try lia.
      * intros i Hi. rewrite Hf1 by (simpl; congruence). apply Hbt. exact Hi.
      * unfold ip_end. simpl off. lia.
Qed.

Lemma Decompress_rejects_truncated_witness :
  exists r mc,
    Compress pin 3 pout 4 fresh (store_bytes empty_memory pin [x61; x62; x63]) = Some (r, mc)
    /\ 1 <= r
    /\ forall md,
         read_bytes md pin (Z.to_nat (r - 1)) = read_bytes mc pout (Z.to_nat (r - 1)) ->
         exists md', Decompress pin (r - 1) pout 3 md = Some (-1, md').
Proof.
  apply (Decompress_rejects_truncated pin 3 pout 4 fresh
           (store_bytes empty_memory pin [x61; x62; x63]) pin pout).
  - discriminate.
  - discriminate.
  - lia.
  - lia.
Defined.

(** ** C7: short-match suppression *)

Lemma emit_match_run inp st bl d : c_run (emit_match inp st bl d) = 0.
Proof.
  unfold emit_match. destruct (emit_run _ _ _ _ _ _). destruct (if _ >=? 15 then _ else _).
  destruct (insert_n _ _ _ _ _ _) as [[? ?] ?]. reflexivity.
Qed.

Lemma emit_literal_run inp st : c_run (emit_literal inp st) = c_run st + 1.
Proof. unfold emit_literal. destruct (insert_hash _ _ _ _ _). reflexivity. Qed.

(** C7.  At a position with at least [MIN_MATCH] bytes left, let [(bl, d)]
    be the best match the chain walk found and [kept] the value that lines
    161-162 leave in [best_len].  If [bl] is exactly [MIN_MATCH] and the
    pending run is at least 135 (= 7 + 128), [kept] is 0: the match is
    discarded, the match finder returns the length 0 and the position is
    emitted as a literal.  For any shorter pending run or any longer match
    [kept] is [bl]: the match is kept.  In both cases [kept] is the length the
    encoder goes on with: the match finder returns it, at level 9 after the
    lookahead of lines 164-198 has looked at it, and a kept match is emitted
    at every level but 9, and at level 9 where it reaches the end of the
    input. *)
Theorem short_match_suppression (inp : ptr) (in_len level : Z) (st : cstate) :
  in_len - c_p st >= MIN_MATCH ->
  let bl := fst (best_found inp in_len level (c_mem st) (c_Head st) (c_Tail st) (c_p st)) in
  let d := snd (best_found inp in_len level (c_mem st) (c_Head st) (c_Tail st) (c_p st)) in
  let kept := suppress_short bl (c_run st) in
  (bl = MIN_MATCH /\ c_run st >= 7 + 128 ->
     kept = 0
     /\ find_match inp in_len level (c_mem st) (c_Head st) (c_Tail st) (c_run st) (c_p st)
        = (0, d)
     /\ Compress_body inp in_len level st = emit_literal inp st)
  /\ (~ (bl = MIN_MATCH /\ c_run st >= 7 + 128) -> kept = bl)
  /\ find_match inp in_len level (c_mem st) (c_Head st) (c_Tail st) (c_run st) (c_p st)
     = (if (level =? 9) && (kept >=? MIN_MATCH) && (kept <? in_len - c_p st)
        then lookahead inp level 2 (c_mem st) (c_Head st) (c_Tail st) (c_p st) kept 1
        else kept, d)
  /\ (kept >= MIN_MATCH -> level <> 9 \/ kept = in_len - c_p st ->
        Compress_body inp in_len level st = emit_match inp st bl d).
Proof.
  intros Hmm bl d kept. subst bl d kept.
  unfold Compress_body, find_match, best_found, suppress_short.
  destruct (Z.geb_spec (in_len - c_p st) MIN_MATCH) as [_ | Hlt]; [| lia].
  destruct (search inp (Z.to_nat (max_chain level)) (c_mem st) (c_Tail st) (c_p st)
              (in_len - c_p st) (Max (c_p st - WINDOW_SIZE) NIL)
              (tget (c_Head st) (Hash32 (c_mem st) (inp .+ c_p st))) (MIN_MATCH - 1) 0)
    as [bl d]. cbn [fst snd]. split; [| split; [| split]].
  - intros [-> Hrun]. change (MIN_MATCH =? MIN_MATCH) with true.
    destruct (Z.geb_spec (c_run st) (7 + 128)); [| lia]. cbn [andb].
    change (0 >=? MIN_MATCH) with false. rewrite andb_false_r. cbn [andb fst].
    split; [reflexivity |]. split; reflexivity.
  - intros Hnot.
    destruct (Z.eqb_spec bl MIN_MATCH), (Z.geb_spec (c_run st) (7 + 128)); cbn [andb];
      try reflexivity. exfalso. apply Hnot. split; [assumption | lia].
  - reflexivity.
  - intros Hk Hl.
    assert (Hkeep : (if (bl =? MIN_MATCH) && (c_run st >=? 7 + 128) then 0 else bl) = bl).
    { destruct ((bl =? MIN_MATCH) && (c_run st >=? 7 + 128)); [| reflexivity].
      unfold MIN_MATCH in Hk. lia. }
    rewrite Hkeep in Hk, Hl |- *.
    assert (Hno : (level =? 9) && (bl >=? MIN_MATCH) && (bl <? in_len - c_p st) = false).
    { destruct Hl as [Hl | Hl].
      - destruct (Z.eqb_spec level 9); [contradiction | reflexivity].
      - rewrite Hl, Z.ltb_irrefl. apply andb_false_r. }
    rewrite Hno. cbn [fst]. destruct (Z.geb_spec bl MIN_MATCH); [reflexivity | lia].
Qed.

Lemma suppressed_round :
  rule_summary 143 4 suppressed_state = (139, 139, (4, 139), (0, 139)).
Proof. vm_compute. reflexivity. Qed.

Lemma kept_round : rule_summary 9 4 kept_state = (5, 5, (4, 5), (4, 5)).
Proof. vm_compute. reflexivity. Qed.

Lemma tuple4_inv {A B C D : Type} (a a' : A) (b b' : B) (c c' : C) (d d' : D) :
  (a, b, c, d) = (a', b', c', d') -> a = a' /\ b = b' /\ c = c' /\ d = d'.
Proof. intros H. inversion H. auto. Qed.

Lemma short_match_suppression_witness :
  (c_run suppressed_state = 139
   /\ best_found pin 143 4 (c_mem suppressed_state) (c_Head suppressed_state)
        (c_Tail suppressed_state) (c_p suppressed_state) = (4, 139)
   /\ let bl := fst (best_found pin 143 4 (c_mem suppressed_state) (c_Head suppressed_state)
                       (c_Tail suppressed_state) (c_p suppressed_state)) in
      let d := snd (best_found pin 143 4 (c_mem suppressed_state) (c_Head suppressed_state)
                      (c_Tail suppressed_state) (c_p suppressed_state)) in
      let kept := suppress_short bl (c_run suppressed_state) in
      (bl = MIN_MATCH /\ c_run suppressed_state >= 7 + 128 ->
         kept = 0
         /\ find_match pin 143 4 (c_mem suppressed_state) (c_Head suppressed_state)
              (c_Tail suppressed_state) (c_run suppressed_state) (c_p suppressed_state)
            = (0, d)
         /\ Compress_body pin 143 4 suppressed_state = emit_literal pin suppressed_state)
      /\ (~ (bl = MIN_MATCH /\ c_run suppressed_state >= 7 + 128) -> kept = bl)
      /\ find_match pin 143 4 (c_mem suppressed_state) (c_Head suppressed_state)
           (c_Tail suppressed_state) (c_run suppressed_state) (c_p suppressed_state)
         = (if (4 =? 9) && (kept >=? MIN_MATCH) && (kept <? 143 - c_p suppressed_state)
            then lookahead pin 4 2 (c_mem suppressed_state) (c_Head suppressed_state)
                   (c_Tail suppressed_state) (c_p suppressed_state) kept 1
            else kept, d)
      /\ (kept >= MIN_MATCH -> 4 <> 9 \/ kept = 143 - c_p suppressed_state ->
            Compress_body pin 143 4 suppressed_state = emit_match pin suppressed_state bl d))
  /\ (c_run kept_state = 5
      /\ best_found pin 9 4 (c_mem kept_state) (c_Head kept_state)
           (c_Tail kept_state) (c_p kept_state) = (4, 5)
      /\ let bl := fst (best_found pin 9 4 (c_mem kept_state) (c_Head kept_state)
                          (c_Tail kept_state) (c_p kept_state)) in
         let d := snd (best_found pin 9 4 (c_mem kept_state) (c_Head kept_state)
                         (c_Tail kept_state) (c_p kept_state)) in
         let kept := suppress_short bl (c_run kept_state) in
         (bl = MIN_MATCH /\ c_run kept_state >= 7 + 128 ->
            kept = 0
            /\ find_match pin 9 4 (c_mem kept_state) (c_Head kept_state)
                 (c_Tail kept_state) (c_run kept_state) (c_p kept_state)
               = (0, d)
            /\ Compress_body pin 9 4 kept_state = emit_literal pin kept_state)
         /\ (~ (bl = MIN_MATCH /\ c_run kept_state >= 7 + 128) -> kept = bl)
         /\ find_match pin 9 4 (c_mem kept_state) (c_Head kept_state)
              (c_Tail kept_state) (c_run kept_state) (c_p kept_state)
            = (if (4 =? 9) && (kept >=? MIN_MATCH) && (kept <? 9 - c_p kept_state)
               then lookahead pin 4 2 (c_mem kept_state) (c_Head kept_state)
                      (c_Tail kept_state) (c_p kept_state) kept 1
               else kept, d)
         /\ (kept >= MIN_MATCH -> 4 <> 9 \/ kept = 9 - c_p kept_state ->
               Compress_body pin 9 4 kept_state = emit_match pin kept_state bl d)).
Proof.
  pose proof suppressed_round as Ha. unfold rule_summary in Ha.
  apply tuple4_inv in Ha. destruct Ha as (Hpa & Hra & Hba & _).
  pose proof kept_round as Hb. unfold rule_summary in Hb.
  apply tuple4_inv in Hb. destruct Hb as (Hpb & Hrb & Hbb & _).
  assert (Hma : 143 - c_p suppressed_state >= MIN_MATCH)
    by (rewrite Hpa; clear; unfold MIN_MATCH; lia).
  assert (Hmb : 9 - c_p kept_state >= MIN_MATCH)
    by (rewrite Hpb; clear; unfold MIN_MATCH; lia).
  exact (conj (conj Hra (conj Hba (short_match_suppression pin 143 4 suppressed_state Hma)))
              (conj Hrb (conj Hbb (short_match_suppression pin 9 4 kept_state Hmb)))).
Defined.

(** ** C2: decoder safety *)

Lemma agree_store8 R m1 m2 p x :
  agree R m1 m2 -> agree R (store8 m1 p x) (store8 m2 p x).
Proof.
  intros H q Hq. destruct (decide (q = p)) as [-> | Hne].
  - rewrite !load8_store8_eq. reflexivity.
  - rewrite !load8_store8_ne by exact Hne. apply H, Hq.
Qed.

Lemma agree_load8 R m1 m2 p : agree R m1 m2 -> R (p .+ 0) -> load8 m1 p = load8 m2 p.
Proof. intros H Hp. rewrite padd_0 in Hp. apply H, Hp. Qed.

Lemma agree_Load16 R m1 m2 s :
  agree R m1 m2 -> (forall k, 0 <= k < 2 -> R (s .+ k)) ->
  UnalignedLoad16 m1 s = UnalignedLoad16 m2 s.
Proof.
  intros H Hs. unfold UnalignedLoad16.
  rewrite (agree_load8 R m1 m2 s H) by (apply Hs; lia).
  rewrite (H (s .+ 1)) by (apply Hs; lia). reflexivity.
Qed.

Lemma agree_Load32 R m1 m2 s :
  agree R m1 m2 -> (forall k, 0 <= k < 4 -> R (s .+ k)) ->
  UnalignedLoad32 m1 s = UnalignedLoad32 m2 s.
Proof.
  intros H Hs. unfold UnalignedLoad32.
  rewrite (agree_load8 R m1 m2 s H) by (apply Hs; lia).
  rewrite (H (s .+ 1)), (H (s .+ 2)), (H (s .+ 3)) by (apply Hs; lia). reflexivity.
Qed.

Lemma agree_Copy32 R m1 m2 d s :
  agree R m1 m2 -> (forall k, 0 <= k < 4 -> R (s .+ k)) ->
  agree R (UnalignedCopy32 m1 d s) (UnalignedCopy32 m2 d s).
Proof.
  intros H Hs. unfold UnalignedCopy32. rewrite (agree_Load32 R m1 m2 s H Hs).
  unfold UnalignedStore32. repeat apply agree_store8. exact H.
Qed.

Lemma agree_WildCopy_loop R d s n fuel : forall m1 m2 i,
  0 <= i -> agree R m1 m2 -> (forall k, 0 <= k < Z.max 8 (n + 7) -> R (s .+ k)) ->
  agree R (WildCopy_loop fuel m1 d s n i) (WildCopy_loop fuel m2 d s n i).
Proof.
  induction fuel as [| f IH]; intros m1 m2 i Hi H Hs; cbn [WildCopy_loop]; [exact H |].
  destruct (Z.ltb_spec i n); [| exact H]. cbv zeta.
  apply IH; [lia | | exact Hs].
  apply agree_Copy32; [apply agree_Copy32; [exact H |] |];
    intros k Hk; rewrite padd_padd; apply Hs; lia.
Qed.

Lemma agree_WildCopy R m1 m2 d s n :
  agree R m1 m2 -> (forall k, 0 <= k < Z.max 8 (n + 7) -> R (s .+ k)) ->
  agree R (WildCopy m1 d s n) (WildCopy m2 d s n).
Proof.
  intros H Hs. unfold WildCopy. cbv zeta.
  apply agree_WildCopy_loop; [lia | | exact Hs].
  apply agree_Copy32; [apply agree_Copy32; [exact H |] |];
    intros k Hk; rewrite ?padd_padd; apply Hs; lia.
Qed.

Lemma agree_byte_copy R n : forall m1 m2 d s,
  agree R m1 m2 -> (forall k, 0 <= k < Z.of_nat n -> R (s .+ k)) ->
  agree R (fst (byte_copy n m1 d s)) (fst (byte_copy n m2 d s)).
Proof.
  induction n as [| n IH]; intros m1 m2 d s H Hs; cbn [byte_copy]; [exact H |].
  rewrite (agree_load8 R m1 m2 s H) by (apply Hs; lia).
  apply IH; [apply agree_store8; exact H |].
  intros k Hk. rewrite padd_padd. apply Hs. lia.
Qed.

Lemma agree_DecodeMod_loop R m1 m2 fuel : forall p x i,
  agree R m1 m2 -> (forall k, 0 <= k < Z.of_nat fuel -> R (p .+ k)) ->
  DecodeMod_loop fuel m1 p x i = DecodeMod_loop fuel m2 p x i.
Proof.
  induction fuel as [| f IH]; intros p x i H Hp; [reflexivity |].
  rewrite !DecodeMod_loop_S.
  rewrite (agree_load8 R m1 m2 p H) by (apply Hp; lia).
  destruct (i <=? 28); [| reflexivity]. destruct (load8 m2 p <? 128); [reflexivity |].
  apply IH; [exact H |]. intros k Hk. rewrite padd_padd. apply Hp. lia.
Qed.

Lemma DecodeMod_loop_range m fuel : forall p x i,
  0 <= x < 2 ^ 32 ->
  0 <= fst (DecodeMod_loop fuel m p x i) < 2 ^ 32
  /\ blk (snd (DecodeMod_loop fuel m p x i)) = blk p
  /\ off p <= off (snd (DecodeMod_loop fuel m p x i)) <= off p + Z.of_nat fuel.
Proof.
  induction fuel as [| f IH]; intros p x i Hx.
  - cbn [DecodeMod_loop fst snd]. repeat split; lia.
  - rewrite DecodeMod_loop_S. destruct (i <=? 28).
    + destruct (load8 m p <? 128).
      * cbn [fst snd blk off padd]. pose proof (u32_range (x + u32 (Z.shiftl (load8 m p) i))).
        repeat split; lia.
      * destruct (IH (p .+ 1) (u32 (x + u32 (Z.shiftl (load8 m p) i))) (i + 7))
          as (Hv & Hb & Ho); [apply u32_range |].
        cbn [blk off padd] in Hb, Ho. repeat split; try lia. exact Hb.
    + cbn [fst snd]. repeat split; lia.
Qed.

(** [DecodeMod] returns a 32-bit value and advances by one to five bytes. *)
Lemma DecodeMod_range m p :
  0 <= fst (DecodeMod m p) < 2 ^ 32
  /\ blk (snd (DecodeMod m p)) = blk p
  /\ off p + 1 <= off (snd (DecodeMod m p)) <= off p + 5.
Proof.
  unfold DecodeMod. rewrite DecodeMod_loop_S. change (0 <=? 28) with true. cbv iota.
  destruct (load8 m p <? 128).
  - cbn [fst snd blk off padd]. pose proof (u32_range (0 + u32 (Z.shiftl (load8 m p) 0))).
    repeat split; lia.
  - destruct (DecodeMod_loop_range m 4 (p .+ 1) (u32 (0 + u32 (Z.shiftl (load8 m p) 0))) (0 + 7))
      as (Hv & Hb & Ho); [apply u32_range |].
    cbn [blk off padd] in Hb, Ho. repeat split; try lia. exact Hb.
Qed.

Lemma wild_len_le n : 0 <= n -> wild_len n <= n + 8.
Proof.
  intros Hn. unfold wild_len. destruct (Z.ltb_spec 8 n); [Z.div_mod_to_equations |]; lia.
Qed.

Lemma outcome_rel_shift dinp dlen dout cap m ip op m' ip' op' o1 o2 :
  unchanged_but m m' (blk dout) (off dout) (off dout + cap + 8) ->
  off ip <= off ip' -> off op <= off op' ->
  outcome_rel dinp dlen dout cap m' ip' op' o1 o2 ->
  outcome_rel dinp dlen dout cap m ip op o1 o2.
Proof.
  intros Hu Hip Hop. unfold outcome_rel, round_ok.
  destruct o1 as [s1 | s1 | a], o2 as [s2 | s2 | b]; try (intros []; fail).
  - intros (? & ? & ? & ? & ? & ? & ? & Hu').
    repeat split; try assumption; try lia.
    apply (unchanged_but_trans m m' _ _ _ _ _ _ _ _ Hu Hu'); lia.
  - intros (? & ? & ? & ? & ? & ? & ? & Hu').
    repeat split; try assumption; try lia.
    apply (unchanged_but_trans m m' _ _ _ _ _ _ _ _ Hu Hu'); lia.
  - intros (? & Hu'). split; [assumption |].
    apply (unchanged_but_trans m m' _ _ _ _ _ _ _ _ Hu Hu'); lia.
Qed.

Lemma match_phase_safe dinp dlen dout cap m1 m2 ip op tag :
  blk dinp <> blk dout ->
  blk ip = blk dinp -> off dinp <= off ip <= off dinp + dlen ->
  blk op = blk dout -> off dout <= off op <= off dout + cap ->
  0 <= tag ->
  agree (readable dinp dlen dout cap) m1 m2 ->
  outcome_rel dinp dlen dout cap m1 ip op
    (match_phase dout cap m1 ip op tag) (match_phase dout cap m2 ip op tag).
Proof.
  intros Hblk Hbi Hip Hbo Hop Htag Hag. unfold match_phase.
  assert (Hdm : DecodeMod m2 ip = DecodeMod m1 ip).
  { symmetry. apply (agree_DecodeMod_loop _ _ _ 5 ip 0 0 Hag).
    intros k Hk. left. cbn [blk off padd]. split; [exact Hbi | lia]. }
  rewrite Hdm.
  set (li := if Z.land tag 15 + MIN_MATCH =? 15 + MIN_MATCH then _ else _).
  assert (Hli : 0 <= fst li /\ blk (snd li) = blk dinp /\ off ip <= off (snd li) <= off ip + 5).
  { subst li. destruct (Z.land tag 15 + MIN_MATCH =? 15 + MIN_MATCH).
    - pose proof (DecodeMod_range m1 ip) as (_ & Hb & Ho).
      destruct (DecodeMod m1 ip) as [x ip']. cbn [fst snd] in *.
      pose proof (u32_range (Z.land tag 15 + MIN_MATCH + x)).
      repeat split; try lia. congruence.
    - cbn [fst snd]. pose proof (Z.land_nonneg tag 15). unfold MIN_MATCH.
      repeat split; try lia. exact Hbi. }
  clearbody li. destruct li as [len ip']. cbn [fst snd] in Hli.
  destruct Hli as (Hlen & Hbi' & Hip'). clear Hdm.
  unfold op_end. cbn [off padd].
  destruct (Z.ltb_spec (off dout + cap - off op) len) as [Hov | Hfit].
  { split; [exact Hag | apply unchanged_but_refl]. }
  assert (Hl16 : UnalignedLoad16 m2 ip' = UnalignedLoad16 m1 ip').
  { symmetry. apply (agree_Load16 _ _ _ _ Hag).
    intros k Hk. left. cbn [blk off padd]. split; [exact Hbi' | lia]. }
  rewrite Hl16.
  set (dist := Z.shiftl (Z.land tag 16) 12 + UnalignedLoad16 m1 ip').
  assert (Hdist : 0 <= dist).
  { subst dist. unfold UnalignedLoad16.
    pose proof (load8_range m1 ip'). pose proof (load8_range m1 (ip' .+ 1)).
    assert (0 <= Z.shiftl (Z.land tag 16) 12)
      by (apply Z.shiftl_nonneg, Z.land_nonneg; lia).
    assert (0 <= Z.shiftl (load8 m1 (ip' .+ 1)) 8) by (apply Z.shiftl_nonneg; lia).
    lia. }
  clearbody dist.
  destruct (Z.ltb_spec (off op - off dout) dist) as [Hfar | Hnear].
  { split; [exact Hag | apply unchanged_but_refl]. }
  destruct (Z.geb_spec dist 4) as [Hd4 | Hd4].
  - cbn [outcome_rel d_ip d_op d_mem]. split; [reflexivity |]. split; [reflexivity |]. split.
    + apply agree_WildCopy; [exact Hag |].
      intros k Hk. right. cbn [blk off padd]. split; [exact Hbo | lia].
    + unfold round_ok. cbn [blk off padd].
      split; [exact Hbi' |]. split; [lia |]. split; [exact Hbo |]. split; [lia |].
      pose proof (wild_len_le len Hlen).
      apply (unchanged_but_weaken _ _ _ (off op) (off op + wild_len len)); [| lia | lia].
      rewrite <- Hbo. apply WildCopy_unchanged.
      right. left. cbn [blk off padd]. lia.
  - pose proof (byte_copy_ptr (Z.to_nat len) m1 op (op .+ - dist)) as P1.
    pose proof (byte_copy_ptr (Z.to_nat len) m2 op (op .+ - dist)) as P2.
    pose proof (byte_copy_unchanged (Z.to_nat len) m1 op (op .+ - dist)) as U1.
    assert (A : agree (readable dinp dlen dout cap)
                  (fst (byte_copy (Z.to_nat len) m1 op (op .+ - dist)))
                  (fst (byte_copy (Z.to_nat len) m2 op (op .+ - dist)))).
    { apply agree_byte_copy; [exact Hag |].
      intros k Hk. right. cbn [blk off padd]. split; [exact Hbo | lia]. }
    destruct (byte_copy (Z.to_nat len) m1 op (op .+ - dist)) as [a1 o1].
    destruct (byte_copy (Z.to_nat len) m2 op (op .+ - dist)) as [a2 o2].
    cbn [fst snd] in P1, P2, U1, A. subst o1 o2.
    cbn [outcome_rel d_ip d_op d_mem]. split; [reflexivity |]. split; [reflexivity |].
    split; [exact A |].
    unfold round_ok. cbn [blk off padd].
    split; [exact Hbi' |]. split; [lia |]. split; [exact Hbo |]. split; [lia |].
    apply (unchanged_but_weaken _ _ _ (off op) (off op + Z.of_nat (Z.to_nat len))); [| lia | lia].
    rewrite <- Hbo. exact U1.
Qed.

Lemma Decompress_body_safe dinp dlen dout cap m1 m2 ip op :
  blk dinp <> blk dout ->
  blk ip = blk dinp -> off dinp <= off ip < off dinp + dlen ->
  blk op = blk dout -> off dout <= off op <= off dout + cap ->
  agree (readable dinp dlen dout cap) m1 m2 ->
  outcome_rel dinp dlen dout cap m1 ip op
    (Decompress_body dinp dlen dout cap (DState m1 ip op))
    (Decompress_body dinp dlen dout cap (DState m2 ip op)).
Proof.
  intros Hblk Hbi Hip Hbo Hop Hag. unfold Decompress_body. cbn [d_mem d_ip d_op].
  assert (Htag : load8 m2 ip = load8 m1 ip).
  { symmetry. apply (agree_load8 _ _ _ _ Hag). left. cbn [blk off padd]. split; [exact Hbi | lia]. }
  rewrite Htag. pose proof (load8_range m1 ip) as Htr. set (tag := load8 m1 ip) in *.
  clearbody tag. clear Htag.
  destruct (Z.geb_spec tag 32) as [Hrun | Hnorun].
  - assert (Hdm : DecodeMod m2 (ip .+ 1) = DecodeMod m1 (ip .+ 1)).
    { symmetry. apply (agree_DecodeMod_loop _ _ _ 5 (ip .+ 1) 0 0 Hag).
      intros k Hk. left. cbn [blk off padd]. split; [exact Hbi | lia]. }
    rewrite Hdm.
    set (ri := if Z.shiftr tag 5 =? 7 then _ else _).
    assert (Hri : 0 <= fst ri /\ blk (snd ri) = blk dinp
                  /\ off ip + 1 <= off (snd ri) <= off ip + 6).
    { subst ri. destruct (Z.shiftr tag 5 =? 7).
      - pose proof (DecodeMod_range m1 (ip .+ 1)) as (_ & Hb & Ho).
        destruct (DecodeMod m1 (ip .+ 1)) as [x ip']. cbn [fst snd blk off padd] in *.
        pose proof (u32_range (Z.shiftr tag 5 + x)).
        repeat split; try lia. congruence.
      - cbn [fst snd blk off padd].
        assert (0 <= Z.shiftr tag 5) by (apply Z.shiftr_nonneg; lia).
        repeat split; try lia. exact Hbi. }
    clearbody ri. destruct ri as [run ip']. cbn [fst snd] in Hri.
    destruct Hri as (Hrn & Hbi' & Hip'). clear Hdm.
    unfold op_end, ip_end. cbn [off padd].
    destruct (Z.ltb_spec (off dout + cap - off op) run) as [Hov | Hfit]; cbn [orb].
    { split; [exact Hag | apply unchanged_but_refl]. }
    destruct (Z.ltb_spec (off dinp + dlen - off ip') run) as [Hov | Hfit'].
    { split; [exact Hag | apply unchanged_but_refl]. }
    assert (Hag' : agree (readable dinp dlen dout cap)
                     (WildCopy m1 op ip' run) (WildCopy m2 op ip' run)).
    { apply agree_WildCopy; [exact Hag |].
      intros k Hk. left. cbn [blk off padd]. split; [exact Hbi' | lia]. }
    assert (Hun : unchanged_but m1 (WildCopy m1 op ip' run) (blk dout) (off dout)
                    (off dout + cap + 8)).
    { pose proof (wild_len_le run Hrn).
      apply (unchanged_but_weaken _ _ _ (off op) (off op + wild_len run)); [| lia | lia].
      rewrite <- Hbo. apply WildCopy_unchanged. left. congruence. }
    destruct (Z.geb_spec (off ip' + run) (off dinp + dlen)) as [Hend | Hmore].
    + cbn [outcome_rel d_ip d_op d_mem]. split; [reflexivity |]. split; [reflexivity |].
      split; [exact Hag' |]. unfold round_ok. cbn [blk off padd].
      split; [exact Hbi' |]. split; [lia |]. split; [exact Hbo |]. split; [lia |]. exact Hun.
    + apply (outcome_rel_shift _ _ _ _ m1 ip op (WildCopy m1 op ip' run) (ip' .+ run) (op .+ run));
        [exact Hun | cbn [off padd]; lia | cbn [off padd]; lia |].
      apply match_phase_safe; cbn [blk off padd]; try assumption; lia.
  - apply (outcome_rel_shift _ _ _ _ m1 ip op m1 (ip .+ 1) op);
      [apply unchanged_but_refl | cbn [off padd]; lia | lia |].
    apply match_phase_safe; cbn [blk off padd]; try assumption; lia.
Qed.

Lemma Decompress_loop_safe dinp dlen dout cap m0 :
  blk dinp <> blk dout ->
  forall fuel m1 m2 ip op,
  blk ip = blk dinp -> off dinp <= off ip ->
  blk op = blk dout -> off dout <= off op <= off dout + cap ->
  off dinp + dlen - off ip <= Z.of_nat fuel ->
  agree (readable dinp dlen dout cap) m1 m2 ->
  unchanged_but m0 m1 (blk dout) (off dout) (off dout + cap + 8) ->
  exists r m1' m2',
    Decompress_loop dinp dlen dout cap fuel (DState m1 ip op) = Some (r, m1')
    /\ Decompress_loop dinp dlen dout cap fuel (DState m2 ip op) = Some (r, m2')
    /\ (r = -1 \/ 0 <= r <= cap)
    /\ agree (readable dinp dlen dout cap) m1' m2'
    /\ unchanged_but m0 m1' (blk dout) (off dout) (off dout + cap + 8).
Proof.
  intros Hblk.
  assert (Hret : forall m1 m2 ip op,
             off dout <= off op <= off dout + cap ->
             agree (readable dinp dlen dout cap) m1 m2 ->
             unchanged_but m0 m1 (blk dout) (off dout) (off dout + cap + 8) ->
             exists r m1' m2',
               Some (Decompress_return dinp dlen dout (DState m1 ip op)) = Some (r, m1')
               /\ Some (Decompress_return dinp dlen dout (DState m2 ip op)) = Some (r, m2')
               /\ (r = -1 \/ 0 <= r <= cap)
               /\ agree (readable dinp dlen dout cap) m1' m2'
               /\ unchanged_but m0 m1' (blk dout) (off dout) (off dout + cap + 8)).
  { intros m1 m2 ip op Hop Hag Hun. unfold Decompress_return. cbn [d_ip d_op d_mem].
    eexists _, m1, m2. split; [reflexivity |]. split; [reflexivity |].
    split; [| split; assumption].
    destruct (off ip =? off (ip_end dinp dlen)); [right; lia | left; reflexivity]. }
  induction fuel as [| f IH]; intros m1 m2 ip op Hbi Hip Hbo Hop Hfuel Hag Hun.
  - cbn [Decompress_loop]. cbn [d_ip]. change (off (ip_end dinp dlen)) with (off dinp + dlen).
    destruct (Z.ltb_spec (off ip) (off dinp + dlen)); [lia |].
    apply Hret; assumption.
  - rewrite !Decompress_loop_S. cbn [d_ip]. change (off (ip_end dinp dlen)) with (off dinp + dlen).
    destruct (Z.ltb_spec (off ip) (off dinp + dlen)) as [Hlt | Hge];
      [| apply Hret; assumption].
    pose proof (Decompress_body_safe dinp dlen dout cap m1 m2 ip op Hblk Hbi
                  (conj Hip Hlt) Hbo Hop Hag) as Hrel.
    destruct (Decompress_body dinp dlen dout cap (DState m1 ip op)) as [s1 | s1 | a],
             (Decompress_body dinp dlen dout cap (DState m2 ip op)) as [s2 | s2 | b];
      try (destruct Hrel; fail).
    + destruct Hrel as (Ei & Eo & Hag' & Hbi' & Hip' & Hbo' & Hop' & Hun').
      destruct s1 as [a1 i1 o1], s2 as [a2 i2 o2]. cbn [d_ip d_op d_mem] in *. subst i2 o2.
      apply IH; try assumption; try lia.
      apply (unchanged_but_trans m0 m1 _ _ _ _ _ _ _ _ Hun Hun'); lia.
    + destruct Hrel as (Ei & Eo & Hag' & Hbi' & Hip' & Hbo' & Hop' & Hun').
      destruct s1 as [a1 i1 o1], s2 as [a2 i2 o2]. cbn [d_ip d_op d_mem] in *. subst i2 o2.
      apply Hret; [lia | exact Hag' |].
      apply (unchanged_but_trans m0 m1 _ _ _ _ _ _ _ _ Hun Hun'); lia.
    + destruct Hrel as (Hag' & Hun').
      exists (-1), a, b. split; [reflexivity |]. split; [reflexivity |].
      split; [left; reflexivity |]. split; [exact Hag' |].
      apply (unchanged_but_trans m0 m1 _ _ _ _ _ _ _ _ Hun Hun'); lia.
Qed.

Lemma agree_refl R m : agree R m m.
Proof. intros q _. reflexivity. Qed.

(** C2, amended.  For a capacity [cap >= 0] and a stream and an output
    buffer in different objects, [Decompress] returns, and returns either -1
    or a length from 0 up to [cap]; it stores only to the output buffer and
    the eight bytes after it; and what it returns and leaves in memory depends
    only on the cells of the stream, of the output buffer and of the eight
    bytes after each: it loads no others. *)
Theorem Decompress_safety (dinp : ptr) (dlen : Z) (dout : ptr) (cap : Z) (md : memory) :
  blk dinp <> blk dout -> 0 <= cap ->
  exists r md',
    Decompress dinp dlen dout cap md = Some (r, md')
    /\ (r = -1 \/ 0 <= r <= cap)
    /\ unchanged_but md md' (blk dout) (off dout) (off dout + cap + 8)
    /\ forall md2, agree (readable dinp dlen dout cap) md md2 ->
         exists md2', Decompress dinp dlen dout cap md2 = Some (r, md2')
                      /\ agree (readable dinp dlen dout cap) md' md2'.
Proof.
  intros Hblk Hcap. unfold Decompress.
  destruct (Decompress_loop_safe dinp dlen dout cap md Hblk (Z.to_nat dlen) md md dinp dout)
    as (r & m1' & _ & H1 & _ & Hr & _ & Hun);
    [reflexivity | lia | reflexivity | lia | lia | apply agree_refl | apply unchanged_but_refl |].
  exists r, m1'. split; [exact H1 |]. split; [exact Hr |]. split; [exact Hun |].
  intros md2 Hag.
  destruct (Decompress_loop_safe dinp dlen dout cap md Hblk (Z.to_nat dlen) md md2 dinp dout)
    as (r' & m1'' & m2' & H1' & H2' & _ & Hag' & _);
    [reflexivity | lia | reflexivity | lia | lia | exact Hag | apply unchanged_but_refl |].
  rewrite H1 in H1'. injection H1' as <- <-.
  exists m2'. split; [exact H2' | exact Hag'].
Qed.

Lemma Decompress_safety_witness :
  exists r md',
    Decompress pin 2 pout 1 (store_bytes empty_memory pin [x20; x41; x42]) = Some (r, md')
    /\ (r = -1 \/ 0 <= r <= 1)
    /\ unchanged_but (store_bytes empty_memory pin [x20; x41; x42]) md'
         (blk pout) (off pout) (off pout + 1 + 8)
    /\ forall md2,
         agree (readable pin 2 pout 1) (store_bytes empty_memory pin [x20; x41; x42]) md2 ->
         exists md2', Decompress pin 2 pout 1 md2 = Some (r, md2')
                      /\ agree (readable pin 2 pout 1) md' md2'.
Proof.
  apply (Decompress_safety pin 2 pout 1 (store_bytes empty_memory pin [x20; x41; x42])).
  - discriminate.
  - lia.
Defined.

(** Against C2 as stated.  The stream is the two bytes 0x20 0x41 (a run of
    one literal), the capacity is 1, and the byte 0x42 follows the stream in
    memory.  [Decompress] returns 1, and the byte at output offset 1 has
    become 0x42: it stored at offset [cap], and what it stored is the byte it
    loaded at offset 2 of a stream of length 2. *)
Lemma Decompress_overrun_counterexample :
  exists md',
    Decompress pin 2 pout 1 (store_bytes empty_memory pin [x20; x41; x42]) = Some (1, md')
    /\ load8 (store_bytes empty_memory pin [x20; x41; x42]) (pout .+ 1) = 0
    /\ load8 md' (pout .+ 1) = 66
    /\ ~ (forall q, blk q = blk pout -> 1 <= off q - off pout ->
            load8 md' q = load8 (store_bytes empty_memory pin [x20; x41; x42]) q).
Proof.
  eexists. split; [vm_compute; reflexivity |]. split; [reflexivity |].
  split; [vm_compute; reflexivity |].
  intros H. specialize (H (pout .+ 1) eq_refl ltac:(cbn; lia)).
  vm_compute in H. discriminate H.
Qed.
(** ** C3: an input whose encoding is 17 bytes longer than it *)

Lemma lit_at a :
  lit (3 * a) = a mod 64
  /\ lit (3 * a + 1) = 64 + (a / 64) mod 64
  /\ lit (3 * a + 2) = 128 + (a / 4096) mod 64.
Proof.
  unfold lit.
  replace ((3 * a) mod 3) with 0 by (Z.div_mod_to_equations; lia).
  replace ((3 * a + 1) mod 3) with 1 by (Z.div_mod_to_equations; lia).
  replace ((3 * a + 2) mod 3) with 2 by (Z.div_mod_to_equations; lia).
  replace (3 * a / 3) with a by (Z.div_mod_to_equations; lia).
  replace ((3 * a + 1) / 3) with a by (Z.div_mod_to_equations; lia).
  replace ((3 * a + 2) / 3) with a by (Z.div_mod_to_equations; lia).
  cbn [Z.eqb Pos.eqb]. repeat split; lia.
Qed.

Lemma lit_range i : 0 <= lit i < 192.
Proof.
  unfold lit. pose proof (Z.mod_pos_bound i 3 ltac:(lia)).
  pose proof (Z.mod_pos_bound (i / 3) 64 ltac:(lia)).
  pose proof (Z.mod_pos_bound (i / 3 / 64) 64 ltac:(lia)).
  pose proof (Z.mod_pos_bound (i / 3 / 4096) 64 ltac:(lia)).
  destruct (Z.eqb_spec (i mod 3) 0); [lia |].
  destruct (Z.eqb_spec (i mod 3) 1); lia.
Qed.

Lemma digits_inj a b :
  0 <= a < 262144 -> 0 <= b < 262144 ->
  a mod 64 = b mod 64 -> (a / 64) mod 64 = (b / 64) mod 64 ->
  (a / 4096) mod 64 = (b / 4096) mod 64 -> a = b.
Proof. intros. Z.div_mod_to_equations. lia. Qed.

(** Three consecutive bytes of [lit] occur at one position only. *)
Lemma lit3_inj s u :
  0 <= s < 786420 -> 0 <= u < 786420 ->
  lit s = lit u -> lit (s + 1) = lit (u + 1) -> lit (s + 2) = lit (u + 2) -> s = u.
Proof.
  intros Hs Hu.
  rewrite (Z.div_mod s 3), (Z.div_mod u 3) by lia.
  pose proof (Z.mod_pos_bound s 3 ltac:(lia)) as Hcs.
  pose proof (Z.mod_pos_bound u 3 ltac:(lia)) as Hcu.
  assert (Ha : 0 <= s / 3 < 262140) by (Z.div_mod_to_equations; lia).
  assert (Hb : 0 <= u / 3 < 262140) by (Z.div_mod_to_equations; lia).
  generalize dependent (s / 3). generalize dependent (u / 3).
  generalize dependent (s mod 3). generalize dependent (u mod 3).
  clear s u Hs Hu. intros cu Hcu cs Hcs b Hb a Ha.
  pose proof (lit_at a) as (A0 & A1 & A2). pose proof (lit_at (a + 1)) as (A3 & A4 & _).
  pose proof (lit_at b) as (B0 & B1 & B2). pose proof (lit_at (b + 1)) as (B3 & B4 & _).
  pose proof (Z.mod_pos_bound a 64 ltac:(lia)).
  pose proof (Z.mod_pos_bound b 64 ltac:(lia)).
  pose proof (Z.mod_pos_bound (a / 64) 64 ltac:(lia)).
  pose proof (Z.mod_pos_bound (b / 64) 64 ltac:(lia)).
  pose proof (Z.mod_pos_bound (a / 4096) 64 ltac:(lia)).
  pose proof (Z.mod_pos_bound (b / 4096) 64 ltac:(lia)).
  assert (cs = 0 \/ cs = 1 \/ cs = 2) as [-> | [-> | ->]] by lia;
  assert (cu = 0 \/ cu = 1 \/ cu = 2) as [-> | [-> | ->]] by lia;
  rewrite ?Z.add_0_r;
  replace (3 * a + 1 + 1) with (3 * a + 2) by lia;
  replace (3 * a + 1 + 2) with (3 * (a + 1)) by lia;
  replace (3 * a + 2 + 1) with (3 * (a + 1)) by lia;
  replace (3 * a + 2 + 2) with (3 * (a + 1) + 1) by lia;
  replace (3 * b + 1 + 1) with (3 * b + 2) by lia;
  replace (3 * b + 1 + 2) with (3 * (b + 1)) by lia;
  replace (3 * b + 2 + 1) with (3 * (b + 1)) by lia;
  replace (3 * b + 2 + 2) with (3 * (b + 1) + 1) by lia;
  rewrite ?A0, ?A1, ?A2, ?A3, ?A4, ?B0, ?B1, ?B2, ?B3, ?B4;
  intros E0 E1 E2; try lia.
  - assert (a = b); [apply digits_inj; lia | lia].
  - assert (a = b); [| lia]. clear A0 A1 A2 A3 A4 B0 B1 B2 B3 B4.
    Z.div_mod_to_equations. lia.
  - assert (a = b); [| lia]. clear A0 A1 A2 A3 A4 B0 B1 B2 B3 B4.
    Z.div_mod_to_equations. lia.
Qed.

Lemma excess_byte_range i : 0 <= i < 786420 -> 0 <= excess_byte i < 256.
Proof.
  intros Hi. unfold excess_byte. pose proof (lit_range i).
  destruct (i mod 16524 <? 16518); [lia |]. Z.div_mod_to_equations. lia.
Qed.

Lemma excess_byte_lit i : i mod 16524 < 16518 -> excess_byte i = lit i.
Proof. intros H. unfold excess_byte. destruct (Z.ltb_spec (i mod 16524) 16518); [reflexivity | lia]. Qed.

Lemma excess_byte_mark i : 16518 <= i mod 16524 -> excess_byte i = 200 + i / 16524.
Proof. intros H. unfold excess_byte. destruct (Z.ltb_spec (i mod 16524) 16518); [lia | reflexivity]. Qed.

Lemma excess_byte_small i :
  0 <= i -> excess_byte i < 200 -> i mod 16524 < 16518 /\ excess_byte i = lit i.
Proof.
  intros Hi. unfold excess_byte. destruct (Z.ltb_spec (i mod 16524) 16518); [intros _; split; [lia | reflexivity] |].
  intros Hlt. exfalso. Z.div_mod_to_equations. lia.
Qed.

Lemma excess_byte_big i :
  0 <= i -> 200 <= excess_byte i -> 16518 <= i mod 16524 /\ excess_byte i = 200 + i / 16524.
Proof.
  intros Hi. unfold excess_byte. pose proof (lit_range i).
  destruct (Z.ltb_spec (i mod 16524) 16518); [lia |]. intros _. split; [lia | reflexivity].
Qed.

(** The four bytes at a position where the encoder is to emit a literal
    occur nowhere before it. *)
Lemma fresh_window s u :
  0 <= s < u -> u + 4 <= excess_len -> u mod 16524 <= 16518 ->
  (forall c, 0 <= c < 4 -> excess_byte (s + c) = excess_byte (u + c)) -> False.
Proof.
  unfold excess_len. intros Hs Hu Hj Heq.
  destruct (Z_le_gt_dec (u mod 16524) 16514) as [Hlit | Hmark].
  - assert (Hl : forall c, 0 <= c < 3 -> lit (s + c) = lit (u + c)).
    { intros c Hc.
      assert (Hu' : excess_byte (u + c) = lit (u + c))
        by (apply excess_byte_lit; Z.div_mod_to_equations; lia).
      pose proof (lit_range (u + c)).
      destruct (excess_byte_small (s + c)) as [_ Hs']; [lia | rewrite Heq by lia; lia |].
      rewrite <- Hs', <- Hu'. apply Heq. lia. }
    pose proof (Hl 0 ltac:(lia)) as E0. rewrite !Z.add_0_r in E0.
    pose proof (lit3_inj s u ltac:(lia) ltac:(lia) E0 (Hl 1 ltac:(lia)) (Hl 2 ltac:(lia))).
    lia.
  - pose proof (Heq (16518 - u mod 16524) ltac:(lia)) as E.
    rewrite (excess_byte_mark (u + (16518 - u mod 16524))) in E
      by (Z.div_mod_to_equations; lia).
    destruct (excess_byte_big (s + (16518 - u mod 16524))) as [Hm Hv];
      [Z.div_mod_to_equations; lia | rewrite E; Z.div_mod_to_equations; lia |].
    rewrite Hv in E. clear Hv Heq. Z.div_mod_to_equations. lia.
Qed.

(** At offset 16519 of a block: the byte before and the next five bytes name
    the block, and the byte after them does not. *)
Lemma mark_bytes p c :
  0 <= p -> p mod 16524 = 16519 -> -1 <= c <= 4 ->
  excess_byte (p + c) = 200 + p / 16524.
Proof.
  intros Hp Hj Hc. rewrite excess_byte_mark by (Z.div_mod_to_equations; lia).
  f_equal. Z.div_mod_to_equations. lia.
Qed.

Lemma mark_end p : 0 <= p -> p mod 16524 = 16519 -> excess_byte (p + 5) < 192.
Proof.
  intros Hp Hj. rewrite excess_byte_lit by (Z.div_mod_to_equations; lia).
  apply lit_range.
Qed.

Lemma mark_first s p :
  0 <= s < p -> p mod 16524 = 16519 -> excess_byte s = 200 + p / 16524 -> s = p - 1.
Proof.
  intros Hs Hj E.
  destruct (excess_byte_big s) as [Hm Hv]; [lia | rewrite E; Z.div_mod_to_equations; lia |].
  rewrite Hv in E. clear Hv. Z.div_mod_to_equations. lia.
Qed.

Lemma search_S inp c m T p max_match limit s best_len dist :
  search inp (S c) m T p max_match limit s best_len dist =
  if s >? limit then
    if (load8 m (inp .+ (s + best_len)) =? load8 m (inp .+ (p + best_len)))
       && (UnalignedLoad32 m (inp .+ s) =? UnalignedLoad32 m (inp .+ p))
    then
      let len := match_len inp (Z.to_nat (max_match - MIN_MATCH)) m s p max_match MIN_MATCH in
      if len >? best_len then
        if len =? max_match then (len, p - s)
        else search inp c m T p max_match limit (tget T (Z.land s WINDOW_MASK)) len (p - s)
      else search inp c m T p max_match limit (tget T (Z.land s WINDOW_MASK)) best_len dist
    else search inp c m T p max_match limit (tget T (Z.land s WINDOW_MASK)) best_len dist
  else (best_len, dist).
Proof. reflexivity. Qed.

(** The chain walk never lowers [best_len]. *)
Lemma search_mono inp m T p mm limit c : forall s bl d,
  bl <= fst (search inp c m T p mm limit s bl d).
Proof.
  induction c as [| c IH]; intros s bl d.
  - cbn [search fst]. lia.
  - rewrite search_S. destruct (s >? limit); [| cbn [fst]; lia].
    destruct (_ && _); [| apply IH]. cbv zeta.
    set (len := match_len inp _ m s p mm MIN_MATCH).
    destruct (Z.gtb_spec len bl); [| apply IH].
    destruct (len =? mm); [cbn [fst]; lia |].
    pose proof (IH (tget T (Z.land s WINDOW_MASK)) len (p - s)). lia.
Qed.

(** If the head of the chain of [p] is a position whose next five bytes are
    those at [p], the match finder returns a match of at least five bytes. *)
Lemma find_match_lower inp in_len m H T run p s :
  tget H (Hash32 m (inp .+ p)) = s -> Max (p - WINDOW_SIZE) NIL < s ->
  5 <= in_len - p -> matches m inp s p 5 ->
  5 <= fst (find_match inp in_len 1 m H T run p).
Proof.
  intros Hs Hlim Hmm Hm. unfold find_match.
  destruct (Z.geb_spec (in_len - p) MIN_MATCH) as [_ | Hlt]; [| unfold MIN_MATCH in Hlt; lia].
  rewrite Hs. change (Z.to_nat (max_chain 1)) with 2%nat. rewrite search_S.
  destruct (Z.gtb_spec s (Max (p - WINDOW_SIZE) NIL)) as [_ | ?]; [| lia].
  change (MIN_MATCH - 1) with 3.
  rewrite (Hm 3) by lia. rewrite Z.eqb_refl.
  rewrite (Load32_ext m m (inp .+ s) (inp .+ p))
    by (intros k Hk; rewrite !padd_padd; apply Hm; lia).
  rewrite Z.eqb_refl. cbn [andb]. cbv zeta.
  pose proof (match_len_spec inp m s p (in_len - p) (Z.to_nat (in_len - p - MIN_MATCH))
                MIN_MATCH) as Hml.
  cbv zeta in Hml.
  destruct Hml as ((Hge & Hle) & _ & Hstop);
    [unfold MIN_MATCH; lia | unfold MIN_MATCH; lia
     | intros k Hk; apply Hm; unfold MIN_MATCH in Hk; lia |].
  set (len := match_len inp _ m s p (in_len - p) MIN_MATCH) in *.
  assert (Hlen : 5 <= len).
  { unfold MIN_MATCH in Hge. destruct (Z.eq_dec len 4) as [E4 | ?]; [| lia].
    exfalso. apply Hstop; [lia |]. rewrite E4. apply Hm. lia. }
  destruct (Z.gtb_spec len 3); [| lia].
  assert (Hres : 5 <= fst (if len =? in_len - p then (len, p - s)
                           else search inp 1 m T p (in_len - p) (Max (p - WINDOW_SIZE) NIL)
                                  (tget T (Z.land s WINDOW_MASK)) len (p - s))).
  { destruct (len =? in_len - p); [cbn [fst]; lia |].
    pose proof (search_mono inp m T p (in_len - p) (Max (p - WINDOW_SIZE) NIL) 1
                  (tget T (Z.land s WINDOW_MASK)) len (p - s)). lia. }
  destruct (if len =? in_len - p then _ else _) as [bl d]. cbn [fst] in Hres.
  destruct (Z.eqb_spec bl MIN_MATCH) as [E | _]; [unfold MIN_MATCH in E; lia |].
  cbn [andb]. change (1 =? 9) with false. cbn [andb fst]. exact Hres.
Qed.

Lemma insert_n_S inp k m H T p :
  insert_n inp (S k) m H T p
  = insert_n inp k m (<[Hash32 m (inp .+ p) := p]> H)
      (<[Z.land p WINDOW_MASK := tget H (Hash32 m (inp .+ p))]> T) (p + 1).
Proof. reflexivity. Qed.

(** After a match is inserted, its last position heads its chain. *)
Lemma insert_n_last inp m n : forall H T p,
  tget (fst (fst (insert_n inp (S n) m H T p))) (Hash32 m (inp .+ (p + Z.of_nat n)))
  = p + Z.of_nat n.
Proof.
  induction n as [| n IH]; intros H T p.
  - rewrite insert_n_S. cbn [insert_n fst Z.of_nat]. rewrite Z.add_0_r. apply tget_insert_eq.
  - rewrite insert_n_S. replace (p + Z.of_nat (S n)) with (p + 1 + Z.of_nat n) by lia.
    apply IH.
Qed.

Lemma emit_literal_fields inp st :
  c_p (emit_literal inp st) = c_p st + 1
  /\ c_op (emit_literal inp st) = c_op st
  /\ c_Head (emit_literal inp st)
     = <[Hash32 (c_mem st) (inp .+ c_p st) := c_p st]> (c_Head st).
Proof. repeat split. Qed.

Lemma token_size_excess : token_size 16519 5 = 16525 /\ run_size 16519 = 16523.
Proof.
  unfold token_size, run_size. change (7 <=? 16519) with true.
  change (15 <=? 5 - MIN_MATCH) with false. change (16519 - 7) with 16512.
  destruct (varint_len_classes 16512 ltac:(lia)) as (_ & _ & _ & _ & Hlo & Hhi).
  specialize (Hlo ltac:(lia)). specialize (Hhi ltac:(lia)). lia.
Qed.

Section ExcessInput.
Variable m0 : memory.
Hypothesis Hm0 : forall i, 0 <= i < excess_len -> load8 m0 (pin .+ i) = excess_byte i.

Lemma excess_load st i :
  enc_inv pin excess_len pout m0 st -> 0 <= i < excess_len ->
  load8 (c_mem st) (pin .+ i) = excess_byte i.
Proof.
  intros (_ & _ & _ & Hfr & _) Hi. rewrite Hfr by (cbn; discriminate). apply Hm0, Hi.
Qed.

Lemma excess_hash st i :
  enc_inv pin excess_len pout m0 st ->
  Hash32 (c_mem st) (pin .+ i) = Hash32 m0 (pin .+ i).
Proof.
  intros (_ & _ & _ & Hfr & _). apply Hash32_ext. intros k _. apply Hfr. cbn. discriminate.
Qed.

(** Off the sixth-last byte of a block, the round emits a literal. *)
Lemma excess_literal st :
  excess_inv m0 st -> c_p st < excess_len -> c_p st mod 16524 < 16519 ->
  Compress_body pin excess_len 1 st = emit_literal pin st.
Proof.
  intros (Henc & _) Hlt Hj.
  pose proof Henc as ((Hr0 & Hrp) & _).
  destruct (Compress_body_cases pin excess_len pout 1 m0 st Henc Hlt)
    as [E | (bl & d & _ & _ & Hbl & Hd & _ & Hm & _)]; [exact E | exfalso].
  unfold MIN_MATCH in Hbl.
  apply (fresh_window (c_p st - d) (c_p st)); [lia | lia | lia |].
  intros c Hc. rewrite <- !(excess_load st) by (try exact Henc; lia).
  apply Hm. lia.
Qed.

(** There, it emits a match of five bytes. *)
Lemma excess_match st :
  excess_inv m0 st -> c_p st < excess_len -> c_p st mod 16524 = 16519 ->
  exists d, Compress_body pin excess_len 1 st = emit_match pin st 5 d /\ 0 <= d < 131072.
Proof.
  intros (Henc & _ & Hrun & _ & Hhead) Hlt Hj.
  pose proof Henc as ((Hr0 & Hrp) & HpN & Hbo & Hfr & Hch).
  assert (Hp5 : c_p st + 5 < excess_len)
    by (unfold excess_len in *; Z.div_mod_to_equations; lia).
  assert (Hp0 : 0 < c_p st) by (Z.div_mod_to_equations; lia).
  assert (Hmk : forall c, -1 <= c <= 4 ->
            load8 (c_mem st) (pin .+ (c_p st + c)) = 200 + c_p st / 16524).
  { intros c Hc. rewrite (excess_load st) by (try exact Henc; lia). apply mark_bytes; lia. }
  assert (Hlow : 5 <= fst (find_match pin excess_len 1 (c_mem st) (c_Head st) (c_Tail st)
                             (c_run st) (c_p st))).
  { apply (find_match_lower _ _ _ _ _ _ _ (c_p st - 1)).
    - transitivity (tget (c_Head st) (Hash32 m0 (pin .+ (c_p st - 1))));
        [| exact (Hhead Hp0)].
      f_equal. rewrite <- (excess_hash st _ Henc). unfold Hash32.
      rewrite (Load32_ext (c_mem st) (c_mem st) (pin .+ c_p st) (pin .+ (c_p st - 1)));
        [reflexivity |].
      intros k Hk. rewrite !padd_padd.
      replace (c_p st - 1 + k) with (c_p st + (k - 1)) by lia.
      rewrite !Hmk by lia. reflexivity.
    - rewrite Max_spec. change WINDOW_SIZE with 131072. unfold NIL. lia.
    - lia.
    - intros k Hk. replace (c_p st - 1 + k) with (c_p st + (k - 1)) by lia.
      rewrite !Hmk by lia. reflexivity. }
  assert (Hp0' : 0 <= c_p st) by lia.
  pose proof (find_match_spec pin excess_len 1 (c_mem st) (c_Head st) (c_Tail st)
                (c_run st) (c_p st) Hp0'
                (chain_ok_head _ _ _ _ _ Hp0' Hch) (chain_ok_tail _ _ _ _ _ Hch)) as Hsp.
  cbv zeta in Hsp. unfold Compress_body.
  destruct (find_match pin excess_len 1 (c_mem st) (c_Head st) (c_Tail st)
              (c_run st) (c_p st)) as [bl d].
  cbn [fst snd] in Hlow, Hsp.
  destruct Hsp as [Hsmall | (Hbl & Hd & HdW & Hm & _)]; [unfold MIN_MATCH in Hsmall; lia |].
  assert (Hd1 : c_p st - d = c_p st - 1).
  { apply mark_first; [lia | exact Hj |].
    rewrite <- (excess_load st) by (try exact Henc; lia).
    pose proof (Hm 0 ltac:(lia)) as E. rewrite !Z.add_0_r in E. rewrite E.
    rewrite <- (Z.add_0_r (c_p st)) at 1. apply Hmk. lia. }
  assert (Hbl5 : bl = 5).
  { destruct (Z_le_gt_dec bl 5); [lia | exfalso].
    pose proof (Hm 5 ltac:(lia)) as E. rewrite Hd1 in E.
    replace (c_p st - 1 + 5) with (c_p st + 4) in E by lia.
    rewrite Hmk in E by lia. rewrite (excess_load st) in E by (try exact Henc; lia).
    pose proof (mark_end (c_p st) ltac:(lia) Hj).
    assert (0 <= c_p st / 16524) by (Z.div_mod_to_equations; lia). lia. }
  subst bl. change (5 >=? MIN_MATCH) with true. cbv iota.
  exists d. split; [reflexivity | change WINDOW_SIZE with 131072 in HdW; lia].
Qed.

Lemma excess_step st :
  excess_inv m0 st -> c_p st < excess_len ->
  excess_inv m0 (Compress_body pin excess_len 1 st)
  /\ c_p st < c_p (Compress_body pin excess_len 1 st).
Proof.
  intros Hinv Hlt.
  assert (Hio : blk pin <> blk pout) by discriminate.
  destruct (Compress_body_inv pin excess_len pout 1 m0 st Hio (proj1 Hinv) Hlt)
    as [Henc' Hprog].
  split; [| exact Hprog].
  pose proof Hinv as (Henc & Hj & Hrun & Hop & Hhead).
  pose proof Henc as ((Hr0 & Hrp) & HpN & Hbo & Hfr & Hch).
  destruct (Z.eq_dec (c_p st mod 16524) 16519) as [Hmark | Hlit].
  - destruct (excess_match st Hinv Hlt Hmark) as (d & E & Hd).
    rewrite E in Henc' |- *.
    pose proof (emit_match_spec pin st 5 d) as Hsp. cbv zeta in Hsp.
    destruct Hsp as (Eop & Erun & Ep & _ & _ & Eins);
      [rewrite Hbo; discriminate | lia | unfold MIN_MATCH; lia | exact Hd |].
    split; [exact Henc' |]. rewrite Erun, Ep, Eop. cbn [off padd].
    rewrite Hrun, Hmark. rewrite (proj1 token_size_excess).
    split; [Z.div_mod_to_equations; lia |].
    split; [Z.div_mod_to_equations; lia |].
    split; [Z.div_mod_to_equations; lia |].
    intros _.
    pose proof (insert_n_last pin (c_mem (emit_match pin st 5 d)) 4
                  (c_Head st) (c_Tail st) (c_p st)) as Hl.
    change (Z.to_nat 5) with 5%nat in Eins. rewrite <- Eins in Hl.
    cbn [fst] in Hl. change (Z.of_nat 4) with 4 in Hl.
    replace (c_p st + 5 - 1) with (c_p st + 4) by lia.
    rewrite <- (excess_hash _ _ Henc'). exact Hl.
  - rewrite (excess_literal st Hinv Hlt ltac:(lia)) in Henc' |- *.
    destruct (emit_literal_fields pin st) as (Ep & Eop & EH).
    split; [exact Henc' |]. rewrite emit_literal_run, Ep, Eop, EH.
    split; [Z.div_mod_to_equations; lia |].
    split; [Z.div_mod_to_equations; lia |].
    split; [rewrite Hop; f_equal; Z.div_mod_to_equations; lia |].
    intros _. replace (c_p st + 1 - 1) with (c_p st) by lia.
    rewrite <- (excess_hash st _ Henc). apply tget_insert_eq.
Qed.

Lemma Compress_excess :
  exists m', Compress pin excess_len pout 1 fresh m0 = Some (excess_len + 17, m').
Proof.
  destruct (Compress_loop_rule pin excess_len 1 (excess_inv m0) excess_step
              (Z.to_nat excess_len) (Compress_init pout fresh m0))
    as (st & Hloop & (Henc & Hj & Hrun & Hop & _) & Hge).
  - split; [apply Compress_init_inv; unfold excess_len; lia |].
    unfold Compress_init. cbn [c_p c_run c_op].
    change (0 mod 16524) with 0. change (0 / 16524) with 0.
    repeat split; lia.
  - unfold Compress_init. cbn [c_p]. unfold excess_len. lia.
  - pose proof Henc as ((Hr0 & Hrp) & HpN & Hbo & _).
    assert (Ep : c_p st = excess_len) by lia.
    unfold Compress, Compress_run. rewrite Hloop.
    eexists. f_equal. f_equal.
    rewrite flush_tail_size by (rewrite ?Hbo; try discriminate; lia).
    rewrite Hrun, Ep in *. unfold excess_len in *.
    change ((13 * 16524 + 16519) mod 16524) with 16519 in *.
    change ((13 * 16524 + 16519) / 16524) with 13 in *.
    change (16519 =? 0) with false. cbv iota.
    rewrite (proj2 token_size_excess). lia.
Qed.
End ExcessInput.

Lemma store_bytes_other l : forall m p q,
  (blk q = blk p -> off q < off p) -> load8 (store_bytes m p l) q = load8 m q.
Proof.
  induction l as [| b l IH]; intros m p q Hq; cbn [store_bytes]; [reflexivity |].
  rewrite IH by (cbn [blk off padd]; intros E; specialize (Hq E); lia).
  apply load8_store8_ne. intros ->. specialize (Hq eq_refl). lia.
Qed.

Lemma store_bytes_load l : forall m p i,
  (i < length l)%nat ->
  load8 (store_bytes m p l) (p .+ Z.of_nat i) = u8 (nth i l x00).
Proof.
  induction l as [| b l IH]; intros m p i Hi; cbn [length] in Hi; [lia |].
  cbn [store_bytes]. destruct i as [| i].
  - cbn [Z.of_nat nth]. rewrite padd_0.
    rewrite store_bytes_other by (cbn [blk off padd]; lia).
    rewrite load8_store8_eq. apply land255_small. apply u8_range.
  - replace (p .+ Z.of_nat (S i)) with (p .+ 1 .+ Z.of_nat i) by (rewrite padd_padd; f_equal; lia).
    cbn [nth]. apply IH. lia.
Qed.

Lemma excess_mem_load i :
  0 <= i < excess_len -> load8 excess_mem (pin .+ i) = excess_byte i.
Proof.
  intros Hi. unfold excess_mem.
  replace i with (Z.of_nat (Z.to_nat i)) at 1 by lia.
  assert (Hlen : (Z.to_nat i < Z.to_nat excess_len)%nat) by lia.
  rewrite store_bytes_load by (unfold excess_input; rewrite length_map, length_seq; exact Hlen).
  unfold excess_input.
  rewrite (nth_indep _ x00 (to_u8 (excess_byte (Z.of_nat 0))))
    by (rewrite length_map, length_seq; exact Hlen).
  rewrite (map_nth (fun i => to_u8 (excess_byte (Z.of_nat i)))).
  rewrite seq_nth by exact Hlen. cbn [Nat.add].
  rewrite Z2Nat.id by lia. rewrite u8_to_u8. apply land255_small.
  apply excess_byte_range. unfold excess_len in Hi. lia.
Qed.


(** * Further properties of the code *)

(** ** Empty inputs *)

(** X1.  With [in_len <= 0] the loop of [Compress] does not run and there is
    no pending run to flush: it returns 0 and stores nothing, whatever the
    level, the buffers and the state of the object. *)
Theorem Compress_empty (inp : ptr) (n : Z) (out : ptr) (level : Z) (self : CULZ) (m : memory) :
  n <= 0 -> Compress inp n out level self m = Some (0, m).
Proof.
  intros Hn. unfold Compress, Compress_run.
  assert (E : Compress_loop inp n level (Z.to_nat n) (Compress_init out self m)
              = Some (Compress_init out self m)).
  { destruct (Z.to_nat n); cbn [Compress_loop]; unfold Compress_init; cbn [c_p];
      destruct (Z.ltb_spec 0 n); try lia; reflexivity. }
  rewrite E. unfold flush_tail, Compress_init. cbn [c_run c_op c_mem negb Z.eqb].
  rewrite Z.sub_diag. reflexivity.
Qed.

Lemma Compress_empty_witness :
  Compress pin 0 pout 4 fresh (store_bytes empty_memory pin [x61]) =
  Some (0, store_bytes empty_memory pin [x61]).
Proof. apply Compress_empty. lia. Defined.

(** X2.  On an empty stream the loop of [Decompress] does not run: it
    returns 0 and stores nothing, and the capacity is not looked at. *)
Theorem Decompress_empty (inp out : ptr) (cap : Z) (m : memory) :
  Decompress inp 0 out cap m = Some (0, m).
Proof.
  unfold Decompress. change (Z.to_nat 0) with 0%nat. cbn [Decompress_loop d_ip].
  unfold ip_end. cbn [off padd]. rewrite Z.add_0_r, Z.ltb_irrefl.
  unfold Decompress_return, ip_end. cbn [d_ip d_op d_mem off padd].
  rewrite Z.add_0_r, Z.eqb_refl, Z.sub_diag. reflexivity.
Qed.

(** ** The tables and the varint decoder *)

(** X3.  Every index [Compress] uses is inside its table: [Hash32] is below
    [HASH_SIZE], the size of [Head], and [p & WINDOW_MASK] is below
    [WINDOW_SIZE], the size of [Tail]. *)
Theorem table_index_bounds (m : memory) (q : ptr) (p : Z) :
  0 <= Hash32 m q < HASH_SIZE /\ 0 <= Z.land p WINDOW_MASK < WINDOW_SIZE.
Proof.
  split; [apply Hash32_range |].
  change WINDOW_MASK with (Z.ones 17). rewrite Z.land_ones by lia.
  change WINDOW_SIZE with (2 ^ 17). apply Z.mod_pos_bound. lia.
Qed.

(** X4.  Whatever the memory holds, [DecodeMod] returns a 32-bit value and
    advances its pointer by at least one and at most five bytes: a fifth
    byte ends the number even if it is 128 or more. *)
Theorem DecodeMod_consumes (m : memory) (p : ptr) :
  0 <= fst (DecodeMod m p) < 2 ^ 32
  /\ blk (snd (DecodeMod m p)) = blk p
  /\ off p + 1 <= off (snd (DecodeMod m p)) <= off p + 5.
Proof. exact (DecodeMod_range m p). Qed.

(** ** WildCopy and the byte loop *)

(** X5.  Between two buffers, [WildCopy(d, s, n)] copies [n] rounded up to
    a multiple of 8, and 8 bytes when [n <= 8] (also for [n <= 0]), and
    stores nowhere else. *)
Theorem WildCopy_separate (m : memory) (d s : ptr) (n : Z) :
  blk d <> blk s ->
  let k := if 8 <? n then 8 * ((n + 7) / 8) else 8 in
  (forall i, 0 <= i < k -> load8 (WildCopy m d s n) (d .+ i) = load8 m (s .+ i))
  /\ unchanged_but m (WildCopy m d s n) (blk d) (off d) (off d + k).
Proof.
  intros Hb k. split.
  - intros i Hi. apply WildCopy_cross; [exact Hb | exact Hi].
  - apply WildCopy_unchanged. left. exact Hb.
Qed.

Lemma WildCopy_separate_witness :
  let m := store_bytes empty_memory pin [x61; x62; x63] in
  let k := if 8 <? 3 then 8 * ((3 + 7) / 8) else 8 in
  (forall i, 0 <= i < k -> load8 (WildCopy m pout pin 3) (pout .+ i) = load8 m (pin .+ i))
  /\ unchanged_but m (WildCopy m pout pin 3) (blk pout) (off pout) (off pout + k).
Proof.
  intros m. apply (WildCopy_separate m pout pin 3). discriminate.
Defined.

Lemma byte_copy_before n : forall m op cp q,
  (blk q = blk op -> off q < off op) ->
  load8 (fst (byte_copy n m op cp)) q = load8 m q.
Proof.
  intros m op cp q Hq. apply (byte_copy_unchanged n m op cp).
  intros [Hb Ho]. specialize (Hq Hb). lia.
Qed.

(** X6.  The byte loop [while (len--) *op++=*cp++;] started with
    [cp = op - d] for a distance [d >= 1] leaves every byte it stored equal
    to the byte [d] places before it, also where source and destination
    overlap ([d = 1] repeats one byte), and leaves what is before [op] as it
    was. *)
Theorem byte_loop_overlap (n : nat) (m : memory) (op : ptr) (d : Z) :
  1 <= d ->
  (forall k, 0 <= k < Z.of_nat n ->
     load8 (fst (byte_copy n m op (op .+ - d))) (op .+ k)
     = load8 (fst (byte_copy n m op (op .+ - d))) (op .+ (k - d)))
  /\ (forall q, (blk q = blk op -> off q < off op) ->
        load8 (fst (byte_copy n m op (op .+ - d))) q = load8 m q).
Proof.
  intros Hd. split; [| intros q Hq; apply byte_copy_before; exact Hq].
  revert m op. induction n as [| n IH]; intros m op k Hk; [simpl in Hk; lia |].
  cbn [byte_copy].
  replace (op .+ - d .+ 1) with (op .+ 1 .+ - d) by ptr_eq.
  destruct (Z.eq_dec k 0) as [-> | Hk0].
  - rewrite padd_0.
    rewrite !byte_copy_before by (cbn [blk off padd]; lia).
    rewrite load8_store8_eq.
    rewrite load8_store8_ne by (apply ptr_ne_off; cbn [off padd]; lia).
    apply land255_small. apply load8_range.
  - replace (op .+ k) with (op .+ 1 .+ (k - 1)) by ptr_eq.
    replace (op .+ (k - d)) with (op .+ 1 .+ (k - 1 - d)) by ptr_eq.
    apply IH. lia.
Qed.

Lemma byte_loop_overlap_witness :
  let m := store_bytes empty_memory pout [x61] in
  (forall k, 0 <= k < Z.of_nat 5 ->
     load8 (fst (byte_copy 5 m (pout .+ 1) (pout .+ 1 .+ - 1))) (pout .+ 1 .+ k)
     = load8 (fst (byte_copy 5 m (pout .+ 1) (pout .+ 1 .+ - 1))) (pout .+ 1 .+ (k - 1)))
  /\ (forall q, (blk q = blk (pout .+ 1) -> off q < off (pout .+ 1)) ->
        load8 (fst (byte_copy 5 m (pout .+ 1) (pout .+ 1 .+ - 1))) q = load8 m q).
Proof.
  intros m. apply (byte_loop_overlap 5 m (pout .+ 1) 1). lia.
Defined.

(** ** The tag and the distance *)

(** X7.  A distance below 2^17 survives the encoding: [Compress] puts bit
    16 of [dist] in bit 4 of the tag, beside [Min(len, 15)], and stores the
    low 16 bits with [UnalignedStore16]; [Decompress] reads
    [((tag & 16) << 12) + UnalignedLoad16(ip)] and [tag & 15]. *)
Theorem dist_encoding_roundtrip (m : memory) (p : ptr) (dist len : Z) :
  0 <= dist < 131072 -> 0 <= len ->
  let tag := Z.land (Z.shiftr dist 12) 16 + Min len 15 in
  0 <= tag < 32
  /\ Z.shiftl (Z.land tag 16) 12 + UnalignedLoad16 (UnalignedStore16 m p dist) p = dist
  /\ Z.land tag 15 = Min len 15.
Proof.
  intros Hd Hl tag. subst tag. rewrite Min_spec, dist_bit by exact Hd.
  assert (Hb : 0 <= dist / 65536 <= 1) by (Z.div_mod_to_equations; lia).
  set (t := 16 * (dist / 65536) + Z.min len 15).
  assert (Ht : 0 <= t < 32) by lia.
  destruct (tag_fields t ltac:(lia)) as (E15 & E16 & _).
  split; [exact Ht |]. rewrite E15, E16. split.
  - pose proof (Store16_bytes m p dist) as Hs.
    unfold UnalignedLoad16.
    pose proof (Hs 0 ltac:(simpl; lia)) as B0. pose proof (Hs 1 ltac:(simpl; lia)) as B1.
    rewrite padd_0 in B0. cbn [nth Z.to_nat Pos.to_nat Pos.iter_op Nat.add] in B0, B1.
    rewrite B0, B1.
    replace ((t / 16) mod 2) with (dist / 65536) by (subst t; Z.div_mod_to_equations; lia).
    apply dist_roundtrip. exact Hd.
  - subst t. Z.div_mod_to_equations. lia.
Qed.

Lemma dist_encoding_roundtrip_witness :
  let tag := Z.land (Z.shiftr 70000 12) 16 + Min 20 15 in
  0 <= tag < 32
  /\ Z.shiftl (Z.land tag 16) 12
     + UnalignedLoad16 (UnalignedStore16 empty_memory pout 70000) pout = 70000
  /\ Z.land tag 15 = Min 20 15.
Proof.
  apply (dist_encoding_roundtrip empty_memory pout 70000 20); lia.
Defined.

(** ** What Compress stores, and what a round does *)

Lemma flush_tail_frame inp st :
  blk (c_op st) <> blk inp -> 0 <= c_run st ->
  unchanged_but (c_mem st) (c_mem (flush_tail inp st)) (blk (c_op st)) (off (c_op st))
    (off (c_op (flush_tail inp st)) + 8).
Proof.
  intros Hb Hr. unfold flush_tail. destruct (Z.eqb_spec (c_run st) 0); cbn [negb].
  - apply unchanged_but_refl.
  - destruct (emit_run_spec inp (c_mem st) (c_op st) (c_run st) (c_p st) 0 Hb Hr)
      as (Hp & _ & Hu); [lia |].
    destruct (emit_run inp (c_mem st) (c_op st) (c_run st) (c_p st) 0) as [m1 op1].
    cbn [fst snd c_op c_mem] in *. rewrite Hp. cbn [off padd]. exact Hu.
Qed.

Lemma emit_literal_mem inp st : c_mem (emit_literal inp st) = c_mem st.
Proof. reflexivity. Qed.

(** X8.  [Compress] returns a length [r >= 0] and stores only to the output
    buffer, from its start up to eight bytes after the [r] bytes of the
    stream (the tail of the last [WildCopy]); the input and everything else
    are left as they were. *)
Theorem Compress_frame (inp : ptr) (n : Z) (out : ptr) (level : Z) (self : CULZ) (m : memory) :
  blk inp <> blk out -> 0 <= n <= 2147221504 ->
  exists r m',
    Compress inp n out level self m = Some (r, m')
    /\ 0 <= r
    /\ unchanged_but m m' (blk out) (off out) (off out + r + 8).
Proof.
  intros Hio [Hn _]. unfold Compress, Compress_run.
  destruct (Compress_loop_rule inp n level
              (fun st => enc_inv inp n out m st
                         /\ unchanged_but m (c_mem st) (blk out) (off out) (off (c_op st) + 8)
                         /\ off out <= off (c_op st)))
    with (fuel := Z.to_nat n) (st := Compress_init out self m)
    as (st & Hloop & (Henc & Hun & Hop) & _).
  - intros st (Henc & Hun & Hop) Hlt.
    destruct (Compress_body_inv inp n out level m st Hio Henc Hlt) as [Henc' Hprog].
    split; [| exact Hprog]. split; [exact Henc' |].
    pose proof Henc as ((Hr0 & Hrp) & HpN & Hbo & _).
    destruct (Compress_body_cases inp n out level m st Henc Hlt)
      as [E | (bl & d & E & _ & Hbl & Hd & HdW & _)]; rewrite E.
    + rewrite emit_literal_mem. destruct (emit_literal_fields inp st) as (_ & Eop & _).
      rewrite Eop. split; assumption.
    + pose proof (emit_match_spec inp st bl d) as Hsp. cbv zeta in Hsp.
      destruct Hsp as (Eop & _ & _ & _ & Hu & _);
        [rewrite Hbo; congruence | lia | lia | change WINDOW_SIZE with 131072 in HdW; lia |].
      pose proof (token_size_pos (c_run st) bl Hr0).
      rewrite Eop. cbn [off padd]. split; [| lia].
      rewrite Hbo in Hu.
      apply (unchanged_but_trans m (c_mem st) _ _ _ _ _ _ _ _ Hun Hu); lia.
  - split; [apply Compress_init_inv; exact Hn |].
    unfold Compress_init. cbn [c_mem c_op]. split; [apply unchanged_but_refl | lia].
  - unfold Compress_init. cbn [c_p]. lia.
  - rewrite Hloop. pose proof Henc as ((Hr0 & Hrp) & HpN & Hbo & _).
    assert (Hb : blk (c_op st) <> blk inp) by (rewrite Hbo; congruence).
    pose proof (flush_tail_frame inp st Hb Hr0) as Hf.
    pose proof (flush_tail_size inp st Hb Hr0) as Hs.
    assert (Hrs : 0 <= (if c_run st =? 0 then 0 else run_size (c_run st))).
    { destruct (c_run st =? 0); [lia |]. unfold run_size.
      destruct (7 <=? c_run st); [pose proof (varint_len_bounds (c_run st - 7)) |]; lia. }
    eexists _, _. split; [reflexivity |]. split; [lia |].
    rewrite Hbo in Hf.
    apply (unchanged_but_trans m (c_mem st) _ _ _ _ _ _ _ _ Hun Hf); lia.
Qed.

Lemma Compress_frame_witness :
  exists r m',
    Compress pin 3 pout 4 fresh (store_bytes empty_memory pin [x61; x62; x63]) = Some (r, m')
    /\ 0 <= r
    /\ unchanged_but (store_bytes empty_memory pin [x61; x62; x63]) m'
         (blk pout) (off pout) (off pout + r + 8).
Proof.
  apply (Compress_frame pin 3 pout 4 fresh (store_bytes empty_memory pin [x61; x62; x63])).
  - discriminate.
  - lia.
Defined.

(** X9.  Every round of the loop of [Compress] either emits one literal or
    emits a match that obeys the format: at least [MIN_MATCH] bytes, all of
    them inside the input, at a distance of at least 1, at most [p] and below
    [WINDOW_SIZE], and the bytes at that distance are those at [p].  The
    position advances and does not pass [in_len]. *)
Theorem Compress_round
    (inp : ptr) (n : Z) (out : ptr) (level : Z) (self : CULZ) (m0 : memory) (st : cstate) :
  blk inp <> blk out -> 0 <= n ->
  loop_state inp n out level self m0 st -> c_p st < n ->
  (Compress_body inp n level st = emit_literal inp st
   \/ exists bl d,
        Compress_body inp n level st = emit_match inp st bl d
        /\ MIN_MATCH <= bl <= n - c_p st /\ 1 <= d <= c_p st /\ d < WINDOW_SIZE
        /\ matches m0 inp (c_p st - d) (c_p st) bl)
  /\ c_p st < c_p (Compress_body inp n level st) <= n.
Proof.
  intros Hio Hn Hst Hlt.
  pose proof (loop_state_inv _ _ _ _ _ _ _ Hio Hn Hst) as Henc.
  destruct (Compress_body_inv inp n out level m0 st Hio Henc Hlt) as [Henc' Hprog].
  split; [| destruct Henc' as (_ & ? & _); lia].
  destruct (Compress_body_cases inp n out level m0 st Henc Hlt)
    as [E | (bl & d & E & _ & Hbl & Hd & HdW & Hm & _)]; [left; exact E | right].
  exists bl, d. repeat split; try assumption; try lia.
  destruct Henc as (_ & _ & _ & Hfr & _).
  apply (matches_ext (c_mem st)); [| exact Hm].
  intros q Hq. apply Hfr. congruence.
Qed.

Lemma Compress_round_witness :
  let m0 := store_bytes empty_memory pin [x61; x61; x61; x61; x61] in
  let st := Compress_init pout fresh m0 in
  (Compress_body pin 5 1 st = emit_literal pin st
   \/ exists bl d,
        Compress_body pin 5 1 st = emit_match pin st bl d
        /\ MIN_MATCH <= bl <= 5 - c_p st /\ 1 <= d <= c_p st /\ d < WINDOW_SIZE
        /\ matches m0 pin (c_p st - d) (c_p st) bl)
  /\ c_p st < c_p (Compress_body pin 5 1 st) <= 5.
Proof.
  intros m0 st.
  apply (Compress_round pin 5 pout 1 fresh m0 st).
  - discriminate.
  - lia.
  - apply loop_init.
  - reflexivity.
Defined.

(** ** The length of a varint *)

(** X10.  [EncodeMod] stores one byte for a value below 128, two below
    16512, three below 2113664, four below 270549120 and five above, and
    nothing outside the bytes it advances over. *)
Theorem EncodeMod_length (m : memory) (p : ptr) (x : Z) :
  0 <= x < 2 ^ 32 ->
  let k := if x <? 128 then 1 else if x <? 16512 then 2
           else if x <? 2113664 then 3 else if x <? 270549120 then 4 else 5 in
  snd (EncodeMod m p x) = p .+ k
  /\ unchanged_but m (fst (EncodeMod m p x)) (blk p) (off p) (off p + k).
Proof.
  intros Hx k.
  destruct (EncodeMod_spec m p x) as (Hp & _ & Hu).
  assert (Hk : varint_len x = k).
  { subst k. unfold varint_len, varint. rewrite u32_small by exact Hx.
    change (2 ^ 32) with 4294967296 in Hx.
    cbn [enc_bytes]. rewrite !Z.shiftr_div_pow2 by lia. change (2 ^ 7) with 128.
    destruct (Z.ltb_spec x 128); destruct (Z.leb_spec 128 x); try lia; [reflexivity |].
    destruct (Z.ltb_spec x 16512); destruct (Z.leb_spec 128 ((x - 128) / 128));
      try (Z.div_mod_to_equations; lia); [reflexivity |].
    destruct (Z.ltb_spec x 2113664);
      destruct (Z.leb_spec 128 (((x - 128) / 128 - 128) / 128));
      try (Z.div_mod_to_equations; lia); [reflexivity |].
    destruct (Z.ltb_spec x 270549120);
      destruct (Z.leb_spec 128 ((((x - 128) / 128 - 128) / 128 - 128) / 128));
      try (Z.div_mod_to_equations; lia); reflexivity. }
  rewrite <- Hk. split; assumption.
Qed.

Lemma EncodeMod_length_witness :
  let k := if 16512 <? 128 then 1 else if 16512 <? 16512 then 2
           else if 16512 <? 2113664 then 3 else if 16512 <? 270549120 then 4 else 5 in
  snd (EncodeMod empty_memory pout 16512) = pout .+ k
  /\ unchanged_but empty_memory (fst (EncodeMod empty_memory pout 16512))
       (blk pout) (off pout) (off pout + k).
Proof. apply (EncodeMod_length empty_memory pout 16512). lia. Defined.

(** ** Input without a repeated four-byte sequence *)

(** X11.  If no four bytes of the input occur again later in it, [Compress]
    finds no match at any level: the stream is one run, the tag [Min(n,7)<<5],
    the varint of [n - 7] when [n >= 7], and the [n] bytes of the input; the
    returned length is the length of that run. *)
Theorem Compress_stores_unrepeated
    (inp : ptr) (n : Z) (out : ptr) (level : Z) (self : CULZ) (m : memory) :
  blk inp <> blk out -> 1 <= n <= 2147221504 ->
  (forall s u, 0 <= s < u -> u + MIN_MATCH <= n -> ~ matches m inp s u MIN_MATCH) ->
  exists m',
    Compress inp n out level self m
    = Some (1 + (if 7 <=? n then varint_len (n - 7) else 0) + n, m')
    /\ bytes_at m' out
         ((Z.shiftl (Z.min n 7) 5 :: (if 7 <=? n then varint (n - 7) else []))
          ++ in_bytes m inp 0 n).
Proof.
  intros Hio Hn Hfresh. unfold Compress, Compress_run.
  destruct (Compress_loop_rule inp n level
              (fun st => enc_inv inp n out m st /\ c_run st = c_p st
                         /\ c_op st = out /\ c_mem st = m))
    with (fuel := Z.to_nat n) (st := Compress_init out self m)
    as (st & Hloop & (Henc & Hrun & Hop & Hmem) & Hge).
  - intros st (Henc & Hrun & Hop & Hmem) Hlt.
    destruct (Compress_body_inv inp n out level m st Hio Henc Hlt) as [Henc' Hprog].
    split; [| exact Hprog]. split; [exact Henc' |].
    destruct (Compress_body_cases inp n out level m st Henc Hlt)
      as [E | (bl & d & _ & _ & Hbl & Hd & _ & Hm & _)].
    + rewrite E. rewrite emit_literal_run, emit_literal_mem.
      destruct (emit_literal_fields inp st) as (Ep & Eop & _).
      rewrite Ep, Eop. repeat split; [lia | assumption | assumption].
    + exfalso. apply (Hfresh (c_p st - d) (c_p st)); [lia | lia |].
      rewrite <- Hmem. intros k Hk. apply Hm. lia.
  - split; [apply Compress_init_inv; lia |]. unfold Compress_init.
    cbn [c_run c_p c_op c_mem]. repeat split.
  - unfold Compress_init. cbn [c_p]. lia.
  - rewrite Hloop. pose proof Henc as ((Hr0 & Hrp) & HpN & Hbo & _).
    assert (Ep : c_p st = n) by lia.
    unfold flush_tail. rewrite Hrun, Ep, Hop, Hmem.
    destruct (Z.eqb_spec n 0); [lia |]. cbn [negb].
    assert (Hb : blk out <> blk inp) by congruence.
    destruct (emit_run_spec inp m out n n 0 Hb ltac:(lia) ltac:(lia)) as (Hp & Hby & _).
    destruct (emit_run inp m out n n 0) as [m1 op1]. cbn [fst snd c_op c_mem] in *.
    exists m1. split.
    + rewrite Hp. cbn [off padd]. unfold run_size. f_equal. f_equal. lia.
    + rewrite Z.sub_diag in Hby. unfold run_bytes in Hby. rewrite Z.add_0_r in Hby.
      exact Hby.
Qed.

Lemma Compress_stores_unrepeated_witness :
  exists m',
    Compress pin 5 pout 4 fresh (store_bytes empty_memory pin [x61; x62; x63; x64; x65])
    = Some (1 + (if 7 <=? 5 then varint_len (5 - 7) else 0) + 5, m')
    /\ bytes_at m' pout
         ((Z.shiftl (Z.min 5 7) 5 :: (if 7 <=? 5 then varint (5 - 7) else []))
          ++ in_bytes (store_bytes empty_memory pin [x61; x62; x63; x64; x65]) pin 0 5).
Proof.
  apply (Compress_stores_unrepeated pin 5 pout 4 fresh
           (store_bytes empty_memory pin [x61; x62; x63; x64; x65])).
  - discriminate.
  - lia.
  - intros s u Hs Hu Hm. unfold MIN_MATCH in Hu, Hm.
    assert (s = 0) by lia. assert (u = 1) by lia. subst s u.
    specialize (Hm 0 ltac:(lia)). vm_compute in Hm. discriminate Hm.
Defined.

(** ** Levels *)

Lemma find_match_level inp n level m H T run p :
  8 <= level -> level <> 9 ->
  find_match inp n level m H T run p = find_match inp n 8 m H T run p.
Proof.
  intros H8 H9. unfold find_match, max_chain.
  destruct (Z.ltb_spec level 8); [lia |]. destruct (Z.eqb_spec level 9); [lia |].
  reflexivity.
Qed.

Lemma Compress_loop_level inp n level fuel :
  8 <= level -> level <> 9 ->
  forall st, Compress_loop inp n level fuel st = Compress_loop inp n 8 fuel st.
Proof.
  intros H8 H9. induction fuel as [| f IH]; intros st; cbn [Compress_loop]; [reflexivity |].
  destruct (c_p st <? n); [| reflexivity]. rewrite IH. f_equal.
  unfold Compress_body. rewrite find_match_level by assumption. reflexivity.
Qed.

(** X12.  A level above 9 is level 8: the chain walk is as long as the
    window and there is no lookahead, which only level 9 has. *)
Theorem Compress_level_above_9
    (inp : ptr) (n : Z) (out : ptr) (level : Z) (self : CULZ) (m : memory) :
  9 < level ->
  Compress inp n out level self m = Compress inp n out 8 self m.
Proof.
  intros Hl. unfold Compress, Compress_run.
  rewrite Compress_loop_level by lia. reflexivity.
Qed.

Lemma Compress_level_above_9_witness :
  Compress pin 3 pout 12 fresh (store_bytes empty_memory pin [x61; x62; x63])
  = Compress pin 3 pout 8 fresh (store_bytes empty_memory pin [x61; x62; x63]).
Proof. apply Compress_level_above_9. lia. Defined.

(** ** The state of the object *)

Lemma probe_S inp c m T j target_len best_len limit s :
  probe inp (S c) m T j target_len best_len limit s =
  if s >? limit then
    if (load8 m (inp .+ (s + best_len)) =? load8 m (inp .+ (j + best_len)))
       && (UnalignedLoad32 m (inp .+ s) =? UnalignedLoad32 m (inp .+ j))
       && (match_len inp (Z.to_nat (target_len - MIN_MATCH)) m s j target_len MIN_MATCH
           =? target_len)
    then true
    else probe inp c m T j target_len best_len limit (tget T (Z.land s WINDOW_MASK))
  else false.
Proof. reflexivity. Qed.

Lemma search_agree inp m T1 T2 p mm limit :
  p - WINDOW_SIZE <= limit -> -1 <= limit -> tail_ok T1 p ->
  (forall s, 0 <= s -> p - WINDOW_SIZE <= s < p ->
     tget T1 (Z.land s WINDOW_MASK) = tget T2 (Z.land s WINDOW_MASK)) ->
  forall c s bl d, s < p ->
  search inp c m T2 p mm limit s bl d = search inp c m T1 p mm limit s bl d.
Proof.
  intros Hlim Hl1 Hok HT. induction c as [| c IH]; intros s bl d Hs; [reflexivity |].
  rewrite !search_S. destruct (Z.gtb_spec s limit) as [Hgt | _]; [| reflexivity].
  rewrite <- (HT s) by lia.
  assert (Hnext : tget T1 (Z.land s WINDOW_MASK) < p)
    by (pose proof (Hok s ltac:(lia) ltac:(lia)); lia).
  destruct (_ && _); [| apply IH; exact Hnext]. cbv zeta.
  destruct (_ >? bl); [| apply IH; exact Hnext].
  destruct (_ =? mm); [reflexivity | apply IH; exact Hnext].
Qed.

Lemma probe_agree inp m T1 T2 p j tl bl limit :
  p - WINDOW_SIZE <= limit -> -1 <= limit -> tail_ok T1 p ->
  (forall s, 0 <= s -> p - WINDOW_SIZE <= s < p ->
     tget T1 (Z.land s WINDOW_MASK) = tget T2 (Z.land s WINDOW_MASK)) ->
  forall c s, s < p ->
  probe inp c m T2 j tl bl limit s = probe inp c m T1 j tl bl limit s.
Proof.
  intros Hlim Hl1 Hok HT. induction c as [| c IH]; intros s Hs; [reflexivity |].
  rewrite !probe_S. destruct (Z.gtb_spec s limit) as [Hgt | _]; [| reflexivity].
  rewrite <- (HT s) by lia.
  assert (Hnext : tget T1 (Z.land s WINDOW_MASK) < p)
    by (pose proof (Hok s ltac:(lia) ltac:(lia)); lia).
  destruct (_ && _); [reflexivity | apply IH; exact Hnext].
Qed.

Lemma lookahead_agree inp level m H1 T1 H2 T2 p :
  tables_agree p H1 T1 H2 T2 -> head_ok H1 p -> tail_ok T1 p ->
  forall n bl i, 0 <= i ->
  lookahead inp level n m H2 T2 p bl i = lookahead inp level n m H1 T1 p bl i.
Proof.
  intros [HH HT] Hh Ht. induction n as [| n IH]; intros bl i Hi; [reflexivity |].
  cbn [lookahead]. destruct ((i <=? 2) && negb (bl =? 0)); [| reflexivity]. cbv zeta.
  rewrite <- (HH (Hash32 m (inp .+ (p + i)))) by apply Hash32_range.
  rewrite (probe_agree inp m T1 T2 p (p + i) (bl + i) bl (Max (p + i - WINDOW_SIZE) NIL));
    [apply IH; lia | rewrite Max_spec; lia | rewrite Max_spec; unfold NIL; lia
     | exact Ht | exact HT | apply Hh, Hash32_range].
Qed.

Lemma find_match_agree inp n level m H1 T1 H2 T2 run p :
  tables_agree p H1 T1 H2 T2 -> head_ok H1 p -> tail_ok T1 p ->
  find_match inp n level m H2 T2 run p = find_match inp n level m H1 T1 run p.
Proof.
  intros Hag Hh Ht. pose proof Hag as [HH HT]. unfold find_match.
  destruct (n - p >=? MIN_MATCH); [| reflexivity].
  rewrite <- (HH (Hash32 m (inp .+ p))) by apply Hash32_range.
  rewrite (search_agree inp m T1 T2 p (n - p) (Max (p - WINDOW_SIZE) NIL));
    [| rewrite Max_spec; lia | rewrite Max_spec; unfold NIL; lia
     | exact Ht | exact HT | apply Hh, Hash32_range].
  destruct (search inp _ m T1 p (n - p) _ _ _ _) as [bl d].
  rewrite (lookahead_agree inp level m H1 T1 H2 T2 p Hag Hh Ht) by lia.
  reflexivity.
Qed.

Lemma insert_hash_agree inp m H1 T1 H2 T2 p :
  0 <= p -> tables_agree p H1 T1 H2 T2 ->
  tables_agree (p + 1)
    (fst (insert_hash inp m H1 T1 p)) (snd (insert_hash inp m H1 T1 p))
    (fst (insert_hash inp m H2 T2 p)) (snd (insert_hash inp m H2 T2 p)).
Proof.
  intros Hp [HH HT]. unfold insert_hash. cbn [fst snd].
  set (h := Hash32 m (inp .+ p)). split.
  - intros k Hk. destruct (Z.eq_dec h k) as [<- | Hne].
    + rewrite !tget_insert_eq. reflexivity.
    + rewrite !tget_insert_ne by exact Hne. apply HH, Hk.
  - intros s Hs0 Hs. destruct (Z.eq_dec s p) as [-> | Hne].
    + rewrite !tget_insert_eq. apply HH. apply Hash32_range.
    + rewrite !tget_insert_ne by (apply land_mask_ne; lia). apply HT; lia.
Qed.

Lemma insert_n_agree inp m k : forall H1 T1 H2 T2 p,
  0 <= p -> tables_agree p H1 T1 H2 T2 ->
  tables_agree (p + Z.of_nat k)
    (fst (fst (insert_n inp k m H1 T1 p))) (snd (fst (insert_n inp k m H1 T1 p)))
    (fst (fst (insert_n inp k m H2 T2 p))) (snd (fst (insert_n inp k m H2 T2 p))).
Proof.
  induction k as [| k IH]; intros H1 T1 H2 T2 p Hp Hag.
  - cbn [insert_n fst snd Z.of_nat]. rewrite Z.add_0_r. exact Hag.
  - rewrite !insert_n_S. replace (p + Z.of_nat (S k)) with (p + 1 + Z.of_nat k) by lia.
    apply IH; [lia |]. apply (insert_hash_agree inp m H1 T1 H2 T2 p Hp Hag).
Qed.

Lemma Compress_body_agree inp n out level m0 st1 st2 :
  enc_inv inp n out m0 st1 -> cstate_agree st1 st2 ->
  cstate_agree (Compress_body inp n level st1) (Compress_body inp n level st2).
Proof.
  intros Henc (Em & Eo & Er & Ep & Hag).
  pose proof Henc as ((Hr0 & Hrp) & _ & _ & _ & Hch).
  assert (Hp0 : 0 <= c_p st1) by lia.
  pose proof (chain_ok_head _ _ _ _ _ Hp0 Hch) as Hh.
  pose proof (chain_ok_tail _ _ _ _ _ Hch) as Ht.
  destruct st1 as [m1 op1 run1 p1 H1 T1], st2 as [m2 op2 run2 p2 H2 T2].
  cbn [c_mem c_op c_run c_p c_Head c_Tail] in *. subst m2 op2 run2 p2.
  unfold Compress_body. cbn [c_mem c_op c_run c_p c_Head c_Tail].
  rewrite (find_match_agree inp n level m1 H1 T1 H2 T2 run1 p1 Hag Hh Ht).
  destruct (find_match inp n level m1 H1 T1 run1 p1) as [bl d].
  destruct (bl >=? MIN_MATCH).
  - unfold emit_match. cbn [c_mem c_op c_run c_p c_Head c_Tail].
    destruct (emit_run inp m1 op1 run1 p1 _) as [ma opa].
    destruct (if bl - MIN_MATCH >=? 15 then _ else _) as [mb opb].
    pose proof (insert_n_agree inp (UnalignedStore16 mb opb d) (Z.to_nat bl)
                  H1 T1 H2 T2 p1 Hp0 Hag) as Hins.
    pose proof (insert_n_p inp (UnalignedStore16 mb opb d) (Z.to_nat bl) H1 T1 p1) as P1.
    pose proof (insert_n_p inp (UnalignedStore16 mb opb d) (Z.to_nat bl) H2 T2 p1) as P2.
    destruct (insert_n inp (Z.to_nat bl) (UnalignedStore16 mb opb d) H1 T1 p1)
      as [[H1' T1'] p1'].
    destruct (insert_n inp (Z.to_nat bl) (UnalignedStore16 mb opb d) H2 T2 p1)
      as [[H2' T2'] p2'].
    cbn [fst snd] in Hins, P1, P2. subst p1' p2'.
    unfold cstate_agree. cbn [c_mem c_op c_run c_p c_Head c_Tail].
    repeat split; try reflexivity; apply Hins.
  - unfold emit_literal. cbn [c_mem c_op c_run c_p c_Head c_Tail].
    pose proof (insert_hash_agree inp m1 H1 T1 H2 T2 p1 Hp0 Hag) as Hins.
    destruct (insert_hash inp m1 H1 T1 p1) as [H1' T1'].
    destruct (insert_hash inp m1 H2 T2 p1) as [H2' T2'].
    cbn [fst snd] in Hins.
    unfold cstate_agree. cbn [c_mem c_op c_run c_p c_Head c_Tail].
    repeat split; try reflexivity; apply Hins.
Qed.

Lemma Compress_loop_agree inp n out level m0 :
  blk inp <> blk out ->
  forall fuel st1 st2,
  enc_inv inp n out m0 st1 -> cstate_agree st1 st2 ->
  match Compress_loop inp n level fuel st1, Compress_loop inp n level fuel st2 with
  | Some a, Some b => cstate_agree a b
  | None, None => True
  | _, _ => False
  end.
Proof.
  intros Hio. induction fuel as [| f IH]; intros st1 st2 Henc Hag;
    pose proof Hag as (_ & _ & _ & Ep & _); cbn [Compress_loop]; rewrite Ep;
    destruct (Z.ltb_spec (c_p st1) n) as [Hlt | _]; try exact Hag; [exact I |].
  apply IH.
  - apply (Compress_body_inv inp n out level m0 st1 Hio Henc Hlt).
  - apply (Compress_body_agree inp n out level m0 st1 st2 Henc Hag).
Qed.

Lemma Head_reset_all H h :
  0 <= h < HASH_SIZE -> tget (Head_reset (Z.to_nat HASH_SIZE) 0 H) h = NIL.
Proof.
  intros Hh. rewrite Head_reset_spec by lia.
  rewrite Z2Nat.id by (change HASH_SIZE with 262144; lia).
  destruct (Z.leb_spec 0 h), (Z.ltb_spec h (0 + HASH_SIZE)); cbn [andb];
    try reflexivity; lia.
Qed.

(** X13.  What [Compress] returns and stores does not depend on what an
    earlier call left in [Head] and [Tail]: [Head] is reset, and of [Tail] a
    chain walk only reads entries this call has written. *)
Theorem Compress_ignores_state
    (inp : ptr) (n : Z) (out : ptr) (level : Z) (self1 self2 : CULZ) (m : memory) :
  blk inp <> blk out -> 0 <= n ->
  Compress inp n out level self1 m = Compress inp n out level self2 m.
Proof.
  intros Hio Hn. unfold Compress, Compress_run.
  assert (Hinit : cstate_agree (Compress_init out self1 m) (Compress_init out self2 m)).
  { unfold Compress_init, cstate_agree. cbn [c_mem c_op c_run c_p c_Head c_Tail].
    split; [reflexivity |]. split; [reflexivity |]. split; [reflexivity |].
    split; [reflexivity |]. split.
    - intros h Hh. rewrite !Head_reset_all by exact Hh. reflexivity.
    - intros s Hs0 Hs. lia. }
  pose proof (Compress_loop_agree inp n out level m Hio (Z.to_nat n)
                (Compress_init out self1 m) (Compress_init out self2 m)
                (Compress_init_inv inp n out self1 m Hn) Hinit) as Hl.
  destruct (Compress_loop inp n level (Z.to_nat n) (Compress_init out self1 m)) as [a |],
           (Compress_loop inp n level (Z.to_nat n) (Compress_init out self2 m)) as [b |];
    try (exfalso; exact Hl); [| reflexivity].
  destruct Hl as (Em & Eo & Er & Ep & _).
  unfold flush_tail. rewrite Em, Eo, Er, Ep. destruct (negb (c_run a =? 0)).
  - destruct (emit_run inp (c_mem a) (c_op a) (c_run a) (c_p a) 0) as [m1 op1].
    reflexivity.
  - rewrite Em, Eo. reflexivity.
Qed.

Lemma Compress_ignores_state_witness :
  Compress pin 3 pout 4 fresh (store_bytes empty_memory pin [x61; x62; x63])
  = Compress pin 3 pout 4 {| Head := <[7 := 2]> ∅; Tail := <[0 := 1]> ∅ |}
      (store_bytes empty_memory pin [x61; x62; x63]).
Proof.
  apply Compress_ignores_state.
  - discriminate.
  - lia.
Defined.

(** ** A capacity below the length of the data *)

Lemma overrun_token m0 inp dinp dlen dout cap md ip a run bl d :
  blk dinp <> blk dout -> blk ip = blk dinp ->
  bytes_at md ip (token_bytes m0 inp a run bl d) ->
  0 <= a -> 0 <= run -> MIN_MATCH <= bl -> a + run + bl < 2 ^ 31 ->
  0 <= d < 131072 -> a <= cap < a + run + bl ->
  off ip + token_size run bl <= off (ip_end dinp dlen) ->
  exists md',
    Decompress_body dinp dlen dout cap (DState md ip (dout .+ a)) = Corrupt md'.
Proof.
  intros Hio Hip Hb Ha Hr Hbl H31 Hd' Hcap Hend.
  pose proof (match_tag_range bl d Hbl Hd') as Htr.
  destruct (match_tag_fields bl d Hbl Hd') as [Hf15 Hf16].
  destruct (tag_split (Z.min run 7) (match_tag bl d) ltac:(lia) Htr)
    as (_ & _ & Ht15 & Ht16 & _). cbv zeta in Ht15, Ht16.
  rewrite Hf15 in Ht15. rewrite Hf16 in Ht16.
  unfold token_bytes in Hb. rewrite run_bytes_hdr in Hb.
  apply bytes_at_app in Hb. destruct Hb as [Hb Hbm].
  apply bytes_at_app in Hb. destruct Hb as [Hbh _].
  rewrite length_app, Nat2Z.inj_add, run_hdr_length, in_bytes_length in Hbm by exact Hr.
  replace (run_size run - run + run) with (run_size run) in Hbm by lia.
  rewrite match_bytes_ext in Hbm. apply bytes_at_app in Hbm. destruct Hbm as [Hbe _].
  pose proof (match_bytes_length bl d) as Hml.
  assert (Hts : token_size run bl = run_size run + Z.of_nat (length (match_bytes bl d)))
    by (unfold token_size; lia).
  assert (Hm2 : 2 <= Z.of_nat (length (match_bytes bl d)))
    by (rewrite Hml; destruct (15 <=? bl - MIN_MATCH);
        [pose proof (varint_len_bounds (bl - MIN_MATCH - 15)) |]; lia).
  clear Hml.
  assert (Hrs : 1 <= run_size run - run)
    by (rewrite <- (run_hdr_length run 0); unfold run_hdr; simpl length; lia).
  destruct (Z.eq_dec run 0) as [-> | Hr0].
  - unfold run_hdr in Hbh. change (7 <=? 0) with false in Hbh.
    apply bytes_at_cons in Hbh. destruct Hbh as [Htag _].
    change (Z.shiftl (Z.min 0 7) 5) with 0 in *. rewrite Z.add_0_l in *.
    rewrite (Decompress_body_norun dinp dlen dout cap md ip (dout .+ a) _ Htag Htr).
    change (run_size 0) with 1 in *.
    rewrite (match_phase_len dout cap md (ip .+ 1) (dout .+ a) (match_tag bl d) bl Hbe)
      by (exact Ht15 || lia).
    cbv zeta. unfold op_end. cbn [off padd].
    destruct (Z.ltb_spec (off dout + cap - (off dout + a)) bl); [| lia].
    exists md. reflexivity.
  - rewrite (Decompress_body_run dinp dlen dout cap md ip (dout .+ a) run (match_tag bl d) Hbh)
      by (unfold MIN_MATCH in Hbl; lia).
    cbv zeta. unfold op_end, ip_end in *. cbn [off padd] in *.
    destruct (Z.ltb_spec (off dout + cap - (off dout + a)) run); cbn [orb];
      [exists md; reflexivity |].
    destruct (Z.ltb_spec (off dinp + dlen - (off ip + (run_size run - run))) run); [lia |].
    destruct (Z.geb_spec (off ip + (run_size run - run) + run) (off dinp + dlen)); [lia |].
    replace (ip .+ (run_size run - run) .+ run) with (ip .+ run_size run) by ptr_eq.
    set (md1 := WildCopy md (dout .+ a) (ip .+ (run_size run - run)) run).
    assert (Hbe1 : bytes_at md1 (ip .+ run_size run) (len_ext bl)).
    { intros i Hi. subst md1.
      rewrite (WildCopy_unchanged md (dout .+ a) (ip .+ (run_size run - run)) run)
        by (first [left; cbn [blk padd]; congruence
                  | intros [Hq _]; cbn [blk padd] in Hq; congruence]).
      apply Hbe. exact Hi. }
    rewrite (match_phase_len dout cap md1 (ip .+ run_size run) (dout .+ a .+ run)
               (Z.shiftl (Z.min run 7) 5 + match_tag bl d) bl Hbe1)
      by (exact Ht15 || lia).
    cbv zeta. unfold op_end. cbn [off padd].
    destruct (Z.ltb_spec (off dout + cap - (off dout + a + run)) bl); [| lia].
    exists md1. reflexivity.
Qed.

Lemma overrun_stream m0 inp dinp dlen dout cap tl :
  blk dinp <> blk dout -> cap < 2 ^ 31 -> 0 <= tl ->
  forall toks a md ip fuel,
  blk ip = blk dinp -> 0 <= a <= cap ->
  toks_ok m0 inp a toks ->
  cap < toks_end a toks + tl < 2 ^ 31 ->
  bytes_at md ip (stream_bytes m0 inp a toks ++ tail_bytes m0 inp (toks_end a toks) tl) ->
  prefix_ok md dout m0 inp a ->
  off ip + Z.of_nat (length (stream_bytes m0 inp a toks
                             ++ tail_bytes m0 inp (toks_end a toks) tl))
  = off (ip_end dinp dlen) ->
  off (ip_end dinp dlen) - off ip <= Z.of_nat fuel ->
  exists md',
    Decompress_loop dinp dlen dout cap fuel (DState md ip (dout .+ a)) = Some (-1, md').
Proof.
  intros Hio Hcap Htl. induction toks as [| [[run bl] d] rest IH];
    intros a md ip fuel Hip Ha Hok Hend Hb Hpre Hlen Hfuel.
  - cbn [stream_bytes toks_end app] in *.
    unfold tail_bytes in *. destruct (Z.eqb_spec tl 0) as [-> | Hne]; [lia |].
    rewrite run_bytes_hdr in Hb, Hlen. apply bytes_at_app in Hb. destruct Hb as [Hbh _].
    rewrite length_app, Nat2Z.inj_add, run_hdr_length, in_bytes_length in Hlen by lia.
    assert (Hrs : 1 <= run_size tl - tl)
      by (rewrite <- (run_hdr_length tl 0); unfold run_hdr; simpl length; lia).
    destruct fuel as [| f]; [lia |].
    rewrite Decompress_loop_S. cbn [d_ip].
    destruct (Z.ltb_spec (off ip) (off (ip_end dinp dlen))); [| lia].
    rewrite (Decompress_body_run dinp dlen dout cap md ip (dout .+ a) tl 0 Hbh) by lia.
    cbv zeta. unfold op_end. cbn [off padd].
    destruct (Z.ltb_spec (off dout + cap - (off dout + a)) tl); [| lia].
    cbn [orb]. exists md. reflexivity.
  - cbn [stream_bytes toks_end toks_ok] in *.
    destruct Hok as (Hr & Hbl & Hd & Hw & Hm & Hrest).
    rewrite <- app_assoc in Hb, Hlen.
    apply bytes_at_app in Hb. destruct Hb as [Hbt Hbr].
    rewrite length_app, Nat2Z.inj_add in Hlen.
    rewrite token_bytes_length in * by exact Hr.
    pose proof (token_size_pos run bl Hr) as Hts.
    pose proof (toks_end_ge _ _ _ _ Hrest) as Hmono.
    assert (Hlen0 : 0 <= Z.of_nat (length (stream_bytes m0 inp (a + run + bl) rest
                       ++ tail_bytes m0 inp (toks_end (a + run + bl) rest) tl))) by lia.
    destruct fuel as [| f]; [lia |].
    rewrite Decompress_loop_S. cbn [d_ip].
    destruct (Z.ltb_spec (off ip) (off (ip_end dinp dlen))); [| lia].
    destruct (Z_le_gt_dec (a + run + bl) cap) as [Hfit | Hover].
    + destruct (decode_token m0 inp dinp dlen dout cap md ip a run bl d)
        as (md1 & He & Hp1 & Hf1); try assumption; try lia.
      rewrite He.
      apply (IH (a + run + bl) md1 (ip .+ token_size run bl) f); try assumption.
      * unfold MIN_MATCH in Hbl. lia.
      * intros i Hi. rewrite Hf1 by (simpl; congruence). apply Hbr. exact Hi.
      * cbn [off padd]. lia.
      * cbn [off padd]. lia.
    + destruct (overrun_token m0 inp dinp dlen dout cap md ip a run bl d)
        as (md1 & He); try assumption; try lia.
      * change WINDOW_SIZE with 131072 in Hw. lia.
      * rewrite He. exists md1. reflexivity.
Qed.

(** X14.  Given the stream [Compress] made of [n] bytes and a capacity
    [cap < n], [Decompress] returns -1: one of its overrun checks stops it
    before [op] passes [op_end]. *)
Theorem Decompress_capacity_too_small
    (inp : ptr) (n : Z) (out : ptr) (level : Z) (self : CULZ) (m : memory)
    (dinp dout : ptr) (cap : Z) :
  blk inp <> blk out -> blk dinp <> blk dout ->
  0 <= n <= 2147221504 -> 0 <= cap < n ->
  exists r mc,
    Compress inp n out level self m = Some (r, mc)
    /\ forall md,
         read_bytes md dinp (Z.to_nat r) = read_bytes mc out (Z.to_nat r) ->
         exists md', Decompress dinp r dout cap md = Some (-1, md').
Proof.
  intros Hio Hdio Hn Hcap.
  assert (Hn' : 0 <= n < 2 ^ 31) by (change (2 ^ 31) with 2147483648; lia).
  destruct (Compress_stream inp n out level self m Hio Hn')
    as (r & mc & toks & run & Hc & Hrun & Hok & Hend & Hb & Hr).
  exists r, mc. split; [exact Hc |].
  intros md Hmd. rewrite read_bytes_load in Hmd.
  assert (Hbd : bytes_at md dinp
                  (stream_bytes m inp 0 toks ++ tail_bytes m inp (n - run) run)).
  { apply (bytes_at_transfer mc out md dinp _ [] r);
      [rewrite app_nil_r; exact Hb | intros i Hi; apply Hmd; lia | lia]. }
  unfold Decompress.
  replace (DState md dinp dout) with (DState md dinp (dout .+ 0))
    by (rewrite padd_0; reflexivity).
  rewrite <- Hend in Hbd, Hr.
  apply (overrun_stream m inp dinp r dout cap run Hdio ltac:(lia) Hrun toks 0 md dinp
           (Z.to_nat r)).
  - reflexivity.
  - lia.
  - exact Hok.
  - lia.
  - exact Hbd.
  - intros j Hj. lia.
  - unfold ip_end. cbn [off padd]. lia.
  - unfold ip_end. cbn [off padd]. lia.
Qed.

Lemma Decompress_capacity_too_small_witness :
  exists r mc,
    Compress pin 3 pout 4 fresh (store_bytes empty_memory pin [x61; x62; x63]) = Some (r, mc)
    /\ forall md,
         read_bytes md pin (Z.to_nat r) = read_bytes mc pout (Z.to_nat r) ->
         exists md', Decompress pin r pout 2 md = Some (-1, md').
Proof.
  apply (Decompress_capacity_too_small pin 3 pout 4 fresh
           (store_bytes empty_memory pin [x61; x62; x63]) pin pout 2).
  - discriminate.
  - discriminate.
  - lia.
  - lia.
Defined.

(** ** UnalignedCopy32 *)

(** X15.  [UnalignedCopy32(d, s)] loads the four bytes at [s] before it
    stores any: afterwards the four bytes at [d] are those that were at [s],
    also where the two ranges overlap, and no other byte has changed. *)
Theorem UnalignedCopy32_overlap (m : memory) (d s : ptr) :
  (forall k, 0 <= k < 4 -> load8 (UnalignedCopy32 m d s) (d .+ k) = load8 m (s .+ k))
  /\ unchanged_but m (UnalignedCopy32 m d s) (blk d) (off d) (off d + 4).
Proof.
  split; [intros k Hk; apply Copy32_byte; exact Hk | apply Copy32_unchanged].
Qed.

(** ** What the stream depends on *)

Lemma match_len_mem inp n m1 m2 s p bound :
  in_agree inp n m1 m2 -> 0 <= s <= p -> p + bound <= n ->
  forall fuel len, 0 <= len ->
  match_len inp fuel m1 s p bound len = match_len inp fuel m2 s p bound len.
Proof.
  intros Hag Hs Hb. induction fuel as [| f IH]; intros len Hl; [reflexivity |].
  cbn [match_len]. destruct (Z.ltb_spec len bound); cbn [andb]; [| reflexivity].
  rewrite (Hag (s + len)), (Hag (p + len)) by lia.
  destruct (_ =? _); [apply IH; lia | reflexivity].
Qed.

Lemma match_len_le inp m s p bound : forall fuel len,
  len <= bound -> match_len inp fuel m s p bound len <= bound.
Proof.
  induction fuel as [| f IH]; intros len Hl; cbn [match_len]; [exact Hl |].
  destruct (Z.ltb_spec len bound); cbn [andb]; [| exact Hl].
  destruct (_ =? _); [apply IH; lia | exact Hl].
Qed.

Lemma search_mem inp n m1 m2 T p mm limit :
  in_agree inp n m1 m2 -> p + mm <= n -> MIN_MATCH <= mm ->
  -1 <= limit -> p - WINDOW_SIZE <= limit -> tail_ok T p ->
  forall c s bl d, s < p -> 0 <= bl < mm ->
  search inp c m1 T p mm limit s bl d = search inp c m2 T p mm limit s bl d.
Proof.
  intros Hag Hn Hmm Hl1 Hlim Hok. unfold MIN_MATCH in Hmm.
  induction c as [| c IH]; intros s bl d Hs Hbl; [reflexivity |].
  rewrite !search_S. destruct (Z.gtb_spec s limit) as [Hgt | _]; [| reflexivity].
  rewrite (Hag (s + bl)), (Hag (p + bl)) by lia.
  rewrite (Load32_ext m1 m2 (inp .+ s) (inp .+ s))
    by (intros k Hk; rewrite !padd_padd; apply Hag; lia).
  rewrite (Load32_ext m1 m2 (inp .+ p) (inp .+ p))
    by (intros k Hk; rewrite !padd_padd; apply Hag; lia).
  rewrite (match_len_mem inp n m1 m2 s p mm Hag) by (unfold MIN_MATCH; lia).
  assert (Hnext : tget T (Z.land s WINDOW_MASK) < p)
    by (pose proof (Hok s ltac:(lia) ltac:(lia)); lia).
  pose proof (match_len_le inp m2 s p mm (Z.to_nat (mm - MIN_MATCH)) MIN_MATCH
                ltac:(unfold MIN_MATCH; lia)) as Hle.
  destruct (_ && _); [| apply IH; assumption]. cbv zeta.
  set (len := match_len inp _ m2 s p mm MIN_MATCH) in *.
  destruct (Z.gtb_spec len bl); [| apply IH; assumption].
  destruct (Z.eqb_spec len mm); [reflexivity |]. apply IH; [assumption | lia].
Qed.

Lemma find_match_mem inp n level m1 m2 H T run p :
  in_agree inp n m1 m2 -> level <> 9 -> 0 <= p -> head_ok H p -> tail_ok T p ->
  find_match inp n level m1 H T run p = find_match inp n level m2 H T run p.
Proof.
  intros Hag H9 Hp Hh Ht. unfold find_match.
  destruct (Z.geb_spec (n - p) MIN_MATCH) as [Hmm | _]; [| reflexivity].
  assert (Eh : Hash32 m1 (inp .+ p) = Hash32 m2 (inp .+ p)).
  { unfold Hash32. rewrite (Load32_ext m1 m2 (inp .+ p) (inp .+ p)); [reflexivity |].
    intros k Hk. rewrite !padd_padd. apply Hag. unfold MIN_MATCH in Hmm. lia. }
  rewrite Eh.
  rewrite (search_mem inp n m1 m2 T p (n - p) (Max (p - WINDOW_SIZE) NIL) Hag);
    [| lia | lia | rewrite Max_spec; unfold NIL; lia | rewrite Max_spec; lia | exact Ht
     | apply Hh, Hash32_range | unfold MIN_MATCH in *; lia].
  destruct (search inp _ m2 T p (n - p) _ _ _ _) as [bl d].
  destruct (Z.eqb_spec level 9); [contradiction | reflexivity].
Qed.

Lemma find_match_short inp n level m H T run p :
  n - p < MIN_MATCH -> find_match inp n level m H T run p = (MIN_MATCH - 1, 0).
Proof.
  intros Hs. unfold find_match. destruct (Z.geb_spec (n - p) MIN_MATCH); [lia | reflexivity].
Qed.

Lemma in_bytes_agree inp n m1 m2 a run :
  in_agree inp n m1 m2 -> 0 <= a -> a + run <= n ->
  in_bytes m1 inp a run = in_bytes m2 inp a run.
Proof.
  intros Hag Ha Hr. unfold in_bytes. apply map_ext_in. intros i Hi.
  apply in_seq in Hi. apply Hag. lia.
Qed.

Lemma insert_n_mem inp m1 m2 k : forall H T p,
  (forall q, p <= q < p + Z.of_nat k -> Hash32 m1 (inp .+ q) = Hash32 m2 (inp .+ q)) ->
  insert_n inp k m1 H T p = insert_n inp k m2 H T p.
Proof.
  induction k as [| k IH]; intros H T p Hh; [reflexivity |].
  rewrite !insert_n_S. rewrite (Hh p) by lia. apply IH. intros q Hq. apply Hh. lia.
Qed.

Lemma enc_inv_input inp n out m0 st i :
  blk inp <> blk out -> enc_inv inp n out m0 st ->
  load8 (c_mem st) (inp .+ i) = load8 m0 (inp .+ i).
Proof. intros Hio (_ & _ & _ & Hfr & _). apply Hfr. cbn [blk padd]. exact Hio. Qed.

Lemma Compress_body_pair inp n out level ma mb sta stb :
  blk inp <> blk out -> level <> 9 -> in_agree inp n ma mb ->
  enc_inv inp n out ma sta -> enc_inv inp n out mb stb ->
  pair_rel n out sta stb -> c_p sta < n ->
  pair_rel n out (Compress_body inp n level sta) (Compress_body inp n level stb).
Proof.
  intros Hio H9 Hag Ha Hb (Eo & Er & Ep & HT & Hout) Hlt.
  pose proof Ha as ((Hr0 & Hrp) & HpN & Hbo & _ & Hch).
  assert (Hp0 : 0 <= c_p sta) by lia.
  assert (Hst : in_agree inp n (c_mem sta) (c_mem stb)).
  { intros i Hi. rewrite (enc_inv_input inp n out ma sta i Hio Ha).
    rewrite (enc_inv_input inp n out mb stb i Hio Hb). apply Hag, Hi. }
  pose proof (Compress_body_inv inp n out level ma sta Hio Ha Hlt) as [Ha' _].
  pose proof (Compress_body_inv inp n out level mb stb Hio Hb ltac:(lia)) as [Hb' _].
  assert (Hst' : in_agree inp n (c_mem (Compress_body inp n level sta))
                   (c_mem (Compress_body inp n level stb))).
  { intros i Hi. rewrite (enc_inv_input inp n out ma _ i Hio Ha').
    rewrite (enc_inv_input inp n out mb _ i Hio Hb'). apply Hag, Hi. }
  assert (Efm : find_match inp n level (c_mem stb) (c_Head stb) (c_Tail stb)
                  (c_run stb) (c_p stb)
                = find_match inp n level (c_mem sta) (c_Head sta) (c_Tail sta)
                    (c_run sta) (c_p sta)).
  { rewrite Er, Ep. destruct (Z_lt_ge_dec (n - c_p sta) MIN_MATCH) as [Hs | Hl].
    - rewrite !find_match_short by exact Hs. reflexivity.
    - destruct (HT ltac:(lia)) as [-> ->]. symmetry.
      apply (find_match_mem inp n level _ _ _ _ _ _ Hst H9 Hp0);
        [apply (chain_ok_head _ _ _ _ _ Hp0 Hch) | apply (chain_ok_tail _ _ _ _ _ Hch)]. }
  pose proof (find_match_spec inp n level (c_mem sta) (c_Head sta) (c_Tail sta)
                (c_run sta) (c_p sta) Hp0
                (chain_ok_head _ _ _ _ _ Hp0 Hch) (chain_ok_tail _ _ _ _ _ Hch)) as Hsp.
  cbv zeta in Hsp. revert Ha' Hb' Hst'. unfold Compress_body. rewrite Efm.
  destruct (find_match inp n level (c_mem sta) (c_Head sta) (c_Tail sta)
              (c_run sta) (c_p sta)) as [bl d].
  cbn [fst snd] in Hsp.
  destruct (Z.geb_spec bl MIN_MATCH) as [Hbl | Hbl]; intros Ha' Hb' Hst'.
  - destruct Hsp as [? | (Hbl' & Hd & HdW & _)]; [lia |].
    change WINDOW_SIZE with 131072 in HdW.
    pose proof (emit_match_spec inp sta bl d) as Sa. cbv zeta in Sa.
    destruct Sa as (Oa & Ra & Pa & Ba & Ua & Ia); [rewrite Hbo; congruence | lia | lia | lia |].
    pose proof (emit_match_spec inp stb bl d) as Sb. cbv zeta in Sb.
    destruct Sb as (Ob & Rb & Pb & Bb & Ub & Ib);
      [rewrite Eo, Hbo; congruence | lia | lia | lia |].
    rewrite Eo, Er, Ep in *.
    pose proof (token_size_pos (c_run sta) bl Hr0) as Hts.
    unfold pair_rel. rewrite Oa, Ob, Ra, Rb, Pa, Pb. cbn [off padd].
    split; [reflexivity |]. split; [reflexivity |]. split; [reflexivity |]. split.
    + intros Hn'. destruct (HT ltac:(lia)) as [EH ET]. rewrite EH, ET in Ib.
      rewrite (insert_n_mem inp (c_mem (emit_match inp stb bl d))
                 (c_mem (emit_match inp sta bl d))) in Ib.
      * rewrite <- Ia in Ib. injection Ib as -> -> _. split; reflexivity.
      * intros q Hq. unfold Hash32.
        rewrite (Load32_ext _ (c_mem (emit_match inp sta bl d)) (inp .+ q) (inp .+ q));
          [reflexivity |].
        intros k Hk. rewrite !padd_padd. symmetry. apply Hst'. unfold MIN_MATCH in *. lia.
    + intros i Hi.
      destruct (Z_lt_ge_dec i (off (c_op sta) - off out)) as [Hold | Hnew].
      * rewrite Ua, Ub by (cbn [blk off padd]; lia). apply Hout. lia.
      * replace (out .+ i) with (c_op sta .+ (i - (off (c_op sta) - off out)))
          by (apply ptr_ext; cbn [blk off padd]; [exact Hbo | lia]).
        rewrite Ba, Bb by (rewrite token_bytes_length by exact Hr0; lia).
        unfold token_bytes, run_bytes.
        rewrite (in_bytes_agree inp n (c_mem sta) (c_mem stb)) by (assumption || lia).
        reflexivity.
  - unfold pair_rel, emit_literal, insert_hash.
    cbn [c_mem c_op c_run c_p c_Head c_Tail].
    split; [exact Eo |]. split; [lia |]. split; [lia |]. split; [| exact Hout].
    intros Hn'. destruct (HT ltac:(lia)) as [-> ->]. rewrite Ep.
    assert (Eh : Hash32 (c_mem stb) (inp .+ c_p sta) = Hash32 (c_mem sta) (inp .+ c_p sta)).
    { unfold Hash32.
      rewrite (Load32_ext (c_mem stb) (c_mem sta) (inp .+ c_p sta) (inp .+ c_p sta));
        [reflexivity |].
      intros k Hk. rewrite !padd_padd. symmetry. apply Hst. unfold MIN_MATCH in *. lia. }
    rewrite Eh. split; reflexivity.
Qed.

Lemma Compress_loop_pair inp n out level ma mb :
  blk inp <> blk out -> level <> 9 -> in_agree inp n ma mb ->
  forall fuel sta stb,
  enc_inv inp n out ma sta -> enc_inv inp n out mb stb -> pair_rel n out sta stb ->
  match Compress_loop inp n level fuel sta, Compress_loop inp n level fuel stb with
  | Some a, Some b =>
      enc_inv inp n out ma a /\ enc_inv inp n out mb b /\ pair_rel n out a b
  | None, None => True
  | _, _ => False
  end.
Proof.
  intros Hio H9 Hag. induction fuel as [| f IH]; intros sta stb Ha Hb Hr;
    pose proof Hr as (_ & _ & Ep & _); cbn [Compress_loop]; rewrite Ep;
    destruct (Z.ltb_spec (c_p sta) n) as [Hlt | _].
  - exact I.
  - exact (conj Ha (conj Hb Hr)).
  - apply IH.
    + apply (Compress_body_inv inp n out level ma sta Hio Ha Hlt).
    + apply (Compress_body_inv inp n out level mb stb Hio Hb). lia.
    + apply (Compress_body_pair inp n out level ma mb sta stb); assumption.
  - exact (conj Ha (conj Hb Hr)).
Qed.

(** X16.  At every level but 9, the length [Compress] returns and the bytes
    of the stream depend on the [in_len] bytes of the input only: not on the
    bytes after them, which [Hash32] of the last three positions and
    [WildCopy] load, and not on what the output buffer held. *)
Theorem Compress_reads_input_only
    (inp : ptr) (n : Z) (out : ptr) (level : Z) (self : CULZ) (ma mb : memory) :
  blk inp <> blk out -> 0 <= n <= 2147221504 -> level <> 9 ->
  (forall i, 0 <= i < n -> load8 ma (inp .+ i) = load8 mb (inp .+ i)) ->
  exists r ma' mb',
    Compress inp n out level self ma = Some (r, ma')
    /\ Compress inp n out level self mb = Some (r, mb')
    /\ forall i, 0 <= i < r -> load8 ma' (out .+ i) = load8 mb' (out .+ i).
Proof.
  intros Hio [Hn _] H9 Hag. unfold Compress, Compress_run.
  assert (Hinit : pair_rel n out (Compress_init out self ma) (Compress_init out self mb)).
  { unfold pair_rel, Compress_init. cbn [c_mem c_op c_run c_p c_Head c_Tail].
    split; [reflexivity |]. split; [reflexivity |]. split; [reflexivity |].
    split; [intros _; split; reflexivity |]. intros i Hi. lia. }
  pose proof (Compress_loop_pair inp n out level ma mb Hio H9 Hag (Z.to_nat n) _ _
                (Compress_init_inv inp n out self ma Hn)
                (Compress_init_inv inp n out self mb Hn) Hinit) as Hl.
  destruct (Compress_loop_rule inp n level (enc_inv inp n out ma)
              (fun st HI Hlt => Compress_body_inv inp n out level ma st Hio HI Hlt)
              (Z.to_nat n) (Compress_init out self ma)
              (Compress_init_inv inp n out self ma Hn))
    as (sta & Ea & _ & _); [unfold Compress_init; cbn [c_p]; lia |].
  rewrite Ea in Hl |- *.
  destruct (Compress_loop inp n level (Z.to_nat n) (Compress_init out self mb)) as [stb |];
    [| contradiction].
  destruct Hl as (Ha & Hb & (Eo & Er & Ep & _ & Hout)).
  pose proof Ha as ((Hr0 & Hrp) & HpN & Hbo & _).
  assert (Hst : in_agree inp n (c_mem sta) (c_mem stb)).
  { intros i Hi. rewrite (enc_inv_input inp n out ma sta i Hio Ha).
    rewrite (enc_inv_input inp n out mb stb i Hio Hb). apply Hag, Hi. }
  unfold flush_tail. rewrite Eo, Er, Ep.
  destruct (Z.eqb_spec (c_run sta) 0) as [E0 | Hne]; cbn [negb].
  - eexists _, _, _. split; [reflexivity |]. split; [rewrite Eo; reflexivity |]. exact Hout.
  - assert (Hbi : blk (c_op sta) <> blk inp) by (rewrite Hbo; congruence).
    destruct (emit_run_spec inp (c_mem sta) (c_op sta) (c_run sta) (c_p sta) 0 Hbi Hr0)
      as (Pa & Ba & Ua); [lia |].
    destruct (emit_run_spec inp (c_mem stb) (c_op sta) (c_run sta) (c_p sta) 0 Hbi Hr0)
      as (Pb & Bb & Ub); [lia |].
    destruct (emit_run inp (c_mem sta) (c_op sta) (c_run sta) (c_p sta) 0) as [m1 o1].
    destruct (emit_run inp (c_mem stb) (c_op sta) (c_run sta) (c_p sta) 0) as [m2 o2].
    cbn [fst snd c_op c_mem] in *. subst o1 o2.
    eexists _, m1, m2. split; [reflexivity |]. split; [reflexivity |].
    cbn [off padd]. intros i Hi.
    destruct (Z_lt_ge_dec i (off (c_op sta) - off out)) as [Hold | Hnew].
    + rewrite Ua, Ub by (cbn [blk off padd]; lia). apply Hout. lia.
    + replace (out .+ i) with (c_op sta .+ (i - (off (c_op sta) - off out)))
        by (apply ptr_ext; cbn [blk off padd]; [exact Hbo | lia]).
      rewrite Ba, Bb by (rewrite run_bytes_length by exact Hr0; lia).
      unfold run_bytes.
      rewrite (in_bytes_agree inp n (c_mem sta) (c_mem stb)) by (assumption || lia).
      reflexivity.
Qed.

Lemma Compress_reads_input_only_witness :
  exists r ma' mb',
    Compress pin 3 pout 4 fresh (store_bytes empty_memory pin [x61; x62; x63]) = Some (r, ma')
    /\ Compress pin 3 pout 4 fresh (store_bytes empty_memory pin [x61; x62; x63; x64])
       = Some (r, mb')
    /\ forall i, 0 <= i < r -> load8 ma' (pout .+ i) = load8 mb' (pout .+ i).
Proof.
  apply (Compress_reads_input_only pin 3 pout 4 fresh
           (store_bytes empty_memory pin [x61; x62; x63])
           (store_bytes empty_memory pin [x61; x62; x63; x64])).
  - discriminate.
  - lia.
  - lia.
  - intros i Hi. assert (i = 0 \/ i = 1 \/ i = 2) as [-> | [-> | ->]] by lia; reflexivity.
Defined.

(** ** A run of one byte *)

Lemma match_len_full inp m s p bound fuel :
  MIN_MATCH <= bound -> bound - MIN_MATCH <= Z.of_nat fuel ->
  matches m inp s p bound ->
  match_len inp fuel m s p bound MIN_MATCH = bound.
Proof.
  intros Hb Hf Hm.
  pose proof (match_len_spec inp m s p bound fuel MIN_MATCH Hf Hb) as Hs. cbv zeta in Hs.
  destruct Hs as ((Hge & Hle) & _ & Hstop); [intros k Hk; apply Hm; lia |].
  destruct (Z.eq_dec (match_len inp fuel m s p bound MIN_MATCH) bound) as [E | Hne];
    [exact E | exfalso].
  apply Hstop; [lia |]. apply Hm. unfold MIN_MATCH in *. lia.
Qed.

Lemma enc_inv_hash inp n out m0 st i :
  blk inp <> blk out -> enc_inv inp n out m0 st ->
  Hash32 (c_mem st) (inp .+ i) = Hash32 m0 (inp .+ i).
Proof.
  intros Hio (_ & _ & _ & Hfr & _). apply Hash32_ext. intros k _. apply Hfr.
  cbn [blk padd]. exact Hio.
Qed.

(** If the head of the chain of [p] matches all the bytes left, the match
    finder returns them all. *)
Lemma find_match_whole inp n level m H T run p s :
  0 <= level ->
  tget H (Hash32 m (inp .+ p)) = s -> Max (p - WINDOW_SIZE) NIL < s ->
  MIN_MATCH <= n - p -> matches m inp s p (n - p) ->
  (n - p = MIN_MATCH -> run < 7 + 128) ->
  find_match inp n level m H T run p = (n - p, p - s).
Proof.
  intros Hl Hs Hlim Hmm Hm Hrun. unfold find_match.
  destruct (Z.geb_spec (n - p) MIN_MATCH) as [_ | ?]; [| lia].
  rewrite Hs.
  assert (Hc : exists c, Z.to_nat (max_chain level) = S c).
  { unfold max_chain. destruct (Z.ltb_spec level 8).
    - rewrite Z.shiftl_1_l. pose proof (Z.pow_pos_nonneg 2 level ltac:(lia) Hl).
      exists (Z.to_nat (2 ^ level) - 1)%nat. lia.
    - change WINDOW_SIZE with 131072. exists (Z.to_nat 131072 - 1)%nat. lia. }
  destruct Hc as [c ->]. rewrite search_S.
  destruct (Z.gtb_spec s (Max (p - WINDOW_SIZE) NIL)) as [_ | ?]; [| lia].
  unfold MIN_MATCH in Hmm. change (MIN_MATCH - 1) with 3.
  rewrite (Hm 3) by lia. rewrite Z.eqb_refl.
  rewrite (Load32_ext m m (inp .+ s) (inp .+ p))
    by (intros k Hk; rewrite !padd_padd; apply Hm; lia).
  rewrite Z.eqb_refl. cbn [andb]. cbv zeta.
  rewrite match_len_full by (unfold MIN_MATCH; (lia || exact Hm)).
  destruct (Z.gtb_spec (n - p) 3); [| lia]. rewrite Z.eqb_refl.
  destruct (Z.eqb_spec (n - p) MIN_MATCH) as [E | _].
  - destruct (Z.geb_spec run (7 + 128)); [specialize (Hrun E); lia |]. cbn [andb].
    rewrite Z.ltb_irrefl, andb_false_r. reflexivity.
  - cbn [andb]. rewrite Z.ltb_irrefl, andb_false_r. reflexivity.
Qed.

Lemma equal_bytes_token inp m n b :
  5 <= n -> load8 m (inp .+ 0) = b ->
  token_bytes m inp 0 1 (n - 1) 1
  = [32 + Z.min (n - 5) 15; b] ++ (if 20 <=? n then varint (n - 20) else []) ++ [1; 0].
Proof.
  intros Hn Hb. unfold token_bytes, run_bytes, match_bytes, match_tag, in_bytes, MIN_MATCH.
  change (Z.to_nat 1) with 1%nat. cbn [seq map Z.of_nat]. rewrite Z.add_0_r, Hb.
  change (7 <=? 1) with false. change (Z.shiftl (Z.min 1 7) 5) with 32.
  change (Z.land (Z.shiftr 1 12) 16) with 0. change (Z.land 1 255) with 1.
  change (Z.land (Z.shiftr 1 8) 255) with 0.
  replace (n - 1 - 4) with (n - 5) by lia. replace (n - 5 - 15) with (n - 20) by lia.
  rewrite Z.add_0_l.
  destruct (Z.leb_spec 15 (n - 5)), (Z.leb_spec 20 n); try lia; reflexivity.
Qed.

(** X17.  An input of [n >= 5] equal bytes [b] is encoded as one literal and
    one match of [n - 1] bytes at distance 1.  The stream is the tag
    [(1<<5) + Min(n-5, 15)], the byte [b], the varint of [n - 20] when
    [n >= 20], and the distance 1 in two bytes; the returned length is the
    length of these bytes. *)
Theorem Compress_equal_bytes
    (inp : ptr) (n : Z) (out : ptr) (level : Z) (self : CULZ) (m : memory) (b : Z) :
  blk inp <> blk out -> 5 <= n <= 2147221504 -> 0 <= level ->
  (forall i, 0 <= i < n -> load8 m (inp .+ i) = b) ->
  exists m',
    Compress inp n out level self m
    = Some (4 + (if 20 <=? n then varint_len (n - 20) else 0), m')
    /\ bytes_at m' out
         ([32 + Z.min (n - 5) 15; b] ++ (if 20 <=? n then varint (n - 20) else [])
          ++ [1; 0]).
Proof.
  intros Hio Hn Hl Hb. unfold Compress, Compress_run.
  assert (Hts : token_size 1 (n - 1) = 4 + (if 20 <=? n then varint_len (n - 20) else 0)).
  { unfold token_size, run_size, MIN_MATCH. change (7 <=? 1) with false.
    destruct (Z.leb_spec 15 (n - 1 - 4)), (Z.leb_spec 20 n); try lia.
    replace (n - 1 - 4 - 15) with (n - 20) by lia. lia. }
  destruct (Compress_loop_rule inp n level
              (fun st => enc_inv inp n out m st
                 /\ ((c_p st = 0 /\ c_run st = 0 /\ c_op st = out)
                     \/ (c_p st = 1 /\ c_run st = 1 /\ c_op st = out
                         /\ tget (c_Head st) (Hash32 m (inp .+ 0)) = 0)
                     \/ (c_p st = n /\ c_run st = 0
                         /\ off (c_op st) - off out = token_size 1 (n - 1)
                         /\ bytes_at (c_mem st) out (token_bytes m inp 0 1 (n - 1) 1)))))
    with (fuel := Z.to_nat n) (st := Compress_init out self m)
    as (st & Hloop & (Henc & Hcase) & Hge).
  - intros st (Henc & Hcase) Hlt.
    destruct (Compress_body_inv inp n out level m st Hio Henc Hlt) as [Henc' Hprog].
    split; [| exact Hprog]. split; [exact Henc' |].
    pose proof Henc as ((Hr0 & Hrp) & HpN & Hbo & Hfr & Hch).
    destruct Hcase as [(Ep & Er & Eo) | [(Ep & Er & Eo & EH) | (Ep & _)]]; [| | lia].
    + right. left.
      destruct (Compress_body_cases inp n out level m st Henc Hlt)
        as [E | (bl & d & _ & _ & _ & Hd & _)]; [| lia].
      rewrite E, emit_literal_run.
      destruct (emit_literal_fields inp st) as (Ep' & Eo' & EH').
      rewrite Ep', Eo', EH', Ep, Er. repeat split; try lia; try assumption.
      rewrite (enc_inv_hash inp n out m st 0 Hio Henc). apply tget_insert_eq.
    + right. right.
      assert (Hmem : forall i, 0 <= i < n -> load8 (c_mem st) (inp .+ i) = b)
        by (intros i Hi; rewrite (enc_inv_input inp n out m st i Hio Henc); apply Hb, Hi).
      assert (Efm : find_match inp n level (c_mem st) (c_Head st) (c_Tail st)
                      (c_run st) (c_p st) = (n - 1, 1)).
      { rewrite Ep, Er.
        rewrite (find_match_whole inp n level (c_mem st) (c_Head st) (c_Tail st) 1 1 0);
          unfold MIN_MATCH; try lia.
        - reflexivity.
        - transitivity (tget (c_Head st) (Hash32 m (inp .+ 0))); [| exact EH]. f_equal.
          rewrite <- (enc_inv_hash inp n out m st 0 Hio Henc). unfold Hash32.
          rewrite (Load32_ext (c_mem st) (c_mem st) (inp .+ 1) (inp .+ 0)); [reflexivity |].
          intros k Hk. rewrite !padd_padd, !Hmem by lia. reflexivity.
        - rewrite Max_spec. change WINDOW_SIZE with 131072. unfold NIL. lia.
        - intros k Hk. rewrite !Hmem by lia. reflexivity. }
      unfold Compress_body. rewrite Efm.
      destruct (Z.geb_spec (n - 1) MIN_MATCH); [| unfold MIN_MATCH in *; lia].
      pose proof (emit_match_spec inp st (n - 1) 1) as Hsp. cbv zeta in Hsp.
      destruct Hsp as (Eop & Erun & Ep' & Hbt & _);
        [rewrite Hbo; congruence | lia | lia | lia |].
      rewrite Eop, Erun, Ep', Ep, Er, Eo. cbn [off padd].
      split; [lia |]. split; [reflexivity |]. split; [lia |].
      rewrite Ep, Er, Eo in Hbt. change (1 - 1) with 0 in Hbt.
      rewrite (token_bytes_ext (c_mem st) m) in Hbt
        by (intros q Hq; apply Hfr; congruence).
      exact Hbt.
  - split; [apply Compress_init_inv; lia |]. left.
    unfold Compress_init. cbn [c_run c_p c_op]. repeat split.
  - unfold Compress_init. cbn [c_p]. lia.
  - rewrite Hloop. pose proof Henc as ((Hr0 & Hrp) & HpN & Hbo & _).
    destruct Hcase as [(Ep & _) | [(Ep & _) | (Ep & Er & Eo & Hby)]]; [lia | lia |].
    unfold flush_tail. rewrite Er. cbn [negb Z.eqb]. exists (c_mem st). split.
    + f_equal. f_equal. rewrite Eo. exact Hts.
    + rewrite <- (equal_bytes_token inp m n b) by (try apply Hb; lia). exact Hby.
Qed.

Lemma Compress_equal_bytes_witness :
  exists m',
    Compress pin 6 pout 4 fresh
      (store_bytes empty_memory pin [x61; x61; x61; x61; x61; x61])
    = Some (4 + (if 20 <=? 6 then varint_len (6 - 20) else 0), m')
    /\ bytes_at m' pout
         ([32 + Z.min (6 - 5) 15; 97] ++ (if 20 <=? 6 then varint (6 - 20) else [])
          ++ [1; 0]).
Proof.
  apply (Compress_equal_bytes pin 6 pout 4 fresh
           (store_bytes empty_memory pin [x61; x61; x61; x61; x61; x61]) 97).
  - discriminate.
  - lia.
  - lia.
  - intros i Hi.
    assert (i = 0 \/ i = 1 \/ i = 2 \/ i = 3 \/ i = 4 \/ i = 5)
      as [-> | [-> | [-> | [-> | [-> | ->]]]]] by lia; reflexivity.
Defined.

(** ** The stream as a sequence of tokens *)

(** X18.  What [Compress] writes is a sequence of tokens [(run, len, dist)],
    each a run of literals and a match of at least [MIN_MATCH] bytes at a
    distance from 1 up to the position of the match and below [WINDOW_SIZE]
    whose source holds the bytes of its target, followed by the run of
    literals that is left: runs and matches cover the [n] input bytes in
    order, and the returned length is the length of these bytes. *)
Theorem Compress_emits_tokens
    (inp : ptr) (n : Z) (out : ptr) (level : Z) (self : CULZ) (m0 : memory) :
  blk inp <> blk out -> 0 <= n <= 2147221504 ->
  exists r m1 toks run,
    Compress inp n out level self m0 = Some (r, m1)
    /\ 0 <= run /\ toks_ok m0 inp 0 toks /\ toks_end 0 toks = n - run
    /\ bytes_at m1 out (stream_bytes m0 inp 0 toks ++ tail_bytes m0 inp (n - run) run)
    /\ r = Z.of_nat (length (stream_bytes m0 inp 0 toks ++ tail_bytes m0 inp (n - run) run)).
Proof.
  intros Hio Hn. apply Compress_stream; [exact Hio |].
  change (2 ^ 31) with 2147483648. lia.
Qed.

Lemma Compress_emits_tokens_witness :
  exists r m1 toks run,
    Compress pin 3 pout 4 fresh (store_bytes empty_memory pin [x61; x62; x63]) = Some (r, m1)
    /\ 0 <= run
    /\ toks_ok (store_bytes empty_memory pin [x61; x62; x63]) pin 0 toks
    /\ toks_end 0 toks = 3 - run
    /\ bytes_at m1 pout
         (stream_bytes (store_bytes empty_memory pin [x61; x62; x63]) pin 0 toks
          ++ tail_bytes (store_bytes empty_memory pin [x61; x62; x63]) pin (3 - run) run)
    /\ r = Z.of_nat
             (length
                (stream_bytes (store_bytes empty_memory pin [x61; x62; x63]) pin 0 toks
                 ++ tail_bytes (store_bytes empty_memory pin [x61; x62; x63]) pin
                      (3 - run) run)).
Proof.
  apply (Compress_emits_tokens pin 3 pout 4 fresh
           (store_bytes empty_memory pin [x61; x62; x63])).
  - discriminate.
  - lia.
Defined.

(** X19.  [Decompress] decodes every such sequence of tokens, whichever
    encoder chose them: given the bytes of tokens that cover [n] bytes of
    data and the capacity [n], it returns [n] and leaves the data in the
    output buffer. *)
Theorem Decompress_decodes_tokens
    (m0 : memory) (inp dinp dout : ptr) (n : Z) (md : memory)
    (toks : list (Z * Z * Z)) (run : Z) :
  blk dinp <> blk dout -> 0 <= n < 2 ^ 31 -> 0 <= run ->
  toks_ok m0 inp 0 toks -> toks_end 0 toks = n - run ->
  bytes_at md dinp (stream_bytes m0 inp 0 toks ++ tail_bytes m0 inp (n - run) run) ->
  Z.of_nat (length (stream_bytes m0 inp 0 toks ++ tail_bytes m0 inp (n - run) run)) < 2 ^ 31 ->
  exists md',
    Decompress dinp
      (Z.of_nat (length (stream_bytes m0 inp 0 toks ++ tail_bytes m0 inp (n - run) run)))
      dout n md = Some (n, md')
    /\ forall j, 0 <= j < n -> load8 md' (dout .+ j) = load8 m0 (inp .+ j).
Proof.
  intros Hio Hn Hrun Hok Hend Hb _.
  destruct (Decompress_stream m0 inp dinp dout n md toks run Hio Hn Hrun Hok Hend Hb)
    as (md' & Hd & Hp).
  exists md'. split; [exact Hd | exact Hp].
Qed.

Lemma Decompress_decodes_tokens_witness :
  let m0 := store_bytes empty_memory pout [x61; x61; x61; x61; x61; x61] in
  let md := store_bytes empty_memory pin [x21; x61; x01; x00] in
  exists md',
    Decompress pin
      (Z.of_nat (length (stream_bytes m0 pout 0 [(1, 5, 1)] ++ tail_bytes m0 pout (6 - 0) 0)))
      pout 6 md = Some (6, md')
    /\ forall j, 0 <= j < 6 -> load8 md' (pout .+ j) = load8 m0 (pout .+ j).
Proof.
  intros m0 md.
  apply (Decompress_decodes_tokens m0 pout pin pout 6 md [(1, 5, 1)] 0).
  - discriminate.
  - lia.
  - lia.
  - cbn [toks_ok]. unfold MIN_MATCH. change WINDOW_SIZE with 131072.
    repeat split; try lia.
    intros k Hk.
    assert (k = 0 \/ k = 1 \/ k = 2 \/ k = 3 \/ k = 4) as [-> | [-> | [-> | [-> | ->]]]]
      by lia; reflexivity.
  - reflexivity.
  - change (stream_bytes m0 pout 0 [(1, 5, 1)] ++ tail_bytes m0 pout (6 - 0) 0)
      with [33; 97; 1; 0].
    intros i Hi. cbn [length Z.of_nat Pos.of_succ_nat Pos.succ] in Hi.
    assert (i = 0 \/ i = 1 \/ i = 2 \/ i = 3) as [-> | [-> | [-> | ->]]] by lia;
      reflexivity.
  - reflexivity.
Defined.

(** ** A capacity above the length of the data *)

Lemma Decompress_stream_cap m0 inp dinp dout n cap md toks run :
  blk dinp <> blk dout -> 0 <= n <= cap -> cap < 2 ^ 31 -> 0 <= run ->
  toks_ok m0 inp 0 toks -> toks_end 0 toks = n - run ->
  bytes_at md dinp (stream_bytes m0 inp 0 toks ++ tail_bytes m0 inp (n - run) run) ->
  exists md',
    Decompress dinp
      (Z.of_nat (length (stream_bytes m0 inp 0 toks ++ tail_bytes m0 inp (n - run) run)))
      dout cap md = Some (n, md')
    /\ prefix_ok md' dout m0 inp n.
Proof.
  intros Hio Hn Hcap Hrun Hok Hend Hb. unfold Decompress.
  pose proof (toks_end_ge m0 inp toks 0 Hok) as Hge. rewrite Hend in Hge.
  apply bytes_at_app in Hb. destruct Hb as [Hbs Hbt].
  rewrite length_app, Nat2Z.inj_add.
  set (L := Z.of_nat (length (stream_bytes m0 inp 0 toks))) in *.
  set (Lt := Z.of_nat (length (tail_bytes m0 inp (n - run) run))).
  assert (HLt : 0 <= Lt) by (subst Lt; lia).
  destruct (decode_stream m0 inp dinp (L + Lt) dout cap Hio Hcap toks 0 md dinp
              (Z.to_nat (L + Lt)))
    as (md1 & fuel' & He & Hfuel & Hp1 & Hf1); try assumption; try reflexivity; try lia.
  - intros j Hj. lia.
  - fold L. unfold ip_end. simpl off. lia.
  - unfold ip_end. simpl off. lia.
  - rewrite (padd_0 dout) in He. rewrite He.
    fold L in Hfuel |- *. unfold ip_end in Hfuel. simpl off in Hfuel.
    rewrite Hend in *. unfold tail_bytes in *.
    destruct (Z.eqb_spec run 0) as [-> | Hr0].
    + rewrite Decompress_loop_done by (unfold ip_end; subst Lt; simpl; lia).
      unfold Decompress_return. cbn [d_ip d_op d_mem]. unfold ip_end. simpl off.
      exists md1. subst Lt. simpl length.
      destruct (Z.eqb_spec (off dinp + L) (off dinp + (L + Z.of_nat 0))); [| lia].
      rewrite Z.sub_0_r in *. split; [f_equal; f_equal; lia | exact Hp1].
    + assert (HLt' : Lt = run_size run) by (subst Lt; apply run_bytes_length; lia).
      assert (Hrs : 1 <= run_size run) by (unfold run_size; destruct (7 <=? run);
        [pose proof (varint_len_bounds (run - 7)) |]; lia).
      destruct fuel' as [| f]; [lia |].
      destruct (decode_tail m0 inp dinp (L + Lt) dout cap md1 (dinp .+ L) (n - run) run f)
        as (md' & He' & Hp'); try assumption; try reflexivity; try lia.
      * intros i Hi. rewrite Hf1 by (simpl; congruence). apply Hbt. exact Hi.
      * unfold ip_end. simpl off. lia.
      * exists md'. rewrite He'. replace (n - run + run) with n in * by lia.
        split; [reflexivity | exact Hp'].
Qed.

(** X20.  Given the stream [Compress] made of [n] bytes and any capacity
    from [n] up (below 2^31), [Decompress] returns [n], not the capacity, and
    leaves the [n] input bytes in its output buffer. *)
Theorem Decompress_larger_capacity
    (inp : ptr) (n : Z) (out : ptr) (level : Z) (self : CULZ) (m : memory)
    (dinp dout : ptr) (cap : Z) :
  blk inp <> blk out -> blk dinp <> blk dout ->
  0 <= n <= 2147221504 -> n <= cap < 2 ^ 31 ->
  exists r mc,
    Compress inp n out level self m = Some (r, mc)
    /\ forall md,
         read_bytes md dinp (Z.to_nat r) = read_bytes mc out (Z.to_nat r) ->
         exists md',
           Decompress dinp r dout cap md = Some (n, md')
           /\ read_bytes md' dout (Z.to_nat n) = read_bytes m inp (Z.to_nat n).
Proof.
  intros Hio Hdio Hn0 [Hnc Hcap].
  assert (Hn : 0 <= n <= cap) by lia.
  assert (Hn' : 0 <= n < 2 ^ 31) by lia.
  destruct (Compress_stream inp n out level self m Hio Hn')
    as (r & mc & toks & run & Hc & Hrun & Hok & Hend & Hb & Hr).
  exists r, mc. split; [exact Hc |].
  intros md Hmd. rewrite read_bytes_load in Hmd.
  assert (Hbd : bytes_at md dinp
                  (stream_bytes m inp 0 toks ++ tail_bytes m inp (n - run) run)).
  { apply (bytes_at_transfer mc out md dinp _ [] r);
      [rewrite app_nil_r; exact Hb | intros i Hi; apply Hmd; lia | lia]. }
  destruct (Decompress_stream_cap m inp dinp dout n cap md toks run Hdio Hn Hcap Hrun
              Hok Hend Hbd) as (md' & Hd & Hp).
  exists md'. rewrite Hr. split; [exact Hd |].
  apply read_bytes_load. intros i Hi. apply Hp. lia.
Qed.

Lemma Decompress_larger_capacity_witness :
  exists r mc,
    Compress pin 3 pout 4 fresh (store_bytes empty_memory pin [x61; x62; x63]) = Some (r, mc)
    /\ forall md,
         read_bytes md pin (Z.to_nat r) = read_bytes mc pout (Z.to_nat r) ->
         exists md',
           Decompress pin r pout 100 md = Some (3, md')
           /\ read_bytes md' pout (Z.to_nat 3)
              = read_bytes (store_bytes empty_memory pin [x61; x62; x63]) pin (Z.to_nat 3).
Proof.
  apply (Decompress_larger_capacity pin 3 pout 4 fresh
           (store_bytes empty_memory pin [x61; x62; x63]) pin pout 100).
  - discriminate.
  - discriminate.
  - lia.
  - lia.
Defined.
